(** * rawcheck: a shallow embedding of [rawcheck.py]

    The program walks a directory tree, pushes the path of every camera
    RAW file onto a hand-written blocking queue and lets a pool of worker
    threads run an external decoder on each path.  This development embeds
    the three classes of the script ([Queue], [WorkerThread], [RawCheck])
    and the few library functions of Python they rely on, and states the
    properties of the specification over these definitions.

    Layout:
    - [PyStr]    Python text as sequences of code points, and the string
                 and path functions used by the script;
    - [Dict]     Python's insertion-ordered dictionaries;
    - [Queue]    the queue object and its methods run by one thread;
    - [Threads]  the same methods interleaved statement by statement;
    - [Worker]   [WorkerThread];
    - [RawCheck] the coordinator, [RawCheck.__call__], and the script's
                 entry point. *)

From Stdlib Require Import String Ascii NArith ZArith Lia Permutation.
From stdpp Require Import base tactics option list numbers.

Set Default Proof Using "Type".
Local Open Scope Z_scope.

(** ** Exceptions raised by the script or by the Python functions it calls *)

Inductive AppErrorMsg {str : Type} : Type :=
  | NotADirectory (dir : str)        (* "Specified path '...' does not exist or is not a directory" *)
  | ExecutableNotFound (path : str)  (* "Executable '...' not found" *)
  | NotExecutable (path : str).      (* "File '...' ist not executable" *)
Arguments AppErrorMsg : clear implicits.

Inductive exn {str : Type} : Type :=
  | AppError (msg : AppErrorMsg str)
  | KeyboardInterrupt
  | AttributeError        (* None has no attribute 'items' *)
  | TypeError             (* None does not support item assignment *)
  | IndexError            (* pop from empty list *)
  | UnicodeDecodeError
  | UnicodeEncodeError.   (* print: standard output does not take a character *)
Arguments exn : clear implicits.

(** ** Python text *)

Module PyStr.

(** A [str] is a sequence of Unicode code points. *)
Definition str := list N.

(** Literals of the script, which are all ASCII. *)
Definition lit (s : string) : str := N_of_ascii <$> list_ascii_of_string s.

Definition eqb (a b : str) : bool := bool_decide (a = b).

(** [str.isspace] on one code point (CPython's [_PyUnicode_IsWhitespace]). *)
Definition isspace (c : N) : bool :=
  (((9 <=? c) && (c <=? 13)) || ((28 <=? c) && (c <=? 32))
   || (c =? 133) || (c =? 160) || (c =? 5760)
   || ((8192 <=? c) && (c <=? 8202))
   || (c =? 8232) || (c =? 8233) || (c =? 8239) || (c =? 8287)
   || (c =? 12288))%N.

Fixpoint lstrip (s : str) : str :=
  match s with
  | c :: s' => if isspace c then lstrip s' else s
  | [] => []
  end.

Definition rstrip (s : str) : str := rev (lstrip (rev s)).

(** [s.strip()] *)
Definition strip (s : str) : str := rstrip (lstrip s).

(** [s.startswith(p)] *)
Fixpoint startswith (s p : str) : bool :=
  match p, s with
  | [], _ => true
  | _ :: _, [] => false
  | c :: p', d :: s' => (c =? d)%N && startswith s' p'
  end.

(** [s.endswith(p)] *)
Definition endswith (s p : str) : bool := startswith (rev s) (rev p).

(** [s[i:]] and [s[:i]] for an index [i >= 0]; Python clamps the index to
    the length. *)
Definition slice_from (i : Z) (s : str) : str := drop (Z.to_nat i) s.
Definition slice_to (i : Z) (s : str) : str := take (Z.to_nat i) s.

(** [s.rfind(c)] for a single character [c]: the highest index holding
    [c], or [-1]. *)
Fixpoint rfind_from (i : Z) (c : N) (s : str) : Z :=
  match s with
  | [] => -1
  | d :: s' =>
      let r := rfind_from (i + 1) c s' in
      if 0 <=? r then r else if (d =? c)%N then i else -1
  end.
Definition rfind (c : N) (s : str) : Z := rfind_from 0 c s.

Definition sep : N := 47.     (* "/" *)
Definition extsep : N := 46.  (* "." *)

(** The [while] loop of [genericpath._splitext]: it looks, from
    [filenameIndex] up to [dotIndex], for a character that is not a dot. *)
Fixpoint splitext_scan (fuel : nat) (filenameIndex dotIndex : Z) (p : str) : bool :=
  match fuel with
  | O => false
  | S fuel' =>
      if filenameIndex <? dotIndex then
        if negb (eqb (take 1 (slice_from filenameIndex p)) [extsep]) then true
        else splitext_scan fuel' (filenameIndex + 1) dotIndex p
      else false
  end.

(** [os.path.splitext] (posixpath: separator "/", no alternative
    separator). *)
Definition splitext (p : str) : str * str :=
  let sepIndex := rfind sep p in
  let dotIndex := rfind extsep p in
  if (sepIndex <? dotIndex)
     && splitext_scan (Z.to_nat (dotIndex - sepIndex)) (sepIndex + 1) dotIndex p
  then (slice_to dotIndex p, slice_from dotIndex p)
  else (p, []).

(** [os.path.join(a, b)] (posixpath). *)
Definition join (a b : str) : str :=
  if startswith b [sep] then b
  else if eqb a [] || endswith a [sep] then a ++ b
  else a ++ [sep] ++ b.

(** [s.lower()].  CPython lowers a string that is all ASCII with a
    table of its own; any other string goes through the Unicode
    database, which is not part of the script: [unicode_lower]. *)
Definition ascii_lower (c : N) : N :=
  if ((65 <=? c) && (c <=? 90))%N then (c + 32)%N else c.

Definition isascii (s : str) : bool := forallb (fun c => (c <? 128)%N) s.

Definition lower (unicode_lower : str -> str) (s : str) : str :=
  if isascii s then ascii_lower <$> s else unicode_lower s.

(** [b.decode("utf-8")] in strict mode: the well-formed byte sequences
    of the Unicode standard, anything else raises. *)
Definition cont (b : N) : bool := ((128 <=? b) && (b <=? 191))%N.

Fixpoint decode_utf8 (bs : list N) : option str :=
  match bs with
  | [] => Some []
  | b0 :: r0 =>
      if (b0 <? 128)%N then cons b0 <$> decode_utf8 r0
      else match r0 with
      | [] => None
      | b1 :: r1 =>
          if ((194 <=? b0) && (b0 <=? 223) && cont b1)%N
          then cons ((b0 - 192) * 64 + (b1 - 128))%N <$> decode_utf8 r1
          else match r1 with
          | [] => None
          | b2 :: r2 =>
              if ((224 <=? b0) && (b0 <=? 239) && cont b1 && cont b2
                  && negb ((b0 =? 224) && (b1 <? 160))
                  && negb ((b0 =? 237) && (159 <? b1)))%N
              then cons ((b0 - 224) * 4096 + (b1 - 128) * 64 + (b2 - 128))%N
                     <$> decode_utf8 r2
              else match r2 with
              | [] => None
              | b3 :: r3 =>
                  if ((240 <=? b0) && (b0 <=? 244) && cont b1 && cont b2 && cont b3
                      && negb ((b0 =? 240) && (b1 <? 144))
                      && negb ((b0 =? 244) && (143 <? b1)))%N
                  then cons ((b0 - 240) * 262144 + (b1 - 128) * 4096
                             + (b2 - 128) * 64 + (b3 - 128))%N
                         <$> decode_utf8 r3
                  else None
              end
          end
      end
  end.

End PyStr.

Abbreviation str := PyStr.str.
Notation "'py' s" := (PyStr.lit s%string) (at level 1, s at level 0, only parsing).

(** ** Python dictionaries: insertion ordered, one binding per key *)

Module Dict.
Section Dict.
Context {K V : Type} `{EqDecision K}.

Definition t := list (K * V).

Definition empty : t := [].

(** [d.get(k)] *)
Fixpoint get (k : K) (d : t) : option V :=
  match d with
  | [] => None
  | (k', v) :: d' => if decide (k = k') then Some v else get k d'
  end.

(** [d[k] = v]: an existing key keeps its place, a new one goes last. *)
Fixpoint set (k : K) (v : V) (d : t) : t :=
  match d with
  | [] => [(k, v)]
  | (k', v') :: d' =>
      if decide (k = k') then (k, v) :: d' else (k', v') :: set k v d'
  end.

(** [d.items()] *)
Definition items (d : t) : list (K * V) := d.

End Dict.
Arguments t : clear implicits.
End Dict.

(** ** The queue, one thread at a time

  [Queue] keeps the pending entries in [_data] and the producer's
  "finished" flag in [_completed].  The semaphore [_sem] and the
  condition [_cond] only matter when several threads run the methods
  at once; they are part of [Threads.state] below.  Here each method is
  what one thread does when nothing else touches the queue meanwhile. *)

Module Queue.
Section Queue.
Context {A : Type}.

Record t := mk { _data : list A; _completed : bool }.

(** [Queue.__init__] *)
Definition init : t := {| _data := []; _completed := false |}.

(** [Queue.push]: append, then notify the waiting threads. *)
Definition push (entry : A) (q : t) : t :=
  {| _data := _data q ++ [entry]; _completed := _completed q |}.

(** [Queue.pop] either returns ([None] is the "no more work" value) or
    stays in [self._cond.wait()], which nothing ends when no other
    thread runs. *)
Inductive popped :=
  | Returns (result : option A) (q' : t)
  | Blocks.

Definition pop (q : t) : popped :=
  match _data q with
  | x :: rest => Returns (Some x) {| _data := rest; _completed := _completed q |}
  | [] => if negb (_completed q) then Blocks else Returns None q
  end.

(** [Queue.completed] *)
Definition completed (q : t) : t :=
  {| _data := _data q; _completed := true |}.

(** [Queue.clear] *)
Definition clear (q : t) : t :=
  {| _data := []; _completed := _completed q |}.

(** [n] calls of [pop] in a row: the results, and the queue left, as
    long as no call blocks. *)
Fixpoint pops (n : nat) (q : t) : option (list (option A) * t) :=
  match n with
  | O => Some ([], q)
  | S n' =>
      match pop q with
      | Blocks => None
      | Returns r q' =>
          match pops n' q' with
          | Some (rs, q'') => Some (r :: rs, q'')
          | None => None
          end
      end
  end.

(** The calls a producer makes, and their effect in order. *)
Inductive call := Push (entry : A) | Completed | Clear.

Definition apply (c : call) (q : t) : t :=
  match c with
  | Push entry => push entry q
  | Completed => completed q
  | Clear => clear q
  end.

Definition replay (cs : list call) (q : t) : t := foldl (fun q c => apply c q) q cs.

End Queue.
Arguments t : clear implicits.
Arguments call : clear implicits.
Arguments popped : clear implicits.
End Queue.

(** ** The queue under interleaving

    Every thread runs the statements of the queue's methods one at a
    time, and a schedule picks the thread that runs next.  A thread is
    either a consumer, which calls [pop] until it gets [None] (the loop of
    [WorkerThread.run]), or a caller, which runs a list of
    [push]/[completed]/[clear] calls in order (what the coordinator does
    on the queue).

    [sem] is the counter of [Queue._sem] ([threading.Semaphore()], which
    starts at 1) and [cond] the thread owning the lock of [Queue._cond];
    the threads parked in [self._cond.wait()] are those at [PopParked]. *)

Module Threads.
Section Threads.
Context {A : Type}.

(** Where a consumer stands inside [Queue.pop]. *)
Inductive pop_pc :=
  | PopEnter                     (* with self._sem:                 (acquire) *)
  | PopTest                      (* if len(self._data) > 0:                   *)
  | PopTake                      (* result = self._data.pop(0); break         *)
  | PopLeave (result : option A) (* leave the with block            (release) *)
  | PopFlag                      (* if not self._completed:                   *)
  | PopCondEnter                 (* with self._cond:                (acquire) *)
  | PopCondWait                  (* self._cond.wait(): give the lock up, park *)
  | PopParked                    (* parked until a notify_all                 *)
  | PopNotified                  (* notified: take the lock again             *)
  | PopCondLeave.                (* leave the with block, loop                *)

(** Where a caller stands inside [push], [completed] or [clear]. *)
Inductive call_pc :=
  | CallEnter    (* push: with self._sem: / completed: self._completed = True
                    / clear: self._data = [] *)
  | PushAppend   (* self._data.append(entry)          *)
  | PushLeave    (* leave the with block    (release) *)
  | CondEnter    (* with self._cond:        (acquire) *)
  | CondNotify   (* self._cond.notify_all()           *)
  | CondLeave.   (* leave the with block    (release) *)

Inductive thread :=
  | Popper (pc : pop_pc) (got : list A)  (* inside pop; [got]: what pop returned to it so far *)
  | PopperDone (got : list A)            (* pop returned None, the loop is left *)
  | PopperRaised (got : list A)          (* IndexError came out of pop *)
  | Caller (pc : call_pc) (todo : list (Queue.call A)).  (* inside the head of [todo] *)

Record state := mk {
  queue : Queue.t A;
  sem : nat;
  cond : option nat;
  threads : list thread;
  delivered : list (nat * A)   (* history: who took what, in the order of the takes *)
}.

Definition with_thread (i : nat) (th : thread) (s : state) : state :=
  mk (queue s) (sem s) (cond s) (<[i:=th]> (threads s)) (delivered s).

(** [notify_all] lets every parked thread go on. *)
Definition wake (th : thread) : thread :=
  match th with
  | Popper PopParked got => Popper PopNotified got
  | _ => th
  end.

Definition step_pop (i : nat) (pc : pop_pc) (got : list A) (s : state) : option state :=
  let q := queue s in
  match pc with
  | PopEnter =>
      match sem s with
      | S n => Some (mk q n (cond s) (<[i:=Popper PopTest got]> (threads s)) (delivered s))
      | O => None
      end
  | PopTest =>
      Some (with_thread i (Popper (if bool_decide (Queue._data q = [])
                                   then PopLeave None else PopTake) got) s)
  | PopTake =>
      match Queue._data q with
      | x :: rest =>
          Some (mk (Queue.mk rest (Queue._completed q)) (sem s) (cond s)
                   (<[i:=Popper (PopLeave (Some x)) got]> (threads s))
                   (delivered s ++ [(i, x)]))
      | [] =>
          Some (mk q (S (sem s)) (cond s) (<[i:=PopperRaised got]> (threads s)) (delivered s))
      end
  | PopLeave (Some x) =>
      Some (mk q (S (sem s)) (cond s) (<[i:=Popper PopEnter (got ++ [x])]> (threads s))
               (delivered s))
  | PopLeave None =>
      Some (mk q (S (sem s)) (cond s) (<[i:=Popper PopFlag got]> (threads s)) (delivered s))
  | PopFlag =>
      Some (with_thread i (if negb (Queue._completed q)
                           then Popper PopCondEnter got else PopperDone got) s)
  | PopCondEnter =>
      match cond s with
      | None => Some (mk q (sem s) (Some i) (<[i:=Popper PopCondWait got]> (threads s))
                         (delivered s))
      | Some _ => None
      end
  | PopCondWait =>
      Some (mk q (sem s) None (<[i:=Popper PopParked got]> (threads s)) (delivered s))
  | PopParked => None
  | PopNotified =>
      match cond s with
      | None => Some (mk q (sem s) (Some i) (<[i:=Popper PopCondLeave got]> (threads s))
                         (delivered s))
      | Some _ => None
      end
  | PopCondLeave =>
      Some (mk q (sem s) None (<[i:=Popper PopEnter got]> (threads s)) (delivered s))
  end.

(** The three statements shared by [push] and [completed]:
    [with self._cond: self._cond.notify_all()]. *)
Definition step_notify (i : nat) (pc : call_pc) (todo : list (Queue.call A))
    (s : state) : option state :=
  let q := queue s in
  match pc, todo with
  | CondEnter, _ =>
      match cond s with
      | None => Some (mk q (sem s) (Some i) (<[i:=Caller CondNotify todo]> (threads s))
                         (delivered s))
      | Some _ => None
      end
  | CondNotify, _ =>
      Some (mk q (sem s) (cond s) (<[i:=Caller CondLeave todo]> (wake <$> threads s))
               (delivered s))
  | CondLeave, _ :: rest =>
      Some (mk q (sem s) None (<[i:=Caller CallEnter rest]> (threads s)) (delivered s))
  | _, _ => None
  end.

Definition step_call (i : nat) (pc : call_pc) (todo : list (Queue.call A))
    (s : state) : option state :=
  let q := queue s in
  match todo with
  | [] => None
  | Queue.Push entry :: rest =>
      match pc with
      | CallEnter =>
          match sem s with
          | S n => Some (mk q n (cond s) (<[i:=Caller PushAppend todo]> (threads s))
                            (delivered s))
          | O => None
          end
      | PushAppend =>
          Some (mk (Queue.mk (Queue._data q ++ [entry]) (Queue._completed q)) (sem s) (cond s)
                   (<[i:=Caller PushLeave todo]> (threads s)) (delivered s))
      | PushLeave =>
          Some (mk q (S (sem s)) (cond s) (<[i:=Caller CondEnter todo]> (threads s))
                   (delivered s))
      | _ => step_notify i pc todo s
      end
  | Queue.Completed :: rest =>
      match pc with
      | CallEnter =>
          Some (mk (Queue.mk (Queue._data q) true) (sem s) (cond s)
                   (<[i:=Caller CondEnter todo]> (threads s)) (delivered s))
      | PushAppend | PushLeave => None
      | _ => step_notify i pc todo s
      end
  | Queue.Clear :: rest =>
      match pc with
      | CallEnter =>
          Some (mk (Queue.mk [] (Queue._completed q)) (sem s) (cond s)
                   (<[i:=Caller CallEnter rest]> (threads s)) (delivered s))
      | _ => None
      end
  end.

(** One statement of thread [i]; [None] when the thread is blocked, has
    finished, or does not exist. *)
Definition step (i : nat) (s : state) : option state :=
  match threads s !! i with
  | Some (Popper pc got) => step_pop i pc got s
  | Some (Caller pc todo) => step_call i pc todo s
  | Some (PopperDone _) | Some (PopperRaised _) | None => None
  end.

(** A schedule names the thread of each step; it is run only as far as
    every named thread can move. *)
Fixpoint run (sched : list nat) (s : state) : option state :=
  match sched with
  | [] => Some s
  | i :: sched' =>
      match step i s with
      | Some s' => run sched' s'
      | None => None
      end
  end.

(** No thread can move. *)
Definition stuck (s : state) : Prop := ∀ i, step i s = None.

(** What a thread has been handed by [pop], the entry it is about to
    return included. *)
Definition received (th : thread) : list A :=
  match th with
  | Popper (PopLeave (Some x)) got => got ++ [x]
  | Popper _ got | PopperDone got | PopperRaised got => got
  | Caller _ _ => []
  end.

(** A fresh queue shared by the given threads. *)
Definition start (q : Queue.t A) (ths : list thread) : state := mk q 1 None ths [].

(** [n] consumers about to call [pop]. *)
Definition poppers (n : nat) : list thread := replicate n (Popper PopEnter []).

End Threads.
Arguments pop_pc : clear implicits.
Arguments thread : clear implicits.
Arguments state : clear implicits.
End Threads.

(** ** [WorkerThread] *)

Module Worker.

(** What [os.path.isdir], [os.path.isfile] and [os.access(_, os.X_OK)]
    answer at some moment. *)
Record OS := {
  isdir : str → bool;
  isfile : str → bool;
  access_X_OK : str → bool
}.

(** The [CompletedProcess] of [subprocess.run]: exit status and the bytes
    captured from the standard error stream. *)
Record CompletedProcess := {
  returncode : Z;
  stderr : list N
}.

Record t := mk {
  name : nat;                          (* the n of "Thread-n" *)
  _failed : option (Dict.t str str);
  _dcraw_path : str
}.

(** [WorkerThread.__init__] *)
Definition __init__ (os : OS) (name : nat) (dcraw_path : str) : exn str + t :=
  if negb (isfile os dcraw_path) then inl (AppError (ExecutableNotFound dcraw_path))
  else if negb (access_X_OK os dcraw_path) then inl (AppError (NotExecutable dcraw_path))
  else inr {| name := name; _failed := None; _dcraw_path := dcraw_path |}.

(** The [failed] property. *)
Definition failed (w : t) : option (Dict.t str str) := _failed w.

(** What [_command] stores for a diagnostic that is kept: the text itself,
    or the text from [len(path) + 2] on when it starts with the path. *)
Definition cleaned (path text : str) : str :=
  if PyStr.startswith text path
  then PyStr.slice_from (Z.of_nat (length path) + 2) text
  else text.

Section Run.
(** The decoder, as [subprocess.run] sees it: from the argument list to
    the completed process. *)
Variable subprocess_run : list str → CompletedProcess.

(** [WorkerThread._command] *)
Definition _command (w : t) (path : str) : exn str + t :=
  let args := [_dcraw_path w; py "-Z"; py "-"; path] in
  let res := subprocess_run args in
  match PyStr.decode_utf8 (stderr res) with
  | None => inl UnicodeDecodeError
  | Some text =>
      let stderr := PyStr.strip text in
      if negb (returncode res =? 0) || negb (PyStr.eqb stderr []) then
        match _failed w with
        | None => inl TypeError
        | Some d =>
            inr {| name := name w;
                   _failed := Some (Dict.set path (cleaned path stderr) d);
                   _dcraw_path := _dcraw_path w |}
        end
      else inr w
  end.

(** [WorkerThread.run], by one thread on a queue nothing else touches. *)
Inductive ran :=
  | Finished (w : t) (q : Queue.t str)              (* pop returned None *)
  | Blocked (w : t) (q : Queue.t str)               (* pop waits for ever *)
  | Raised (e : exn str) (w : t) (q : Queue.t str)  (* an exception left run *)
  | OutOfFuel.

Fixpoint run_loop (fuel : nat) (w : t) (q : Queue.t str) : ran :=
  match fuel with
  | O => OutOfFuel
  | S fuel' =>
      match Queue.pop q with
      | Queue.Blocks => Blocked w q
      | Queue.Returns None q' => Finished w q'
      | Queue.Returns (Some path) q' =>
          match _command w path with
          | inl e => Raised e w q'
          | inr w' => run_loop fuel' w' q'
          end
      end
  end.

Definition run (fuel : nat) (w : t) (q : Queue.t str) : ran :=
  run_loop fuel {| name := name w; _failed := Some Dict.empty;
                   _dcraw_path := _dcraw_path w |} q.

End Run.
End Worker.

(** ** [RawCheck]: the coordinator *)

Module RawCheck.

(** The parsed command line. *)
Record Args := {
  dir : str;
  debug : bool;
  workers : Z;
  show_extensions : bool;
  dcraw_binary : str
}.

(** What the coordinator's thread meets outside itself. *)
Record Env := {
  os : nat → Worker.OS;   (* the file system at the directory check (0) and as
                            worker i is constructed (i) *)
  walk : str → list (str * list str * list str);        (* os.walk(dir) *)
  enumerate : list (option (Dict.t str str));
      (* the threads threading.enumerate() lists besides the main one, each
         by the value of its [failed] property once it is joined; a thread
         whose join never returns has no place here: the call does not
         get past it *)
  sigint : option nat;
      (* the interruption point at which KeyboardInterrupt arrives, if any;
         the points are numbered as they are passed: one before each file
         of the traversal and one at each join *)
  stdout_takes : N → bool
      (* the code points the encoder of sys.stdout accepts: with UTF-8 in
         strict mode, the default, all but the surrogates, which os.walk
         puts into a file name that is not UTF-8 *)
}.

(** The lines printed on standard output. *)
Inductive Line :=
  | ExtensionsHeader                       (* "File Extensions:" *)
  | ExtensionLine (ext : str) (count : Z)  (* "  ext: count"     *)
  | FailedHeader                           (* "Failed:"          *)
  | FailedLine (path reason : str)         (* "  path: reason"   *)
  | ErrorLine (msg : AppErrorMsg str)      (* "Error: msg"       *)
  | Blank.

(** The texts the script puts into a line: an extension, a path, a
    diagnostic, the path named by an error message.  What else a line
    holds (the script's own words, the digits of a count) is ASCII. *)
Definition message_text (msg : AppErrorMsg str) : str :=
  match msg with
  | NotADirectory s | ExecutableNotFound s | NotExecutable s => s
  end.

Definition texts (l : Line) : list str :=
  match l with
  | ExtensionLine ext _ => [ext]
  | FailedLine path reason => [path; reason]
  | ErrorLine msg => [message_text msg]
  | ExtensionsHeader | FailedHeader | Blank => []
  end.

(** The locals of [__call__] and the effects it has had so far. *)
Record St := {
  extensions : Dict.t str Z;
  calls : list (Queue.call str);   (* the calls made on the queue, in order *)
  started : list Worker.t;         (* the workers constructed and started *)
  failed : Dict.t str str;
  result : bool;
  out : list Line;
  ticks : nat                      (* interruption points passed *)
}.

Definition set_extensions (v : Dict.t str Z) (st : St) : St :=
  Build_St v (calls st) (started st) (failed st) (result st) (out st) (ticks st).
Definition add_call (c : Queue.call str) (st : St) : St :=
  Build_St (extensions st) (calls st ++ [c]) (started st) (failed st) (result st) (out st)
           (ticks st).
Definition add_started (w : Worker.t) (st : St) : St :=
  Build_St (extensions st) (calls st) (started st ++ [w]) (failed st) (result st) (out st)
           (ticks st).
Definition set_failed (v : Dict.t str str) (st : St) : St :=
  Build_St (extensions st) (calls st) (started st) v (result st) (out st) (ticks st).
Definition set_result (v : bool) (st : St) : St :=
  Build_St (extensions st) (calls st) (started st) (failed st) v (out st) (ticks st).
Definition print (ls : list Line) (st : St) : St :=
  Build_St (extensions st) (calls st) (started st) (failed st) (result st) (out st ++ ls)
           (ticks st).
Definition set_ticks (n : nat) (st : St) : St :=
  Build_St (extensions st) (calls st) (started st) (failed st) (result st) (out st) n.

(** A block of statements: it changes the state and may end by raising. *)
Definition M := St → option (exn str) * St.

Definition ret : M := fun st => (None, st).
Definition raise (e : exn str) : M := fun st => (Some e, st).
Definition modify (f : St → St) : M := fun st => (None, f st).
Definition seq (m k : M) : M :=
  fun st => match m st with
            | (None, st') => k st'
            | (Some e, st') => (Some e, st')
            end.
Infix ">>" := seq (at level 62, right associativity).

(** [RawCheck.__init__] *)
Definition _raw_ext : list str :=
  [py "crw"; py "cr2"; py "cr3"; py "rw2"; py "dng"; py "raf"].
Definition _dcraw_path : str := py "/usr/bin/dcraw_emu".

Section Call.
Variable unicode_lower : str → str.
Variable args : Args.
Variable env : Env.

(** [print(...)]: the text is encoded for standard output as a whole; a
    character the encoder refuses raises UnicodeEncodeError, and then
    nothing of the line is written. *)
Definition printable (l : Line) : bool :=
  forallb (forallb (stdout_takes env)) (texts l).

Definition print_line (l : Line) : M :=
  fun st => if printable l then (None, print [l] st) else (Some UnicodeEncodeError, st).

Fixpoint print_lines (ls : list Line) : M :=
  match ls with
  | [] => ret
  | l :: ls' => print_line l >> print_lines ls'
  end.

(** The lines that get out: those before the first one refused. *)
Fixpoint printed (ls : list Line) : list Line :=
  match ls with
  | [] => []
  | l :: ls' => if printable l then l :: printed ls' else []
  end.

(** An interruption point. *)
Definition tick : M :=
  fun st => if bool_decide (sigint env = Some (ticks st))
            then (Some KeyboardInterrupt, st)
            else (None, set_ticks (S (ticks st)) st).

(** [if not os.path.isdir(args.dir): raise AppError(...)] *)
Definition check_dir : M :=
  if negb (Worker.isdir (os env 0) (dir args))
  then raise (AppError (NotADirectory (dir args)))
  else ret.

(** [for i in range(0, args.workers)]: construct and start; [n] workers
    are left to start, the next one is worker [i]. *)
Fixpoint start_workers (n i : nat) : M :=
  match n with
  | O => ret
  | S n' =>
      match Worker.__init__ (os env i) (i + 1) (dcraw_binary args) with
      | inl e => raise e
      | inr worker => modify (add_started worker) >> start_workers n' (S i)
      end
  end.

(** The extension as the loop body computes it:
    [os.path.splitext(f)[1][1:].lower()]. *)
Definition extension (f : str) : str :=
  PyStr.lower unicode_lower (PyStr.slice_from 1 (snd (PyStr.splitext f))).

(** [ext in self._raw_ext] *)
Definition is_raw (ext : str) : bool := existsb (PyStr.eqb ext) _raw_ext.

(** The body of [for f in files]: count the extension, push the path of
    a RAW file. *)
Definition record (base f : str) (st : St) : St :=
  let path := PyStr.join base f in
  let ext := extension f in
  let st :=
    match Dict.get ext (extensions st) with
    | None => set_extensions (Dict.set ext 1 (extensions st)) st
    | Some count => set_extensions (Dict.set ext (count + 1) (extensions st)) st
    end in
  if is_raw ext then add_call (Queue.Push path) st else st.

Definition visit (base f : str) : M := tick >> modify (record base f).

Fixpoint visit_files (base : str) (files : list str) : M :=
  match files with
  | [] => ret
  | f :: files' => visit base f >> visit_files base files'
  end.

(** [for base, _, files in os.walk(args.dir)] *)
Fixpoint scan (tree : list (str * list str * list str)) : M :=
  match tree with
  | [] => ret
  | (base, _, files) :: tree' => visit_files base files >> scan tree'
  end.

(** [for p, e in t.failed.items(): failed[p] = e] *)
Definition merge (t_failed : option (Dict.t str str)) : M :=
  match t_failed with
  | None => raise AttributeError
  | Some d =>
      modify (fun st =>
        set_failed (foldl (fun acc pe => Dict.set pe.1 pe.2 acc) (failed st) (Dict.items d)) st)
  end.

(** [for t in threading.enumerate()]: join, then merge. *)
Fixpoint join_all (ts : list (option (Dict.t str str))) : M :=
  match ts with
  | [] => ret
  | t :: ts' => tick >> merge t >> join_all ts'
  end.

(** The two blocks that print: the extensions when asked for, then the
    failures, or [result = True] when there are none. *)
Definition report : M :=
  fun st =>
    ((if show_extensions args
      then print_lines (flat_map (fun ec => [ExtensionsHeader; ExtensionLine ec.1 ec.2; Blank])
                                 (Dict.items (extensions st)))
      else ret) >>
     (if bool_decide (failed st = [])
      then modify (set_result true)
      else print_lines ([FailedHeader]
                        ++ ((fun pe => FailedLine pe.1 pe.2) <$> Dict.items (failed st))
                        ++ [Blank]))) st.

(** The [try] block. *)
Definition body : M :=
  check_dir >>
  start_workers (Z.to_nat (workers args)) 0 >>
  scan (walk env (dir args)) >>
  modify (add_call Queue.Completed) >>
  modify (set_failed Dict.empty) >>
  join_all (enumerate env) >>
  report.

Definition initial : St :=
  {| extensions := Dict.empty; calls := []; started := []; failed := Dict.empty;
     result := false; out := []; ticks := 0 |}.

(** The value a Python call hands back. *)
Inductive pyval := PyNone | PyBool (b : bool).

Definition truthy (v : pyval) : bool :=
  match v with PyNone => false | PyBool b => b end.

(** [RawCheck.__call__]: the [try] block with its two handlers.  The
    function has no [return] statement, so a call that ends hands back
    [None]; an exception no handler takes leaves the call, and so does
    one raised by the [print] of the second handler (its text,
    "Error: ..." with a line feed, is written as one). *)
Definition __call__ : (exn str + pyval) * St :=
  match body initial with
  | (None, st) => (inr PyNone, st)
  | (Some KeyboardInterrupt, st) =>
      (inr PyNone, add_call Queue.Completed (add_call Queue.Clear st))
  | (Some (AppError e), st) =>
      if printable (ErrorLine e)
      then (inr PyNone, print [ErrorLine e; Blank] st)
      else (inl UnicodeEncodeError, st)
  | (Some e, st) => (inl e, st)
  end.

(** How the script ends.  [status] is what the main thread leaves with:
    the argument of [sys.exit], or 1 when an exception leaves the call.
    The process does not end there: the workers are not daemon threads,
    and the interpreter, shutting down, waits for every one of them that
    still runs.  [awaits] lists the workers that may: the process ends
    with [status] once those of them that still run have ended, and it
    never ends while one of them stays in [pop]. *)
Record Exit := { status : Z; awaits : list Worker.t }.

(** The workers the [try] block has started and not seen end.  Once the
    join loop is through, every thread [threading.enumerate()] listed has
    been joined and the others had ended before, so none is left; that
    is the case when the block ends normally or in [report], whose
    [print] is the only source of UnicodeEncodeError in the block.
    Before that, the workers started may all be running. *)
Definition unjoined (r : option (exn str) * St) : list Worker.t :=
  match r.1 with
  | None | Some UnicodeEncodeError => []
  | Some _ => started r.2
  end.

(** The script's entry point: [sys.exit(0)] when the call is truthy,
    [sys.exit(1)] otherwise; an exception that leaves the call ends the
    main thread with status 1. *)
Definition main : Exit :=
  {| status := match __call__.1 with
               | inr v => if truthy v then 0 else 1
               | inl _ => 1
               end;
     awaits := unjoined (body initial) |}.

End Call.

(** Notions used to state what the traversal does. *)

(** The count a table holds for an extension, 0 when it has none. *)
Definition count_of (ext : str) (table : Dict.t str Z) : Z :=
  default 0 (Dict.get ext table).

(** The files of a walk in the order the two loops meet them, each with
    the directory it is in. *)
Definition files_of (tree : list (str * list str * list str)) : list (str * str) :=
  flat_map (fun entry => (fun f => (entry.1.1, f)) <$> entry.2) tree.

(** The pushes owed to a list of files: the joined path of each file whose
    extension is a RAW one. *)
Definition pushes_of (unicode_lower : str → str) (files : list (str * str))
    : list (Queue.call str) :=
  (fun bf => Queue.Push (PyStr.join bf.1 bf.2))
    <$> filter (fun bf => is_raw (extension unicode_lower bf.2) = true) files.

(** How many files of a list have a given extension. *)
Definition occurrences (unicode_lower : str → str) (ext : str) (files : list (str * str)) : Z :=
  Z.of_nat (length (filter (fun bf => extension unicode_lower bf.2 = ext) files)).

End RawCheck.

(** * Properties *)

(** ** Dictionaries *)

Section DictFacts.
Context {K V : Type} `{EqDecision K}.
Implicit Types (k : K) (v : V) (d : Dict.t K V).

Lemma dict_get_set_eq k v d : Dict.get k (Dict.set k v d) = Some v.
Proof.
  induction d as [|[k' v'] d IH]; simpl.
  - by rewrite decide_True.
  - destruct (decide (k = k')) as [->|Hne]; simpl.
    + by rewrite decide_True.
    + by rewrite decide_False.
Qed.

Lemma dict_get_set_ne k k' v d : k ≠ k' → Dict.get k' (Dict.set k v d) = Dict.get k' d.
Proof.
  intros Hne. induction d as [|[k0 v0] d IH]; simpl.
  - by rewrite decide_False.
  - destruct (decide (k = k0)) as [->|Hk]; simpl.
    + by rewrite !decide_False.
    + by destruct (decide (k' = k0)).
Qed.

End DictFacts.

(** ** The queue run by one thread *)

Section QueueFacts.
Context {A : Type}.
Implicit Types (q : Queue.t A) (x : A).

Lemma pops_drain (l : list A) (b : bool) :
  Queue.pops (length l) (Queue.mk l b) = Some (Some <$> l, Queue.mk [] b).
Proof.
  induction l as [|x l IH]; simpl; [done|].
  unfold Queue.pop; simpl. by rewrite IH.
Qed.

Lemma pops_none (n : nat) q :
  Queue._data q = [] → Queue._completed q = true →
  Queue.pops n q = Some (replicate n None, q).
Proof.
  intros Hd Hc. induction n as [|n IH]; simpl; [done|].
  unfold Queue.pop. rewrite Hd, Hc; simpl. by rewrite IH.
Qed.

Lemma replay_app (cs1 cs2 : list (Queue.call A)) q :
  Queue.replay (cs1 ++ cs2) q = Queue.replay cs2 (Queue.replay cs1 q).
Proof. unfold Queue.replay. apply foldl_app. Qed.

End QueueFacts.

(** ** A consumer that meets an empty, completed queue *)

Section PopAlone.
Context {A : Type}.
Import Threads.

(** A thread that enters [pop] while the semaphore is free and the queue
    is empty and completed leaves with [None] after four statements of
    its own; it never reaches [wait]. *)
Lemma run_pop_none (s : state A) (i : nat) (got : list A) :
  Queue._data (queue s) = [] → Queue._completed (queue s) = true →
  threads s !! i = Some (Popper PopEnter got) → (0 < sem s)%nat →
  run [i; i; i; i] s = Some (with_thread i (PopperDone got) s).
Proof.
  intros Hd Hc Hi Hsem.
  assert (i < length (threads s))%nat as Hlen by (by eapply lookup_lt_Some).
  destruct s as [q n c ths del]; simpl in *.
  destruct n as [|n]; [lia|].
  unfold run, step; simpl. rewrite Hi; simpl.
  rewrite list_lookup_insert_eq by done; simpl.
  rewrite Hd; simpl.
  rewrite list_lookup_insert_eq by (by rewrite length_insert); simpl.
  rewrite list_lookup_insert_eq by (by rewrite !length_insert); simpl.
  rewrite Hc; simpl. unfold with_thread; simpl.
  by rewrite !list_insert_insert_eq.
Qed.

End PopAlone.

Section Alone.
Context {A : Type}.
Import Threads.

(** A schedule run in two parts. *)
Lemma run_app_Some (a b : list nat) (s s1 : state A) :
  run a s = Some s1 → run (a ++ b) s = run b s1.
Proof.
  revert s. induction a as [|i a IH]; intros s; simpl.
  - by intros [= ->].
  - destruct (step i s); [apply IH|done].
Qed.

(** [push], run by a caller that nothing interrupts: six statements, after
    which the entry is the last of the pending ones, the parked threads
    have been notified, and semaphore and condition are free again.  The
    flag plays no part in it. *)
Lemma run_push_alone (s : state A) (i : nat) (x : A) (todo : list (Queue.call A)) :
  threads s !! i = Some (Caller CallEnter (Queue.Push x :: todo)) →
  (0 < sem s)%nat → cond s = None →
  run [i; i; i; i; i; i] s
  = Some (mk (Queue.push x (queue s)) (sem s) None
             (<[i:=Caller CallEnter todo]> (wake <$> threads s)) (delivered s)).
Proof.
  intros Hi Hsem Hcond.
  assert (i < length (threads s))%nat as Hlen by (by eapply lookup_lt_Some).
  destruct s as [q m c ths del]; simpl in *. subst c.
  destruct m as [|m]; [lia|].
  unfold run, step; simpl. rewrite Hi; simpl.
  rewrite list_lookup_insert_eq by done; simpl.
  rewrite list_lookup_insert_eq by (by rewrite length_insert); simpl.
  rewrite list_lookup_insert_eq by (by rewrite !length_insert); simpl.
  rewrite list_lookup_insert_eq by (by rewrite !length_insert); simpl.
  rewrite list_lookup_insert_eq by (by rewrite length_fmap, !length_insert).
  simpl. rewrite !list_insert_insert_eq, list_fmap_insert, !list_insert_insert_eq.
  done.
Qed.

(** [pop] on a queue that is not empty, run by a consumer that nothing
    interrupts: four statements, and the head is handed over. *)
Lemma run_pop_head_alone (s : state A) (i : nat) (got : list A) (x : A) (rest : list A) :
  threads s !! i = Some (Popper PopEnter got) →
  (0 < sem s)%nat → Queue._data (queue s) = x :: rest →
  run [i; i; i; i] s
  = Some (mk (Queue.mk rest (Queue._completed (queue s))) (sem s) (cond s)
             (<[i:=Popper PopEnter (got ++ [x])]> (threads s))
             (delivered s ++ [(i, x)])).
Proof.
  intros Hi Hsem Hdata.
  assert (i < length (threads s))%nat as Hlen by (by eapply lookup_lt_Some).
  destruct s as [q m c ths del]; simpl in *.
  destruct m as [|m]; [lia|].
  unfold run, step; simpl. rewrite Hi; simpl.
  rewrite list_lookup_insert_eq by done; simpl.
  rewrite Hdata; simpl.
  rewrite list_lookup_insert_eq by (by rewrite length_insert); simpl.
  rewrite Hdata; simpl.
  rewrite list_lookup_insert_eq by (by rewrite !length_insert); simpl.
  by rewrite !list_insert_insert_eq.
Qed.

(** [pop] on an empty queue that is not completed, run by a consumer that
    nothing interrupts: after six statements it is parked in [wait], the
    condition's lock is free again, and it has no step of its own left
    until some thread notifies. *)
Lemma run_pop_parks_alone (s : state A) (i : nat) (got : list A) :
  threads s !! i = Some (Popper PopEnter got) →
  (0 < sem s)%nat → cond s = None →
  Queue._data (queue s) = [] → Queue._completed (queue s) = false →
  run [i; i; i; i; i; i] s = Some (with_thread i (Popper PopParked got) s)
  ∧ step i (with_thread i (Popper PopParked got) s) = None.
Proof.
  intros Hi Hsem Hcond Hdata Hflag.
  assert (i < length (threads s))%nat as Hlen by (by eapply lookup_lt_Some).
  destruct s as [q m c ths del]; simpl in *. subst c.
  destruct m as [|m]; [lia|]. split.
  - unfold run, step; simpl. rewrite Hi; simpl.
    rewrite list_lookup_insert_eq by done; simpl.
    rewrite Hdata; simpl.
    rewrite list_lookup_insert_eq by (by rewrite length_insert); simpl.
    rewrite list_lookup_insert_eq by (by rewrite !length_insert); simpl.
    rewrite Hflag; simpl.
    rewrite list_lookup_insert_eq by (by rewrite !length_insert); simpl.
    rewrite list_lookup_insert_eq by (by rewrite !length_insert); simpl.
    unfold with_thread; simpl. by rewrite !list_insert_insert_eq.
  - unfold step, with_thread; simpl. by rewrite list_lookup_insert_eq.
Qed.

Lemma pops_drain_None (l : list A) :
  Queue.pops (length l + 1) (Queue.mk l true)
  = Some ((Some <$> l) ++ [None], Queue.mk [] true).
Proof.
  induction l as [|x l IH]; simpl; [done|]. by rewrite IH.
Qed.

End Alone.

(** ** Consumers on a queue that nobody feeds or completes *)

Section Idle.
Context {A : Type}.
Import Threads.
Implicit Types (s : state A) (th : thread A).

(** A consumer that has been handed nothing and is on its way to [wait],
    in it, or on its way back to the test. *)
Definition waiting th : Prop :=
  match th with
  | Popper (PopEnter | PopTest | PopLeave None | PopFlag | PopCondEnter
            | PopCondWait | PopParked | PopNotified | PopCondLeave) [] => True
  | _ => False
  end.

Definition idle s : Prop :=
  Queue._data (queue s) = [] ∧ Queue._completed (queue s) = false
  ∧ Forall waiting (threads s).

Lemma step_idle s s' (i : nat) : idle s → step i s = Some s' → idle s'.
Proof.
  intros (Hd & Hc & Hw). unfold step.
  destruct (threads s !! i) as [th|] eqn:Hi; [|done].
  pose proof (proj1 (Forall_lookup _ _) Hw i th Hi) as Hth.
  destruct th as [pc got| | |]; try done.
  destruct got as [|x got]; [|by destruct pc as [| | |[?|]| | | | | |]].
  destruct pc as [| | |[x|]| | | | | |]; simpl in Hth; try done; simpl;
    unfold with_thread; rewrite ?Hd, ?Hc; simpl;
    try (destruct (sem s); [done|]); try (destruct (cond s); [done|]);
    intros [= <-]; (split; [done|]); (split; [done|]); simpl;
    by apply Forall_insert.
Qed.

Lemma run_idle (sched : list nat) s s' : idle s → run sched s = Some s' → idle s'.
Proof.
  revert s. induction sched as [|i sched IH]; intros s Hidle; simpl.
  - by intros [= <-].
  - destruct (step i s) as [s1|] eqn:Hstep; [|done].
    apply IH. by eapply step_idle.
Qed.

Lemma step_length s s' (i : nat) :
  step i s = Some s' → length (threads s') = length (threads s).
Proof.
  unfold step. destruct (threads s !! i) as [[pc got| | |pc todo]|]; try done.
  - destruct pc as [| | |[x|]| | | | | |]; simpl; unfold with_thread;
      try (destruct (sem s)); try (destruct (cond s));
      try (destruct (Queue._data (queue s))); try done;
      intros [= <-]; simpl; by rewrite ?length_insert.
  - unfold step_call, step_notify.
    destruct todo as [|[x| |] rest]; destruct pc;
      try (destruct (sem s)); try (destruct (cond s)); try done;
      intros [= <-]; simpl; by rewrite ?length_insert, ?length_fmap.
Qed.

Lemma run_length (sched : list nat) s s' :
  run sched s = Some s' → length (threads s') = length (threads s).
Proof.
  revert s. induction sched as [|i sched IH]; intros s; simpl.
  - by intros [= <-].
  - destruct (step i s) as [s1|] eqn:Hstep; [|done]. intros Hrun.
    rewrite (IH _ Hrun). by eapply step_length.
Qed.

Lemma idle_start (n : nat) : idle (start Queue.init (poppers n)).
Proof. split; [done|]. split; [done|]. by apply Forall_replicate. Qed.

(** However the threads are scheduled, none of them ever comes out of
    [pop]. *)
Lemma idle_for_ever (n : nat) (sched : list nat) s :
  run sched (start Queue.init (poppers n)) = Some s →
  Forall (fun th => ∃ pc, th = Popper pc []) (threads s).
Proof.
  intros Hrun. destruct (run_idle _ _ _ (idle_start n) Hrun) as (_ & _ & Hw).
  eapply Forall_impl; [|exact Hw]. intros th Hth.
  destruct th as [pc [|x got]| | |]; simpl in Hth; try done; [by eexists|].
  by destruct pc as [| | |[?|]| | | | | |].
Qed.

End Idle.

(** C5: on a queue whose pending sequence is empty and whose
    producer-finished flag is set, [pop] returns [None] and leaves the
    queue as it was, so every further [pop] returns [None] again; and a
    thread that enters [pop] in that state comes out with [None] after
    four statements of its own, without ever being parked in [wait]. *)
Theorem pop_empty_completed_returns_None {A : Type} (q : Queue.t A) :
  Queue._data q = [] → Queue._completed q = true →
  Queue.pop q = Queue.Returns None q
  ∧ (∀ n, Queue.pops n q = Some (replicate n None, q))
  ∧ (∀ (s : Threads.state A) i got,
       Threads.queue s = q →
       Threads.threads s !! i = Some (Threads.Popper Threads.PopEnter got) →
       (0 < Threads.sem s)%nat →
       Threads.run [i; i; i; i] s
       = Some (Threads.with_thread i (Threads.PopperDone got) s)).
Proof.
  intros Hd Hc. split; [|split].
  - unfold Queue.pop. by rewrite Hd, Hc.
  - intros n. by apply pops_none.
  - intros s i got <- Hi Hsem. by apply run_pop_none.
Qed.

Lemma pop_empty_completed_returns_None_witness :
  Queue.pop (Queue.mk (@nil nat) true) = Queue.Returns None (Queue.mk [] true)
  ∧ Queue.pops 3 (Queue.mk (@nil nat) true) = Some ([None; None; None], Queue.mk [] true).
Proof.
  destruct (pop_empty_completed_returns_None (Queue.mk (@nil nat) true) eq_refl eq_refl)
    as (Hpop & Hpops & _).
  split; [exact Hpop | exact (Hpops 3%nat)].
Defined.

(** C9: once [completed] has been called, [push] still appends the entry
    to the pending sequence and leaves the flag alone; popping the queue
    then returns the entries that were pending and after them the new
    entry (at once when nothing was pending); on a queue that is not
    empty [pop] returns the head whatever the flag is; and the six
    statements of [push], run by a thread that nothing interrupts, append
    the entry to a completed queue and notify the parked threads. *)
Theorem push_after_completed_is_kept {A : Type} (q : Queue.t A) (x : A) :
  Queue._completed q = true →
  Queue.push x q = Queue.mk (Queue._data q ++ [x]) true
  ∧ Queue.pops (length (Queue._data q) + 1) (Queue.push x q)
    = Some (Some <$> (Queue._data q ++ [x]), Queue.mk [] true)
  ∧ (Queue._data q = [] → Queue.pop (Queue.push x q) = Queue.Returns (Some x) q)
  ∧ (∀ (y : A) rest flag,
       Queue.pop (Queue.mk (y :: rest) flag) = Queue.Returns (Some y) (Queue.mk rest flag))
  ∧ (∀ (s : Threads.state A) i todo,
       Threads.queue s = q →
       Threads.threads s !! i
       = Some (Threads.Caller Threads.CallEnter (Queue.Push x :: todo)) →
       (0 < Threads.sem s)%nat → Threads.cond s = None →
       Threads.run [i; i; i; i; i; i] s
       = Some (Threads.mk (Queue.mk (Queue._data q ++ [x]) true) (Threads.sem s) None
                 (<[i:=Threads.Caller Threads.CallEnter todo]>
                    (Threads.wake <$> Threads.threads s))
                 (Threads.delivered s))).
Proof.
  intros Hc. destruct q as [l b]; simpl in *; subst b.
  repeat split.
  - replace (length l + 1)%nat with (length (l ++ [x])) by (rewrite length_app; simpl; lia).
    apply pops_drain.
  - intros ->. reflexivity.
  - intros s i todo Hq Hi Hsem Hcond.
    pose proof (run_push_alone s i x todo Hi Hsem Hcond) as Hrun.
    rewrite Hq in Hrun. exact Hrun.
Qed.

Lemma push_after_completed_is_kept_witness :
  Queue.push 7%nat (Queue.completed (Queue.push 5%nat Queue.init)) = Queue.mk [5; 7]%nat true
  ∧ Queue.pops 2 (Queue.push 7%nat (Queue.completed (Queue.push 5%nat Queue.init)))
    = Some ([Some 5; Some 7]%nat, Queue.mk [] true).
Proof.
  destruct (push_after_completed_is_kept
              (Queue.completed (Queue.push 5%nat Queue.init)) 7%nat eq_refl)
    as (Hpush & Hpops & _).
  split; [exact Hpush | exact Hpops].
Defined.

(** ** The worker *)

Section WorkerFacts.
Import Worker.
Variable subprocess_run : list str → CompletedProcess.

Lemma command_keeps_record (w w' : Worker.t) (path : str) :
  is_Some (_failed w) → _command subprocess_run w path = inr w' → is_Some (_failed w').
Proof.
  unfold _command. intros Hw.
  destruct (PyStr.decode_utf8 _) as [text|]; [|done].
  destruct (negb _ || negb _).
  - destruct (_failed w) as [d|]; [|done]. intros [= <-]; simpl. eauto.
  - by intros [= <-].
Qed.

Lemma run_loop_keeps_record (fuel : nat) (w : Worker.t) (q : Queue.t str) :
  is_Some (_failed w) →
  match run_loop subprocess_run fuel w q with
  | Finished w' _ | Blocked w' _ | Raised _ w' _ => is_Some (_failed w')
  | OutOfFuel => True
  end.
Proof.
  revert w q. induction fuel as [|fuel IH]; intros w q Hw; simpl; [done|].
  destruct (Queue.pop q) as [[path|] q'|]; try done.
  destruct (_command subprocess_run w path) as [e|w'] eqn:Hc; [done|].
  apply IH. by eapply command_keeps_record.
Qed.

Lemma command_never_AppError (w : Worker.t) (path : str) (msg : AppErrorMsg str) :
  _command subprocess_run w path ≠ inl (AppError msg).
Proof.
  unfold _command.
  destruct (PyStr.decode_utf8 _); [|done].
  destruct (negb _ || negb _); [|done].
  by destruct (_failed w).
Qed.

End WorkerFacts.

Lemma init_raises_iff (os : Worker.OS) (name : nat) (dcraw_path : str) :
  (∃ msg, Worker.__init__ os name dcraw_path = inl (AppError msg))
  ↔ Worker.isfile os dcraw_path = false ∨ Worker.access_X_OK os dcraw_path = false.
Proof.
  unfold Worker.__init__.
  destruct (Worker.isfile os dcraw_path), (Worker.access_X_OK os dcraw_path); simpl;
    (split; [intros [msg Hm]; try discriminate; auto
            |intros [?|?]; try discriminate; eauto]).
Qed.

Lemma init_ok (os : Worker.OS) (name : nat) (dcraw_path : str) :
  Worker.isfile os dcraw_path = true → Worker.access_X_OK os dcraw_path = true →
  Worker.__init__ os name dcraw_path = inr (Worker.mk name None dcraw_path).
Proof. unfold Worker.__init__. by intros -> ->. Qed.

(** C2, as the claim words it, fails: the decoder ends with status 0 and
    writes just the path of the file; nothing is left of that text once
    the path prefix is removed, and still an entry (with the empty text)
    is recorded. *)
Lemma command_bare_path_is_recorded :
  let path := py "bad.DNG" in
  let subprocess_run := fun _ : list str =>
    {| Worker.returncode := 0; Worker.stderr := py "bad.DNG" |} in
  let w := Worker.mk 1 (Some Dict.empty) RawCheck._dcraw_path in
  ∃ w', Worker._command subprocess_run w path = inr w'
    ∧ ¬ (is_Some (Worker._failed w' ≫= Dict.get path)
         ↔ (Worker.returncode
              (subprocess_run [Worker._dcraw_path w; py "-Z"; py "-"; path]) ≠ 0
            ∨ Worker.cleaned path (PyStr.strip (py "bad.DNG")) ≠ [])).
Proof.
  eexists. split; [vm_compute; reflexivity|].
  intros [Hrec _]. destruct Hrec as [Hrc|Hne].
  - vm_compute. eauto.
  - by apply Hrc.
  - by apply Hne.
Qed.

(** C2, amended: with a failure record in place and a diagnostic that
    decodes as UTF-8, [_command] records the path exactly when the exit
    status is not zero or the diagnostic, trimmed of surrounding white
    space, is not empty; this test comes before the path prefix is taken
    off.  The value recorded is the trimmed diagnostic, without its first
    [len(path) + 2] characters when it starts with the path.  Status 1
    with "bad.DNG: corrupt header" for "bad.DNG" records
    {"bad.DNG": "corrupt header"}; status 0 with only white space records
    nothing. *)
Theorem command_records_failure
    (subprocess_run : list str → Worker.CompletedProcess)
    (w : Worker.t) (path text : str) (d : Dict.t str str) :
  let res := subprocess_run [Worker._dcraw_path w; py "-Z"; py "-"; path] in
  Worker._failed w = Some d →
  PyStr.decode_utf8 (Worker.stderr res) = Some text →
  (Worker.returncode res ≠ 0 ∨ PyStr.strip text ≠ [] →
     Worker._command subprocess_run w path
     = inr (Worker.mk (Worker.name w)
              (Some (Dict.set path (Worker.cleaned path (PyStr.strip text)) d))
              (Worker._dcraw_path w)))
  ∧ (Worker.returncode res = 0 ∧ PyStr.strip text = [] →
     Worker._command subprocess_run w path = inr w)
  ∧ (Dict.get path d = None →
     ∃ w', Worker._command subprocess_run w path = inr w'
       ∧ (is_Some (Worker._failed w' ≫= Dict.get path)
          ↔ Worker.returncode res ≠ 0 ∨ PyStr.strip text ≠ []))
  ∧ Worker._command
      (fun _ => {| Worker.returncode := 1; Worker.stderr := py "bad.DNG: corrupt header" |})
      (Worker.mk 1 (Some Dict.empty) RawCheck._dcraw_path) (py "bad.DNG")
    = inr (Worker.mk 1 (Some [(py "bad.DNG", py "corrupt header")]) RawCheck._dcraw_path)
  ∧ Worker._command
      (fun _ => {| Worker.returncode := 0; Worker.stderr := [32; 9; 10]%N |})
      (Worker.mk 1 (Some Dict.empty) RawCheck._dcraw_path) (py "bad.DNG")
    = inr (Worker.mk 1 (Some Dict.empty) RawCheck._dcraw_path).
Proof.
  intros res Hd Htext.
  assert (Hfail : Worker.returncode res ≠ 0 ∨ PyStr.strip text ≠ [] →
     Worker._command subprocess_run w path
     = inr (Worker.mk (Worker.name w)
              (Some (Dict.set path (Worker.cleaned path (PyStr.strip text)) d))
              (Worker._dcraw_path w))).
  { intros Hf. unfold Worker._command. fold res. rewrite Htext, Hd.
    destruct (negb (Worker.returncode res =? 0) || negb (PyStr.eqb (PyStr.strip text) []))
      eqn:Hb; [done|].
    apply orb_false_iff in Hb as [Hrc Hs].
    apply negb_false_iff in Hrc, Hs. apply Z.eqb_eq in Hrc.
    unfold PyStr.eqb in Hs. apply bool_decide_eq_true in Hs.
    destruct Hf; congruence. }
  assert (Hok : Worker.returncode res = 0 ∧ PyStr.strip text = [] →
     Worker._command subprocess_run w path = inr w).
  { intros [Hrc Hs]. unfold Worker._command. fold res. rewrite Htext, Hrc, Hs. done. }
  split; [exact Hfail|]. split; [exact Hok|]. split; [|split; vm_compute; reflexivity].
  intros Hfresh.
  destruct (decide (Worker.returncode res = 0)) as [Hrc|Hrc].
  - destruct (decide (PyStr.strip text = [])) as [Hs|Hs].
    + exists w. split; [by apply Hok|]. rewrite Hd; simpl. rewrite Hfresh.
      split; [by intros [? ?]|]. intros [?|?]; done.
    + eexists. split; [apply Hfail; by right|]. simpl.
      rewrite dict_get_set_eq. split; eauto.
  - eexists. split; [apply Hfail; by left|]. simpl.
    rewrite dict_get_set_eq. split; eauto.
Qed.

Lemma command_records_failure_witness :
  Worker._command
    (fun _ => {| Worker.returncode := 3; Worker.stderr := py "d/x.cr2: data corrupted" |})
    (Worker.mk 1 (Some Dict.empty) RawCheck._dcraw_path) (py "d/x.cr2")
  = inr (Worker.mk 1 (Some [(py "d/x.cr2", py "data corrupted")]) RawCheck._dcraw_path).
Proof.
  pose proof (command_records_failure
    (fun _ => {| Worker.returncode := 3; Worker.stderr := py "d/x.cr2: data corrupted" |})
    (Worker.mk 1 (Some Dict.empty) RawCheck._dcraw_path) (py "d/x.cr2")
    (py "d/x.cr2: data corrupted") Dict.empty eq_refl eq_refl) as (Hfail & _).
  apply Hfail. left. discriminate.
Defined.

(** ** The coordinator *)

Section CallFacts.
Import RawCheck.
Variable unicode_lower : str → str.
Variable args : Args.
Variable env : Env.

(** *** Sequencing *)

Lemma seq_ok (m k : M) (st st1 : St) : m st = (None, st1) → (m >> k) st = k st1.
Proof. unfold seq. by intros ->. Qed.

Lemma seq_raised (m k : M) (st st1 : St) (e : exn str) :
  m st = (Some e, st1) → (m >> k) st = (Some e, st1).
Proof. unfold seq. by intros ->. Qed.

Lemma seq_inv (m k : M) (st st' : St) (r : option (exn str)) :
  (m >> k) st = (r, st') →
  (∃ e, r = Some e ∧ m st = (Some e, st'))
  ∨ (∃ st1, m st = (None, st1) ∧ k st1 = (r, st')).
Proof.
  unfold seq. destruct (m st) as [[e|] st1]; intros Hk; [left|right].
  - injection Hk as <- <-. eauto.
  - eauto.
Qed.

(** A block keeps a property of the state, however it ends. *)
Definition keeps (P : St → Prop) (m : M) : Prop :=
  ∀ st r st', P st → m st = (r, st') → P st'.

Lemma keeps_ret P : keeps P ret.
Proof. intros st r st' HP [= <- <-]. done. Qed.

Lemma keeps_raise P e : keeps P (raise e).
Proof. intros st r st' HP [= <- <-]. done. Qed.

Lemma keeps_modify P (f : St → St) : (∀ st, P st → P (f st)) → keeps P (modify f).
Proof. intros Hf st r st' HP [= <- <-]. auto. Qed.

Lemma keeps_seq P (m k : M) : keeps P m → keeps P k → keeps P (m >> k).
Proof.
  intros Hm Hk st r st' HP Hrun.
  apply seq_inv in Hrun as [(e & -> & Hrun)|(st1 & Hrun1 & Hrun2)]; eauto.
Qed.

(** *** Interruption points *)

Lemma tick_pass (st : St) :
  sigint env ≠ Some (ticks st) → tick env st = (None, set_ticks (S (ticks st)) st).
Proof. intros Hne. unfold tick. by rewrite bool_decide_eq_false_2. Qed.

Lemma tick_hit (st : St) :
  sigint env = Some (ticks st) → tick env st = (Some KeyboardInterrupt, st).
Proof. intros Heq. unfold tick. by rewrite bool_decide_eq_true_2. Qed.

Lemma keeps_tick P : (∀ st n, P st → P (set_ticks n st)) → keeps P (tick env).
Proof.
  intros HP st r st' Hst. unfold tick. case_bool_decide; intros [= <- <-]; auto.
Qed.

(** No interrupt arrives at the next [n] interruption points. *)
Definition calm (st : St) (n : nat) : Prop :=
  ∀ j, (ticks st ≤ j < ticks st + n)%nat → sigint env ≠ Some j.

(** *** The traversal *)

(** [st'] is [st] after the files [files] have been visited. *)
Definition walked (files : list (str * str)) (st st' : St) : Prop :=
  calls st' = calls st ++ pushes_of unicode_lower files
  ∧ (∀ ext, count_of ext (extensions st')
            = count_of ext (extensions st) + occurrences unicode_lower ext files)
  ∧ started st' = started st ∧ failed st' = failed st
  ∧ result st' = result st ∧ out st' = out st
  ∧ ticks st' = (ticks st + length files)%nat.

Lemma walked_nil (st : St) : walked [] st st.
Proof.
  unfold walked, pushes_of, occurrences; simpl.
  rewrite app_nil_r. repeat split; auto with lia.
Qed.

Lemma walked_app (fs1 fs2 : list (str * str)) (st st1 st2 : St) :
  walked fs1 st st1 → walked fs2 st1 st2 → walked (fs1 ++ fs2) st st2.
Proof.
  intros (Hc1 & He1 & ? & ? & ? & ? & Ht1) (Hc2 & He2 & ? & ? & ? & ? & Ht2).
  unfold walked, pushes_of, occurrences in *.
  rewrite list.filter_app, fmap_app, length_app. repeat split; try congruence.
  - by rewrite Hc2, Hc1, app_assoc.
  - intros ext. rewrite He2, He1, list.filter_app, length_app. lia.
  - lia.
Qed.

Lemma count_of_set_eq (ext : str) (n : Z) (table : Dict.t str Z) :
  count_of ext (Dict.set ext n table) = n.
Proof. unfold count_of. by rewrite dict_get_set_eq. Qed.

Lemma count_of_set_ne (ext ext' : str) (n : Z) (table : Dict.t str Z) :
  ext ≠ ext' → count_of ext' (Dict.set ext n table) = count_of ext' table.
Proof. intros Hne. unfold count_of. by rewrite dict_get_set_ne. Qed.

(** One pass of the loop body: the count of the file's extension goes up
    by one, the other counts stay, and the path is pushed exactly when the
    extension is a RAW one. *)
Lemma record_spec (base f : str) (st : St) :
  calls (record unicode_lower base f st)
  = calls st ++ (if is_raw (extension unicode_lower f)
                 then [Queue.Push (PyStr.join base f)] else [])
  ∧ count_of (extension unicode_lower f) (extensions (record unicode_lower base f st))
    = count_of (extension unicode_lower f) (extensions st) + 1
  ∧ (∀ ext, ext ≠ extension unicode_lower f →
       count_of ext (extensions (record unicode_lower base f st))
       = count_of ext (extensions st))
  ∧ started (record unicode_lower base f st) = started st
  ∧ failed (record unicode_lower base f st) = failed st
  ∧ result (record unicode_lower base f st) = result st
  ∧ out (record unicode_lower base f st) = out st
  ∧ ticks (record unicode_lower base f st) = ticks st.
Proof.
  unfold record.
  destruct (is_raw (extension unicode_lower f));
    destruct (Dict.get (extension unicode_lower f) (extensions st)) as [count|] eqn:Hget;
    simpl; rewrite ?app_nil_r, ?count_of_set_eq;
    (repeat split; try done;
     [unfold count_of; rewrite Hget; simpl; lia
     |intros ext Hne; by rewrite count_of_set_ne]).
Qed.

Lemma record_walked (base f : str) (st : St) :
  walked [(base, f)] st (record unicode_lower base f (set_ticks (S (ticks st)) st)).
Proof.
  destruct (record_spec base f (set_ticks (S (ticks st)) st))
    as (Hc & He & Hne & ? & ? & ? & ? & Ht).
  unfold walked, pushes_of, occurrences. simpl in *.
  rewrite Hc. repeat split; try done.
  - rewrite filter_cons, filter_nil; simpl.
    destruct (is_raw (extension unicode_lower f)); by case_decide.
  - intros ext. rewrite filter_cons, filter_nil; simpl. case_decide as Hd; simpl.
    + subst ext. rewrite He. lia.
    + rewrite Hne by done. lia.
  - rewrite Ht. lia.
Qed.

Lemma visit_calm (base f : str) (st : St) :
  calm st 1 →
  ∃ st', visit unicode_lower env base f st = (None, st') ∧ walked [(base, f)] st st'.
Proof.
  intros Hcalm. eexists. split.
  - unfold visit. erewrite seq_ok; [reflexivity|].
    apply tick_pass. apply Hcalm. lia.
  - apply record_walked.
Qed.

Lemma visit_files_calm (base : str) (files : list str) (st : St) :
  calm st (length files) →
  ∃ st', visit_files unicode_lower env base files st = (None, st')
         ∧ walked ((fun f => (base, f)) <$> files) st st'.
Proof.
  revert st. induction files as [|f files IH]; intros st Hcalm; simpl.
  - exists st. split; [done|apply walked_nil].
  - destruct (visit_calm base f st) as (st1 & Hv & Hw1).
    { intros j Hj. apply Hcalm. simpl. lia. }
    destruct (IH st1) as (st2 & Hvs & Hw2).
    { destruct Hw1 as (_ & _ & _ & _ & _ & _ & Ht).
      intros j Hj. apply Hcalm. simpl in *. lia. }
    exists st2. split.
    + by rewrite (seq_ok _ _ _ _ Hv).
    + by apply (walked_app [(base, f)] _ st st1 st2).
Qed.

Lemma scan_calm (tree : list (str * list str * list str)) (st : St) :
  calm st (length (files_of tree)) →
  ∃ st', scan unicode_lower env tree st = (None, st') ∧ walked (files_of tree) st st'.
Proof.
  revert st. induction tree as [|[[base dirs] files] tree IH]; intros st Hcalm; simpl.
  - exists st. split; [done|apply walked_nil].
  - unfold files_of in Hcalm; simpl in Hcalm.
    rewrite length_app, length_fmap in Hcalm.
    destruct (visit_files_calm base files st) as (st1 & Hv & Hw1).
    { intros j Hj. apply Hcalm. lia. }
    destruct (IH st1) as (st2 & Hs & Hw2).
    { destruct Hw1 as (_ & _ & _ & _ & _ & _ & Ht). rewrite length_fmap in Ht.
      intros j Hj. apply Hcalm. fold (files_of tree) in *. lia. }
    exists st2. split.
    + by rewrite (seq_ok _ _ _ _ Hv).
    + by apply (walked_app _ _ st st1 st2).
Qed.

(** *** Starting the workers *)

(** [st'] is [st] but for the workers started. *)
Definition same_but_started (st st' : St) : Prop :=
  extensions st' = extensions st ∧ calls st' = calls st ∧ failed st' = failed st
  ∧ result st' = result st ∧ out st' = out st ∧ ticks st' = ticks st.

(** The executable passes the constructor's two tests as worker [i] is made. *)
Definition executable_at (i : nat) : Prop :=
  Worker.isfile (os env i) (dcraw_binary args) = true
  ∧ Worker.access_X_OK (os env i) (dcraw_binary args) = true.

Lemma start_workers_ok (n i : nat) (st : St) :
  (∀ j, (j < n)%nat → executable_at (i + j)) →
  ∃ st', start_workers args env n i st = (None, st')
         ∧ same_but_started st st'
         ∧ length (started st') = (length (started st) + n)%nat.
Proof.
  revert i st. induction n as [|n IH]; intros i st Hok; simpl.
  - exists st. unfold same_but_started. repeat split; auto with lia.
  - destruct (Hok 0%nat) as [Hf Hx]; [lia|]. rewrite Nat.add_0_r in Hf, Hx.
    rewrite (init_ok _ _ _ Hf Hx).
    destruct (IH (S i) (add_started (Worker.mk (i + 1) None (dcraw_binary args)) st))
      as (st' & Hrun & Hsame & Hlen).
    { intros j Hj. replace (S i + j)%nat with (i + S j)%nat by lia. apply Hok. lia. }
    exists st'. split; [|split].
    + erewrite seq_ok; [exact Hrun|done].
    + exact Hsame.
    + rewrite Hlen. simpl. rewrite length_app. simpl. lia.
Qed.

Lemma start_workers_raises (n i k : nat) (st : St) :
  (k < n)%nat →
  (∀ j, (j < k)%nat → executable_at (i + j)) →
  ¬ executable_at (i + k) →
  ∃ msg st', start_workers args env n i st = (Some (AppError msg), st')
             ∧ (msg = ExecutableNotFound (dcraw_binary args)
                ∨ msg = NotExecutable (dcraw_binary args))
             ∧ same_but_started st st'
             ∧ length (started st') = (length (started st) + k)%nat.
Proof.
  revert i k st. induction n as [|n IH]; intros i k st Hk Hok Hbad; [lia|]. simpl.
  destruct k as [|k].
  - rewrite Nat.add_0_r in Hbad. unfold executable_at, Worker.__init__ in *.
    destruct (Worker.isfile (os env i) (dcraw_binary args)); simpl.
    + destruct (Worker.access_X_OK (os env i) (dcraw_binary args)); simpl.
      * exfalso. by apply Hbad.
      * eexists _, st. unfold same_but_started. repeat split; eauto with lia.
    + eexists _, st. unfold same_but_started. repeat split; eauto with lia.
  - destruct (Hok 0%nat) as [Hf Hx]; [lia|]. rewrite Nat.add_0_r in Hf, Hx.
    rewrite (init_ok _ _ _ Hf Hx).
    destruct (IH (S i) k (add_started (Worker.mk (i + 1) None (dcraw_binary args)) st))
      as (msg & st' & Hrun & Hmsg & Hsame & Hlen).
    { lia. }
    { intros j Hj. replace (S i + j)%nat with (i + S j)%nat by lia. apply Hok. lia. }
    { by replace (S i + k)%nat with (i + S k)%nat by lia. }
    exists msg, st'. split; [|split; [|split]].
    + erewrite seq_ok; [exact Hrun|done].
    + exact Hmsg.
    + exact Hsame.
    + rewrite Hlen. simpl. rewrite length_app. simpl. lia.
Qed.

(** *** An interrupt during the traversal or a join *)

Lemma visit_files_interrupted (base : str) (files : list str) (st : St) (k : nat) :
  sigint env = Some k → (ticks st ≤ k < ticks st + length files)%nat →
  ∃ st', visit_files unicode_lower env base files st = (Some KeyboardInterrupt, st').
Proof.
  intros Hsig. revert st. induction files as [|f files IH]; intros st Hk; simpl in *; [lia|].
  destruct (decide (ticks st = k)) as [Heq|Hne].
  - exists st. apply seq_raised. unfold visit. apply seq_raised.
    apply tick_hit. by rewrite Heq.
  - destruct (visit_calm base f st) as (st1 & Hv & Hw).
    { intros j Hj. rewrite Hsig. intros [= ->]. lia. }
    destruct Hw as (_ & _ & _ & _ & _ & _ & Ht). simpl in Ht.
    destruct (IH st1) as (st' & Hrun); [lia|].
    exists st'. by rewrite (seq_ok _ _ _ _ Hv).
Qed.

Lemma scan_interrupted (tree : list (str * list str * list str)) (st : St) (k : nat) :
  sigint env = Some k → (ticks st ≤ k < ticks st + length (files_of tree))%nat →
  ∃ st', scan unicode_lower env tree st = (Some KeyboardInterrupt, st').
Proof.
  intros Hsig. revert st.
  induction tree as [|[[base dirs] files] tree IH]; intros st Hk; simpl in *; [lia|].
  unfold files_of in Hk; simpl in Hk. fold (files_of tree) in Hk.
  rewrite length_app, length_fmap in Hk.
  destruct (decide (k < ticks st + length files)%nat) as [Hin|Hout].
  - destruct (visit_files_interrupted base files st k) as (st' & Hrun); [done|lia|].
    exists st'. by apply seq_raised.
  - destruct (visit_files_calm base files st) as (st1 & Hv & Hw).
    { intros j Hj. rewrite Hsig. intros [= ->]. lia. }
    destruct Hw as (_ & _ & _ & _ & _ & _ & Ht). rewrite length_fmap in Ht.
    destruct (IH st1) as (st' & Hrun); [lia|].
    exists st'. by rewrite (seq_ok _ _ _ _ Hv).
Qed.

Lemma join_all_interrupted (ts : list (option (Dict.t str str))) (st : St) (k : nat) :
  sigint env = Some k → (ticks st ≤ k < ticks st + length ts)%nat →
  (∀ j, (ticks st + j < k)%nat → ts !! j ≠ Some None) →
  ∃ st', join_all env ts st = (Some KeyboardInterrupt, st').
Proof.
  intros Hsig. revert st. induction ts as [|t ts IH]; intros st Hk Hts; simpl in *; [lia|].
  destruct (decide (ticks st = k)) as [Heq|Hne].
  - exists st. apply seq_raised. apply tick_hit. by rewrite Heq.
  - rewrite (seq_ok _ _ st (set_ticks (S (ticks st)) st)).
    2:{ apply tick_pass. rewrite Hsig. intros [= ->]. done. }
    destruct t as [d|]; [|exfalso; apply (Hts 0%nat); [lia|done]].
    erewrite seq_ok; [|reflexivity].
    apply IH; simpl; [lia|].
    intros j Hj. apply (Hts (S j)). lia.
Qed.

(** *** Printing *)

Lemma print_nil (st : St) : print [] st = st.
Proof. destruct st. unfold print. simpl. by rewrite app_nil_r. Qed.

Lemma print_cons (l : Line) (ls : list Line) (st : St) :
  print ls (print [l] st) = print (l :: ls) st.
Proof. unfold print. simpl. by rewrite <- app_assoc. Qed.

(** A run of [print] calls writes the lines up to the first one that
    standard output refuses, and raises there. *)
Lemma print_lines_spec (ls : list Line) (st : St) :
  print_lines env ls st
  = (if forallb (printable env) ls then None else Some UnicodeEncodeError,
     print (printed env ls) st).
Proof.
  revert st. induction ls as [|l ls IH]; intros st; simpl.
  - by rewrite print_nil.
  - unfold seq, print_line. destruct (printable env l); simpl.
    + by rewrite IH, print_cons.
    + by rewrite print_nil.
Qed.

Lemma printed_all (ls : list Line) :
  forallb (printable env) ls = true → printed env ls = ls.
Proof.
  induction ls as [|l ls IH]; simpl; [done|].
  intros Hls. apply andb_true_iff in Hls as [-> Hls]. by rewrite IH.
Qed.

Lemma keeps_print_lines P (ls : list Line) :
  (∀ st ls', P st → P (print ls' st)) → keeps P (print_lines env ls).
Proof. intros HP st r st' Hst. rewrite print_lines_spec. intros [= <- <-]. auto. Qed.

Lemma report_raises (st st' : St) (e : exn str) :
  report args env st = (Some e, st') → e = UnicodeEncodeError.
Proof.
  unfold report, seq.
  destruct (show_extensions args).
  - rewrite print_lines_spec. destruct (forallb _ _).
    + case_bool_decide; [by intros [= ]|].
      rewrite print_lines_spec. destruct (forallb _ _); by intros [= <-].
    + by intros [= <-].
  - unfold ret. case_bool_decide; [by intros [= ]|].
    rewrite print_lines_spec. destruct (forallb _ _); by intros [= <-].
Qed.

(** *** Nothing is printed, and the result stays false, until the report *)

Definition quiet (st : St) : Prop := out st = [] ∧ result st = false.

Lemma keeps_quiet_start_workers (n i : nat) : keeps quiet (start_workers args env n i).
Proof.
  revert i. induction n as [|n IH]; intros i; simpl; [apply keeps_ret|].
  destruct (Worker.__init__ _ _ _); [apply keeps_raise|].
  apply keeps_seq; [|apply IH]. by apply keeps_modify.
Qed.

Lemma keeps_quiet_visit_files (base : str) (files : list str) :
  keeps quiet (visit_files unicode_lower env base files).
Proof.
  induction files as [|f files IH]; simpl; [apply keeps_ret|].
  apply keeps_seq; [|exact IH]. apply keeps_seq.
  - by apply keeps_tick.
  - apply keeps_modify. intros st [Ho Hr].
    destruct (record_spec base f st) as (_ & _ & _ & _ & _ & Hr' & Ho' & _).
    split; congruence.
Qed.

Lemma keeps_quiet_scan (tree : list (str * list str * list str)) :
  keeps quiet (scan unicode_lower env tree).
Proof.
  induction tree as [|[[base dirs] files] tree IH]; simpl; [apply keeps_ret|].
  apply keeps_seq; [apply keeps_quiet_visit_files|exact IH].
Qed.

Lemma keeps_quiet_join_all (ts : list (option (Dict.t str str))) :
  keeps quiet (join_all env ts).
Proof.
  induction ts as [|t ts IH]; simpl; [apply keeps_ret|].
  apply keeps_seq; [by apply keeps_tick|]. apply keeps_seq; [|exact IH].
  destruct t; [by apply keeps_modify|apply keeps_raise].
Qed.

Lemma body_raised_quiet (e : exn str) (st : St) :
  body unicode_lower args env initial = (Some e, st) → e ≠ UnicodeEncodeError → quiet st.
Proof.
  intros Hrun Hne. revert Hrun.
  assert (Hq : quiet initial) by done. revert Hq. generalize initial. unfold body.
  intros st0 Hq Hrun.
  apply seq_inv in Hrun as [(e' & _ & Hrun)|(st1 & Hrun1 & Hrun)].
  { unfold check_dir, raise, ret in Hrun. destruct (negb _); by simplify_eq. }
  assert (quiet st1) as Hq1.
  { unfold check_dir, raise, ret in Hrun1. destruct (negb _); by simplify_eq. }
  apply seq_inv in Hrun as [(e' & _ & Hrun)|(st2 & Hrun2 & Hrun)].
  { eapply keeps_quiet_start_workers; eauto. }
  assert (quiet st2) as Hq2 by (eapply keeps_quiet_start_workers; eauto).
  apply seq_inv in Hrun as [(e' & _ & Hrun)|(st3 & Hrun3 & Hrun)].
  { eapply keeps_quiet_scan; eauto. }
  assert (quiet st3) as Hq3 by (eapply keeps_quiet_scan; eauto).
  apply seq_inv in Hrun as [(e' & _ & Hrun)|(st4 & Hrun4 & Hrun)]; [done|].
  injection Hrun4 as <-.
  apply seq_inv in Hrun as [(e' & _ & Hrun)|(st5 & Hrun5 & Hrun)]; [done|].
  injection Hrun5 as <-.
  apply seq_inv in Hrun as [(e' & _ & Hrun)|(st6 & Hrun6 & Hrun)].
  - eapply keeps_quiet_join_all; [|exact Hrun]. done.
  - by apply report_raises in Hrun.
Qed.

(** *** The [try] block up to the traversal *)

Lemma body_after_start :
  Worker.isdir (os env 0) (dir args) = true →
  (∀ i, (i < Z.to_nat (workers args))%nat → executable_at i) →
  ∃ st1, same_but_started initial st1
         ∧ length (started st1) = Z.to_nat (workers args)
         ∧ body unicode_lower args env initial
           = (scan unicode_lower env (walk env (dir args)) >>
              modify (add_call Queue.Completed) >>
              modify (set_failed Dict.empty) >>
              join_all env (enumerate env) >>
              report args env) st1.
Proof.
  intros Hdir Hok.
  destruct (start_workers_ok (Z.to_nat (workers args)) 0 initial) as (st1 & Hrun & Hsame & Hlen).
  { intros j Hj. by apply Hok. }
  exists st1. split; [done|]. split; [done|].
  unfold body. erewrite seq_ok.
  2:{ unfold check_dir. by rewrite Hdir. }
  by rewrite (seq_ok _ _ _ _ Hrun).
Qed.

End CallFacts.

(** *** Fixtures: the scenarios of the specification *)

Module Scenario.
Import RawCheck.

(** Every path is a directory, and a file that may be executed. *)
Definition os_ok : Worker.OS :=
  {| Worker.isdir := fun _ => true; Worker.isfile := fun _ => true;
     Worker.access_X_OK := fun _ => true |}.

(** The decoder is not there. *)
Definition os_no_decoder : Worker.OS :=
  {| Worker.isdir := fun _ => true; Worker.isfile := fun _ => false;
     Worker.access_X_OK := fun _ => false |}.

(** Standard output in UTF-8, strict: every code point but the
    surrogates U+D800 to U+DFFF. *)
Definition utf8_strict (c : N) : bool := negb ((55296 <=? c) && (c <=? 57343))%N.

(** [--dir d --workers n] *)
Definition args_of (n : Z) : Args :=
  {| dir := py "d"; debug := false; workers := n; show_extensions := false;
     dcraw_binary := _dcraw_path |}.

(** A directory [d] holding [files], the records of the joined threads,
    and the interrupt. *)
Definition env_of (files : list str) (joined : list (option (Dict.t str str)))
    (interrupt : option nat) : Env :=
  {| os := fun _ => os_ok; walk := fun _ => [(py "d", [], files)];
     enumerate := joined; sigint := interrupt; stdout_takes := utf8_strict |}.

End Scenario.

(** *** The extension of a file name *)

Section ExtensionFacts.

Lemma rfind_from_ge (i : Z) (c : N) (s : str) : 0 ≤ i → -1 ≤ PyStr.rfind_from i c s.
Proof.
  revert i. induction s as [|d s IH]; intros i Hi; simpl; [lia|].
  specialize (IH (i + 1) ltac:(lia)).
  destruct (0 <=? PyStr.rfind_from (i + 1) c s); [done|].
  destruct (d =? c)%N; lia.
Qed.

Lemma rfind_from_notin (i : Z) (c : N) (s : str) : c ∉ s → PyStr.rfind_from i c s = -1.
Proof.
  revert i. induction s as [|d s IH]; intros i Hc; simpl; [done|].
  apply not_elem_of_cons in Hc as [Hne Hc]. rewrite IH by done. simpl.
  destruct (d =? c)%N eqn:Hd; [|done]. apply N.eqb_eq in Hd. congruence.
Qed.

Lemma rfind_from_last (i : Z) (c : N) (s1 s2 : str) :
  0 ≤ i → c ∉ s2 → PyStr.rfind_from i c (s1 ++ c :: s2) = i + Z.of_nat (length s1).
Proof.
  revert i. induction s1 as [|d s1 IH]; intros i Hi Hc; simpl.
  - rewrite rfind_from_notin by done. simpl. rewrite N.eqb_refl. lia.
  - rewrite IH by (done || lia).
    destruct (0 <=? i + 1 + Z.of_nat (length s1)) eqn:Hle; [lia|].
    apply Z.leb_gt in Hle. lia.
Qed.

(** The loop of [splitext] over the characters between the last
    separator and the last dot: it succeeds when one of them is not a
    dot. *)
Lemma splitext_scan_spec (stem pre rest : str) (fuel : nat) :
  (length stem ≤ fuel)%nat →
  PyStr.splitext_scan fuel (Z.of_nat (length pre))
    (Z.of_nat (length pre) + Z.of_nat (length stem)) (pre ++ stem ++ rest)
  = existsb (fun c => negb (c =? PyStr.extsep)%N) stem.
Proof.
  revert pre fuel. induction stem as [|x stem IH]; intros pre fuel Hfuel.
  - destruct fuel as [|fuel]; simpl; [done|].
    assert ((Z.of_nat (length pre) <? Z.of_nat (length pre) + Z.of_nat 0) = false) as ->
      by (apply Z.ltb_ge; lia).
    done.
  - destruct fuel as [|fuel]; [simpl in Hfuel; lia|]. cbn [PyStr.splitext_scan existsb].
    assert ((Z.of_nat (length pre) <? Z.of_nat (length pre) + Z.of_nat (length (x :: stem)))
            = true) as -> by (apply Z.ltb_lt; simpl; lia).
    unfold PyStr.slice_from. rewrite Nat2Z.id, drop_app_length. simpl take.
    unfold PyStr.eqb.
    destruct (x =? PyStr.extsep)%N eqn:Hx; simpl.
    + apply N.eqb_eq in Hx. subst x. rewrite bool_decide_eq_true_2 by done. simpl.
      specialize (IH (pre ++ [PyStr.extsep]) fuel ltac:(simpl in Hfuel; lia)).
      rewrite length_app in IH. simpl in IH.
      rewrite <- app_assoc in IH. simpl in IH.
      replace (Z.of_nat (length pre) + 1) with (Z.of_nat (length pre + 1)) by lia.
      replace (Z.of_nat (length pre) + Z.of_nat (S (length stem)))
        with (Z.of_nat (length pre + 1) + Z.of_nat (length stem)) by lia.
      exact IH.
    + rewrite bool_decide_eq_false_2; [done|].
      intros [= ->]. by rewrite N.eqb_refl in Hx.
Qed.

Lemma splitext_no_dot (f : str) : PyStr.extsep ∉ f → PyStr.splitext f = (f, []).
Proof.
  intros Hdot. unfold PyStr.splitext, PyStr.rfind.
  rewrite (rfind_from_notin 0 PyStr.extsep f Hdot).
  pose proof (rfind_from_ge 0 PyStr.sep f ltac:(lia)) as Hge.
  destruct (PyStr.rfind_from 0 PyStr.sep f <? -1) eqn:Hlt; [|done].
  apply Z.ltb_lt in Hlt. lia.
Qed.

Lemma splitext_name (stem e : str) :
  PyStr.sep ∉ stem → PyStr.sep ∉ e → PyStr.extsep ∉ e →
  PyStr.splitext (stem ++ PyStr.extsep :: e)
  = if existsb (fun c => negb (c =? PyStr.extsep)%N) stem
    then (stem, PyStr.extsep :: e)
    else (stem ++ PyStr.extsep :: e, []).
Proof.
  intros Hs1 Hs2 Hdot. unfold PyStr.splitext, PyStr.rfind.
  rewrite (rfind_from_notin 0 PyStr.sep).
  2:{ rewrite elem_of_app, elem_of_cons. intros [?|[?|?]]; done. }
  rewrite (rfind_from_last 0 PyStr.extsep stem e) by (done || lia).
  replace (-1 <? 0 + Z.of_nat (length stem)) with true by (symmetry; apply Z.ltb_lt; lia).
  pose proof (splitext_scan_spec stem [] (PyStr.extsep :: e)
                (Z.to_nat (0 + Z.of_nat (length stem) - -1)) ltac:(lia)) as Hscan.
  change (Z.of_nat (length (@nil N))) with 0 in Hscan.
  change ([] ++ stem ++ PyStr.extsep :: e) with (stem ++ PyStr.extsep :: e) in Hscan.
  change (-1 + 1) with 0. rewrite Hscan. cbn [andb].
  destruct (existsb _ stem); [|done].
  unfold PyStr.slice_to, PyStr.slice_from.
  replace (Z.to_nat (0 + Z.of_nat (length stem))) with (length stem) by lia.
  by rewrite take_app_length, drop_app_length.
Qed.

Lemma existsb_replicate_dots (k : nat) :
  existsb (fun c => negb (c =? PyStr.extsep)%N) (replicate k PyStr.extsep) = false.
Proof. induction k as [|k IH]; simpl; done. Qed.

Lemma isascii_Forall (e : str) :
  PyStr.isascii e = true ↔ Forall (fun c => (c < 128)%N) e.
Proof.
  unfold PyStr.isascii. induction e as [|c e IH]; simpl.
  - split; [constructor|done].
  - rewrite andb_true_iff, IH, N.ltb_lt. split.
    + intros [? ?]. by constructor.
    + by inversion 1.
Qed.

End ExtensionFacts.

(** *** What the coordinator does *)

Lemma is_raw_iff (ext : str) :
  RawCheck.is_raw ext = true
  ↔ ext ∈ [py "crw"; py "cr2"; py "cr3"; py "rw2"; py "dng"; py "raf"].
Proof.
  unfold RawCheck.is_raw. rewrite existsb_exists. split.
  - intros (x & Hin & Heq). apply bool_decide_eq_true in Heq. subst x.
    by apply list_elem_of_In.
  - intros Hin. exists ext. split; [by apply list_elem_of_In|].
    by apply bool_decide_eq_true.
Qed.

(** C8: while no interrupt arrives, the traversal handles every file it
    meets as follows: the count of the file's lower-cased extension goes
    up by one (from nothing to 1 for a new extension) whatever the
    extension is, no other count moves, and the joined path is pushed onto
    the queue exactly when the extension is one of crw, cr2, cr3, rw2, dng,
    raf.  The extension of a name [stem.e] ([e] without a dot, [stem]
    with a character other than a dot) is [e] with its letters A to Z
    replaced by a to z when [e] is ASCII, so the file is counted under
    that text and pushed exactly when that text is in the list, whatever
    the case of the letters of [e]; an [e] that is not ASCII is lowered
    by the Unicode tables.  Over a whole walk the table gains, for every
    extension, the number of files that have it, and the pushes are the
    paths of the RAW files in the order met.  A directory d holding a.jpg
    and b.cr3 gives the table {jpg: 1, cr3: 1} and the single push of
    d/b.cr3; one holding A.JPG, b.Cr3, c.cr3, README and d.RAF.bak gives
    {jpg: 1, cr3: 2, "": 1, bak: 1} and the pushes of d/b.Cr3 and
    d/c.cr3. *)
Theorem traversal_counts_and_pushes (unicode_lower : str → str) (env : RawCheck.Env)
    (tree : list (str * list str * list str)) (st : RawCheck.St) :
  RawCheck.sigint env = None →
  (∀ ext, RawCheck.is_raw ext = true
          ↔ ext ∈ [py "crw"; py "cr2"; py "cr3"; py "rw2"; py "dng"; py "raf"])
  ∧ (∀ base f, ∃ st',
       RawCheck.visit unicode_lower env base f st = (None, st')
       ∧ RawCheck.count_of (RawCheck.extension unicode_lower f) (RawCheck.extensions st')
         = RawCheck.count_of (RawCheck.extension unicode_lower f) (RawCheck.extensions st) + 1
       ∧ (∀ ext, ext ≠ RawCheck.extension unicode_lower f →
            RawCheck.count_of ext (RawCheck.extensions st')
            = RawCheck.count_of ext (RawCheck.extensions st))
       ∧ RawCheck.calls st'
         = RawCheck.calls st
           ++ (if RawCheck.is_raw (RawCheck.extension unicode_lower f)
               then [Queue.Push (PyStr.join base f)] else []))
  ∧ (∀ stem e,
       PyStr.sep ∉ stem → PyStr.sep ∉ e → PyStr.extsep ∉ e →
       Exists (fun c => c ≠ PyStr.extsep) stem →
       (Forall (fun c => (c < 128)%N) e →
        let lowered :=
          (fun c => if ((65 <=? c) && (c <=? 90))%N then (c + 32)%N else c) <$> e in
        RawCheck.extension unicode_lower (stem ++ PyStr.extsep :: e) = lowered
        ∧ ∀ base, ∃ st',
            RawCheck.visit unicode_lower env base (stem ++ PyStr.extsep :: e) st = (None, st')
            ∧ RawCheck.count_of lowered (RawCheck.extensions st')
              = RawCheck.count_of lowered (RawCheck.extensions st) + 1
            ∧ (lowered ∈ [py "crw"; py "cr2"; py "cr3"; py "rw2"; py "dng"; py "raf"] →
               RawCheck.calls st'
               = RawCheck.calls st
                 ++ [Queue.Push (PyStr.join base (stem ++ PyStr.extsep :: e))])
            ∧ (lowered ∉ [py "crw"; py "cr2"; py "cr3"; py "rw2"; py "dng"; py "raf"] →
               RawCheck.calls st' = RawCheck.calls st))
       ∧ (¬ Forall (fun c => (c < 128)%N) e →
          RawCheck.extension unicode_lower (stem ++ PyStr.extsep :: e) = unicode_lower e))
  ∧ (∃ st',
       RawCheck.scan unicode_lower env tree st = (None, st')
       ∧ RawCheck.calls st'
         = RawCheck.calls st ++ RawCheck.pushes_of unicode_lower (RawCheck.files_of tree)
       ∧ ∀ ext, RawCheck.count_of ext (RawCheck.extensions st')
                = RawCheck.count_of ext (RawCheck.extensions st)
                  + RawCheck.occurrences unicode_lower ext (RawCheck.files_of tree))
  ∧ (∃ st',
       RawCheck.scan unicode_lower env [(py "d", [], [py "a.jpg"; py "b.cr3"])]
         RawCheck.initial = (None, st')
       ∧ RawCheck.extensions st' = [(py "jpg", 1); (py "cr3", 1)]
       ∧ RawCheck.calls st' = [Queue.Push (py "d/b.cr3")])
  ∧ (∃ st',
       RawCheck.scan unicode_lower env
         [(py "d", [], [py "A.JPG"; py "b.Cr3"; py "c.cr3"; py "README"; py "d.RAF.bak"])]
         RawCheck.initial = (None, st')
       ∧ RawCheck.extensions st'
         = [(py "jpg", 1); (py "cr3", 2); ([], 1); (py "bak", 1)]
       ∧ RawCheck.calls st' = [Queue.Push (py "d/b.Cr3"); Queue.Push (py "d/c.cr3")]).
Proof.
  intros Hsig.
  assert (Hcalm : ∀ st n, calm env st n) by (intros ? ? j _; by rewrite Hsig).
  assert (Hvisit : ∀ base f, ∃ st',
       RawCheck.visit unicode_lower env base f st = (None, st')
       ∧ RawCheck.count_of (RawCheck.extension unicode_lower f) (RawCheck.extensions st')
         = RawCheck.count_of (RawCheck.extension unicode_lower f) (RawCheck.extensions st) + 1
       ∧ (∀ ext, ext ≠ RawCheck.extension unicode_lower f →
            RawCheck.count_of ext (RawCheck.extensions st')
            = RawCheck.count_of ext (RawCheck.extensions st))
       ∧ RawCheck.calls st'
         = RawCheck.calls st
           ++ (if RawCheck.is_raw (RawCheck.extension unicode_lower f)
               then [Queue.Push (PyStr.join base f)] else [])).
  { intros base f. eexists. split.
    - unfold RawCheck.visit. erewrite seq_ok; [reflexivity|].
      apply tick_pass. by rewrite Hsig.
    - destruct (record_spec unicode_lower base f
                  (RawCheck.set_ticks (S (RawCheck.ticks st)) st))
        as (Hc & He & Hne & _).
      split; [exact He|]. split; [exact Hne|exact Hc]. }
  split; [exact is_raw_iff|]. split; [exact Hvisit|]. split; [|split; [|split]].
  - intros stem e Hs1 Hs2 Hdot Hstem.
    assert (RawCheck.extension unicode_lower (stem ++ PyStr.extsep :: e)
            = PyStr.lower unicode_lower e) as Hext.
    { unfold RawCheck.extension. rewrite splitext_name by done.
      replace (existsb (fun c => negb (c =? PyStr.extsep)%N) stem) with true; [done|].
      symmetry. apply existsb_exists. apply list.Exists_exists in Hstem as (c & Hin & Hc).
      exists c. split; [by apply list_elem_of_In|].
      apply negb_true_iff, N.eqb_neq. done. }
    split.
    + intros Hascii lowered.
      assert (PyStr.isascii e = true) as Hisascii by (by apply isascii_Forall).
      assert (RawCheck.extension unicode_lower (stem ++ PyStr.extsep :: e) = lowered) as Hlow.
      { rewrite Hext. unfold PyStr.lower. by rewrite Hisascii. }
      split; [exact Hlow|]. intros base.
      destruct (Hvisit base (stem ++ PyStr.extsep :: e)) as (st' & Hrun & He & _ & Hc).
      rewrite Hlow in He, Hc. exists st'. split; [exact Hrun|]. split; [exact He|].
      split.
      * intros Hin. apply is_raw_iff in Hin. by rewrite Hin in Hc.
      * intros Hnot. destruct (RawCheck.is_raw lowered) eqn:Hraw.
        -- by apply is_raw_iff in Hraw.
        -- by rewrite app_nil_r in Hc.
    + intros Hnot. rewrite Hext. unfold PyStr.lower.
      destruct (PyStr.isascii e) eqn:Hisascii; [|done].
      exfalso. apply Hnot. by apply isascii_Forall.
  - destruct (scan_calm unicode_lower env tree st (Hcalm _ _))
      as (st' & Hrun & Hc & He & _).
    eauto.
  - eexists. split.
    + simpl. unfold RawCheck.visit, RawCheck.seq, RawCheck.tick. rewrite Hsig. simpl.
      reflexivity.
    + split; vm_compute; reflexivity.
  - eexists. split.
    + simpl. unfold RawCheck.visit, RawCheck.seq, RawCheck.tick. rewrite Hsig. simpl.
      reflexivity.
    + split; vm_compute; reflexivity.
Qed.

Lemma traversal_counts_and_pushes_witness :
  ∃ st',
    RawCheck.scan (fun s => s) (Scenario.env_of [] [] None)
      [(py "d", [], [py "A.JPG"; py "b.Cr3"; py "c.cr3"; py "README"; py "d.RAF.bak"])]
      RawCheck.initial = (None, st')
    ∧ RawCheck.extensions st' = [(py "jpg", 1); (py "cr3", 2); ([], 1); (py "bak", 1)]
    ∧ RawCheck.calls st' = [Queue.Push (py "d/b.Cr3"); Queue.Push (py "d/c.cr3")].
Proof.
  exact (proj2 (proj2 (proj2 (proj2 (proj2 (traversal_counts_and_pushes (fun s => s)
    (Scenario.env_of [] [] None) [] RawCheck.initial eq_refl)))))).
Defined.

(** C1 is not what the code does: [__call__] sets its local [result] to
    true when the merged failure record is empty, but it has no [return]
    statement, so the call hands back [None] and the script leaves with
    status 1 every time.  The first part holds for every command line and
    environment: the call never hands back [True], and the status the
    main thread leaves with is 1, never 0.  The second is scenario A (one
    file photo.CR2, one worker, nothing failed): the merged record is
    empty, [result] is true, and still the call hands back [None]; every
    worker has been joined, so the process ends there, with status 1. *)
Theorem call_hands_back_None_exit_status_1 :
  (∀ unicode_lower args env,
     (RawCheck.__call__ unicode_lower args env).1 ≠ inr (RawCheck.PyBool true)
     ∧ RawCheck.status (RawCheck.main unicode_lower args env) = 1)
  ∧ (∀ unicode_lower,
       let args := Scenario.args_of 1 in
       let env := Scenario.env_of [py "photo.CR2"] [Some Dict.empty] None in
       let outcome := RawCheck.__call__ unicode_lower args env in
       RawCheck.failed outcome.2 = Dict.empty
       ∧ RawCheck.result outcome.2 = true
       ∧ RawCheck.calls outcome.2 = [Queue.Push (py "d/photo.CR2"); Queue.Completed]
       ∧ outcome.1 = inr RawCheck.PyNone
       ∧ RawCheck.main unicode_lower args env
         = {| RawCheck.status := 1; RawCheck.awaits := [] |}).
Proof.
  split.
  - intros unicode_lower args env. unfold RawCheck.main, RawCheck.__call__. simpl.
    destruct (RawCheck.body unicode_lower args env RawCheck.initial) as [[e|] st];
      [destruct e|]; simpl; try done.
    destruct (RawCheck.printable env _); done.
  - intros unicode_lower. vm_compute. done.
Qed.

Section CallClaims.
Import RawCheck.
Variable unicode_lower : str → str.
Variable args : Args.
Variable env : Env.

Lemma call_after_AppError (msg : AppErrorMsg str) (st : St) :
  body unicode_lower args env initial = (Some (AppError msg), st) →
  __call__ unicode_lower args env
  = (if printable env (ErrorLine msg)
     then (inr PyNone, print [ErrorLine msg; Blank] st)
     else (inl UnicodeEncodeError, st))
  ∧ main unicode_lower args env = {| status := 1; awaits := started st |}.
Proof.
  intros Hb. unfold main, __call__, unjoined. rewrite Hb. simpl.
  by destruct (printable env (ErrorLine msg)).
Qed.

Lemma call_after_interrupt (st : St) :
  body unicode_lower args env initial = (Some KeyboardInterrupt, st) →
  __call__ unicode_lower args env
  = (inr PyNone, add_call Queue.Completed (add_call Queue.Clear st))
  ∧ main unicode_lower args env = {| status := 1; awaits := started st |}.
Proof. intros Hb. unfold main, __call__, unjoined. by rewrite Hb. Qed.

Lemma body_interrupted (k : nat) :
  Worker.isdir (os env 0) (dir args) = true →
  (∀ i, (i < Z.to_nat (workers args))%nat → executable_at args env i) →
  sigint env = Some k →
  (k < length (files_of (walk env (dir args))) + length (enumerate env))%nat →
  (∀ j, (length (files_of (walk env (dir args))) + j < k)%nat →
        enumerate env !! j ≠ Some None) →
  ∃ st, body unicode_lower args env initial = (Some KeyboardInterrupt, st).
Proof.
  intros Hdir Hexe Hsig Hk Hjoined.
  destruct (body_after_start unicode_lower args env Hdir Hexe)
    as (st1 & (_ & _ & _ & _ & _ & Ht1) & _ & ->).
  simpl in Ht1.
  destruct (decide (k < length (files_of (walk env (dir args))))%nat) as [Hin|Hout].
  - destruct (scan_interrupted unicode_lower env (walk env (dir args)) st1 k)
      as (st & Hrun); [done|lia|].
    exists st. by apply seq_raised.
  - destruct (scan_calm unicode_lower env (walk env (dir args)) st1)
      as (st2 & Hrun & Hw).
    { intros j Hj. rewrite Hsig. intros [= ->]. lia. }
    destruct Hw as (_ & _ & _ & _ & _ & _ & Ht2).
    rewrite (seq_ok _ _ _ _ Hrun).
    erewrite seq_ok; [|reflexivity]. erewrite seq_ok; [|reflexivity].
    destruct (join_all_interrupted env (enumerate env)
                (set_failed Dict.empty (add_call Queue.Completed st2)) k)
      as (st & Hjoin); simpl.
    + done.
    + lia.
    + intros j Hj. apply Hjoined. lia.
    + exists st. by apply seq_raised.
Qed.

Lemma body_merges_None (rest : list (option (Dict.t str str))) :
  Worker.isdir (os env 0) (dir args) = true →
  (∀ i, (i < Z.to_nat (workers args))%nat → executable_at args env i) →
  sigint env = None →
  enumerate env = None :: rest →
  (__call__ unicode_lower args env).1 = inl AttributeError.
Proof.
  intros Hdir Hexe Hsig Henum.
  destruct (body_after_start unicode_lower args env Hdir Hexe) as (st1 & _ & _ & Hbody).
  destruct (scan_calm unicode_lower env (walk env (dir args)) st1) as (st2 & Hrun & _).
  { intros j _. by rewrite Hsig. }
  unfold __call__. rewrite Hbody, (seq_ok _ _ _ _ Hrun).
  erewrite seq_ok; [|reflexivity]. erewrite seq_ok; [|reflexivity].
  rewrite Henum.
  erewrite seq_raised; cycle 1.
  { simpl. erewrite seq_ok; [|apply tick_pass; by rewrite Hsig]. by apply seq_raised. }
  done.
Qed.

End CallClaims.

(** C6 is not what the code does when a worker has been started before
    the failure.  What holds: the constructor of a worker raises the
    configuration error exactly when the decoder path is not a file or
    may not be executed; [_command], which runs once per item, never
    raises it; and when the constructor of worker [k] is the first to
    fail, the error leaves the start loop at once, the handler prints
    the one message (when standard output takes the decoder path), no
    path has been looked at or pushed, and no record or result is
    produced.  What fails: the handler of the configuration error,
    unlike the handler of the interrupt beside it, does not complete the
    queue.  The [k] workers started before the failure are inside [pop]
    on a queue that gets no entry and is never completed: however they
    are scheduled, none of them ever leaves [pop], and the process, which
    waits for them, ends only when there is none ([k = 0]); the run is
    not aborted, it hangs. *)
Theorem construction_failure_leaves_workers_waiting (unicode_lower : str → str)
    (args : RawCheck.Args) (env : RawCheck.Env) (k : nat) :
  Worker.isdir (RawCheck.os env 0) (RawCheck.dir args) = true →
  (k < Z.to_nat (RawCheck.workers args))%nat →
  (∀ j, (j < k)%nat → executable_at args env j) →
  ¬ executable_at args env k →
  (∀ os name path,
     (∃ msg, Worker.__init__ os name path = inl (AppError msg))
     ↔ Worker.isfile os path = false ∨ Worker.access_X_OK os path = false)
  ∧ (∀ subprocess_run w path msg,
       Worker._command subprocess_run w path ≠ inl (AppError msg))
  ∧ ∃ msg st,
      RawCheck.body unicode_lower args env RawCheck.initial = (Some (AppError msg), st)
      ∧ (msg = ExecutableNotFound (RawCheck.dcraw_binary args)
         ∨ msg = NotExecutable (RawCheck.dcraw_binary args))
      ∧ RawCheck.__call__ unicode_lower args env
        = (if RawCheck.printable env (RawCheck.ErrorLine msg)
           then (inr RawCheck.PyNone,
                 RawCheck.print [RawCheck.ErrorLine msg; RawCheck.Blank] st)
           else (inl UnicodeEncodeError, st))
      ∧ RawCheck.out st = []
      ∧ RawCheck.calls st = []
      ∧ RawCheck.extensions st = Dict.empty
      ∧ RawCheck.ticks st = 0%nat
      ∧ RawCheck.failed st = Dict.empty
      ∧ RawCheck.result st = false
      ∧ length (RawCheck.started st) = k
      ∧ RawCheck.main unicode_lower args env
        = {| RawCheck.status := 1; RawCheck.awaits := RawCheck.started st |}
      ∧ (k = 0%nat →
         RawCheck.main unicode_lower args env
         = {| RawCheck.status := 1; RawCheck.awaits := [] |})
      ∧ ∀ (sched : list nat) (s : Threads.state str),
          Threads.run sched
            (Threads.start (Queue.replay (RawCheck.calls st) Queue.init)
               (Threads.poppers (length (RawCheck.started st)))) = Some s →
          length (Threads.threads s) = k
          ∧ Forall (fun th => ∃ pc, th = Threads.Popper pc []) (Threads.threads s).
Proof.
  intros Hdir Hk Hok Hbad.
  split; [exact init_raises_iff|]. split; [exact command_never_AppError|].
  destruct (start_workers_raises args env (Z.to_nat (RawCheck.workers args)) 0 k
              RawCheck.initial Hk Hok Hbad)
    as (msg & st & Hrun & Hmsg & (He & Hc & Hf & Hr & Ho & Ht) & Hlen).
  assert (RawCheck.body unicode_lower args env RawCheck.initial = (Some (AppError msg), st))
    as Hbody.
  { unfold RawCheck.body. erewrite seq_ok.
    2:{ unfold RawCheck.check_dir. by rewrite Hdir. }
    by apply seq_raised. }
  destruct (call_after_AppError unicode_lower args env msg st Hbody) as [Hcall Hmain].
  simpl in Hlen.
  exists msg, st.
  do 10 (split; [done|]). split; [exact Hmain|]. split.
  - intros ->. rewrite Hmain. by destruct (RawCheck.started st).
  - intros sched s. rewrite Hc, Hlen. simpl. intros Hsched. split.
    + apply run_length in Hsched. simpl in Hsched. unfold Threads.poppers in Hsched.
      by rewrite length_replicate in Hsched.
    + by apply (idle_for_ever k sched s).
Qed.

Lemma construction_failure_leaves_workers_waiting_witness :
  RawCheck.status
    (RawCheck.main (fun s => s) (Scenario.args_of 2)
       {| RawCheck.os := fun i => if decide (i = 1%nat)
                                  then Scenario.os_no_decoder else Scenario.os_ok;
          RawCheck.walk := fun _ => [(py "d", [], [py "b.cr3"])];
          RawCheck.enumerate := []; RawCheck.sigint := None;
          RawCheck.stdout_takes := Scenario.utf8_strict |}) = 1
  ∧ length (RawCheck.awaits
      (RawCheck.main (fun s => s) (Scenario.args_of 2)
         {| RawCheck.os := fun i => if decide (i = 1%nat)
                                    then Scenario.os_no_decoder else Scenario.os_ok;
            RawCheck.walk := fun _ => [(py "d", [], [py "b.cr3"])];
            RawCheck.enumerate := []; RawCheck.sigint := None;
            RawCheck.stdout_takes := Scenario.utf8_strict |})) = 1%nat.
Proof.
  destruct (construction_failure_leaves_workers_waiting (fun s => s) (Scenario.args_of 2)
    {| RawCheck.os := fun i => if decide (i = 1%nat)
                               then Scenario.os_no_decoder else Scenario.os_ok;
       RawCheck.walk := fun _ => [(py "d", [], [py "b.cr3"])];
       RawCheck.enumerate := []; RawCheck.sigint := None;
       RawCheck.stdout_takes := Scenario.utf8_strict |} 1)
    as (_ & _ & msg & st & _ & _ & _ & _ & _ & _ & _ & _ & _ & Hlen & Hmain & _).
  - reflexivity.
  - simpl. lia.
  - intros j Hj. unfold executable_at; simpl. destruct (decide (j = 1%nat)); [lia|done].
  - unfold executable_at; simpl. by intros [? ?].
  - rewrite Hmain. simpl. split; [reflexivity|exact Hlen].
Defined.

(** X18: an interrupt at an interruption point of the traversal (before
    one of the files) or of the joins (at the join of one of the threads,
    the ones joined before having a record), the directory and the
    decoder being in order: the [try] block ends with KeyboardInterrupt,
    the handler calls [clear] and then [completed] on the queue, nothing
    has been printed, [result] is still false, no exception leaves the
    call, and the main thread leaves with status 1 while the workers
    started may still be running. *)
Theorem interrupt_clears_and_completes (unicode_lower : str → str)
    (args : RawCheck.Args) (env : RawCheck.Env) (k : nat) :
  Worker.isdir (RawCheck.os env 0) (RawCheck.dir args) = true →
  (∀ i, (i < Z.to_nat (RawCheck.workers args))%nat → executable_at args env i) →
  RawCheck.sigint env = Some k →
  (k < length (RawCheck.files_of (RawCheck.walk env (RawCheck.dir args)))
       + length (RawCheck.enumerate env))%nat →
  (∀ j, (length (RawCheck.files_of (RawCheck.walk env (RawCheck.dir args))) + j < k)%nat →
        RawCheck.enumerate env !! j ≠ Some None) →
  ∃ st_raised st,
    RawCheck.body unicode_lower args env RawCheck.initial = (Some KeyboardInterrupt, st_raised)
    ∧ RawCheck.__call__ unicode_lower args env = (inr RawCheck.PyNone, st)
    ∧ RawCheck.calls st = RawCheck.calls st_raised ++ [Queue.Clear; Queue.Completed]
    ∧ RawCheck.out st = []
    ∧ RawCheck.result st = false
    ∧ RawCheck.main unicode_lower args env
      = {| RawCheck.status := 1; RawCheck.awaits := RawCheck.started st |}.
Proof.
  intros Hdir Hexe Hsig Hk Hjoined.
  destruct (body_interrupted unicode_lower args env k Hdir Hexe Hsig Hk Hjoined)
    as (st & Hbody).
  destruct (call_after_interrupt unicode_lower args env st Hbody) as [Hcall Hmain].
  destruct (body_raised_quiet unicode_lower args env _ _ Hbody) as [Hout Hres]; [done|].
  exists st, (RawCheck.add_call Queue.Completed (RawCheck.add_call Queue.Clear st)).
  simpl. rewrite <- app_assoc. simpl. repeat split; done.
Qed.

Lemma interrupt_clears_and_completes_witness :
  ∃ st_raised st,
    RawCheck.body (fun s => s) (Scenario.args_of 2)
      (Scenario.env_of [py "a.jpg"; py "b.cr3"; py "c.dng"]
         [Some [(py "d/b.cr3", py "oops")]; Some Dict.empty] (Some 4%nat))
      RawCheck.initial = (Some KeyboardInterrupt, st_raised)
    ∧ RawCheck.__call__ (fun s => s) (Scenario.args_of 2)
        (Scenario.env_of [py "a.jpg"; py "b.cr3"; py "c.dng"]
           [Some [(py "d/b.cr3", py "oops")]; Some Dict.empty] (Some 4%nat))
      = (inr RawCheck.PyNone, st)
    ∧ RawCheck.calls st
      = RawCheck.calls st_raised ++ [Queue.Clear; Queue.Completed]
    ∧ RawCheck.out st = [].
Proof.
  destruct (interrupt_clears_and_completes (fun s => s) (Scenario.args_of 2)
    (Scenario.env_of [py "a.jpg"; py "b.cr3"; py "c.dng"]
       [Some [(py "d/b.cr3", py "oops")]; Some Dict.empty] (Some 4%nat)) 4)
    as (st_raised & st & Hbody & Hcall & Hcalls & Hout & _).
  - reflexivity.
  - intros i _. by split.
  - reflexivity.
  - simpl. lia.
  - intros [|[|j]] Hj; simpl in *; try done; lia.
  - exists st_raised, st. by repeat split.
Defined.

(** C7 is not what the code does when a worker is inside [pop] as the
    handler runs.  Input: one worker, a directory d holding b.cr3 and
    c.jpg, the interrupt arriving before the second file.  The handler
    does call [clear] and [completed], nothing is printed, [result]
    stays false and no exception leaves the call; the main thread leaves
    with status 1 and the process waits for the worker.  But the worker
    need not observe the "no more work" value.  First schedule: it has
    taken b.cr3, comes back, finds the queue empty and the flag unset;
    the handler runs [clear] and [completed] to their end; the worker
    waits: it is parked for ever on a queue that is empty and completed
    (the lost notification of C3), and the process never ends.  Second
    schedule: it has tested the queue and found b.cr3; the handler's
    [clear], which takes no lock, empties the list; the worker's take
    raises IndexError, which leaves [run]. *)
Theorem interrupt_handler_can_miss_a_worker (unicode_lower : str → str) :
  let args := Scenario.args_of 1 in
  let env := Scenario.env_of [py "b.cr3"; py "c.jpg"] [] (Some 1%nat) in
  let outcome := RawCheck.__call__ unicode_lower args env in
  outcome.1 = inr RawCheck.PyNone
  ∧ RawCheck.calls outcome.2 = [Queue.Push (py "d/b.cr3"); Queue.Clear; Queue.Completed]
  ∧ RawCheck.out outcome.2 = []
  ∧ RawCheck.result outcome.2 = false
  ∧ RawCheck.main unicode_lower args env
    = {| RawCheck.status := 1;
         RawCheck.awaits := [Worker.mk 1 None RawCheck._dcraw_path] |}
  ∧ (∃ sched s,
       Threads.run sched
         (Threads.start Queue.init
            [Threads.Popper Threads.PopEnter [];
             Threads.Caller Threads.CallEnter (RawCheck.calls outcome.2)]) = Some s
       ∧ Threads.stuck s
       ∧ Threads.threads s
         = [Threads.Popper Threads.PopParked [py "d/b.cr3"];
            Threads.Caller Threads.CallEnter []]
       ∧ Threads.queue s = Queue.mk [] true)
  ∧ (∃ sched s,
       Threads.run sched
         (Threads.start Queue.init
            [Threads.Popper Threads.PopEnter [];
             Threads.Caller Threads.CallEnter (RawCheck.calls outcome.2)]) = Some s
       ∧ Threads.stuck s
       ∧ Threads.threads s
         = [Threads.PopperRaised []; Threads.Caller Threads.CallEnter []]
       ∧ Threads.queue s = Queue.mk [] true).
Proof.
  intros args env outcome.
  split; [vm_compute; reflexivity|]. split; [vm_compute; reflexivity|].
  split; [vm_compute; reflexivity|]. split; [vm_compute; reflexivity|].
  split; [vm_compute; reflexivity|]. split.
  - exists [1; 1; 1; 1; 1; 1; 0; 0; 0; 0; 0; 0; 0; 0; 1; 1; 1; 1; 1; 0; 0]%nat.
    exists (Threads.mk (Queue.mk [] true) 1 None
              [Threads.Popper Threads.PopParked [py "d/b.cr3"];
               Threads.Caller Threads.CallEnter []] [(0%nat, py "d/b.cr3")]).
    split; [vm_compute; reflexivity|].
    split; [|done]. intros [|[|i]]; vm_compute; reflexivity.
  - exists [1; 1; 1; 1; 1; 1; 0; 0; 1; 0; 1; 1; 1; 1]%nat.
    exists (Threads.mk (Queue.mk [] true) 1 None
              [Threads.PopperRaised []; Threads.Caller Threads.CallEnter []] []).
    split; [vm_compute; reflexivity|].
    split; [|done]. intros [|[|i]]; vm_compute; reflexivity.
Qed.

(** The coordinator's side of an interrupt while joining: three files,
    two threads, the interrupt at the second join. *)
Example interrupt_while_joining :
  RawCheck.__call__ (fun s => s) (Scenario.args_of 2)
    (Scenario.env_of [py "a.jpg"; py "b.cr3"; py "c.dng"]
       [Some [(py "d/b.cr3", py "oops")]; Some Dict.empty] (Some 4%nat))
  = (inr RawCheck.PyNone,
     {| RawCheck.extensions := [(py "jpg", 1); (py "cr3", 1); (py "dng", 1)];
        RawCheck.calls := [Queue.Push (py "d/b.cr3"); Queue.Push (py "d/c.dng");
                           Queue.Completed; Queue.Clear; Queue.Completed];
        RawCheck.started := [Worker.mk 1 None RawCheck._dcraw_path;
                             Worker.mk 2 None RawCheck._dcraw_path];
        RawCheck.failed := [(py "d/b.cr3", py "oops")];
        RawCheck.result := false; RawCheck.out := []; RawCheck.ticks := 4 |}).
Proof. vm_compute. reflexivity. Qed.

(** C10: a worker just constructed has [None] for its failure record,
    not an empty map; [run] begins by setting it to an empty map, so a
    worker that ran, however its run ended, has a map; and merging the
    record of a worker that never ran fails on [None]: the merge loop
    raises, and a call whose first joined thread is such a worker ends
    with AttributeError. *)
Theorem failed_is_None_before_run (os : Worker.OS) (name : nat) (dcraw_path : str)
    (w : Worker.t) :
  Worker.__init__ os name dcraw_path = inr w →
  Worker.failed w = None
  ∧ Worker.failed w ≠ Some Dict.empty
  ∧ (∀ subprocess_run,
       Worker.run subprocess_run 1 w (Queue.mk [] true)
       = Worker.Finished (Worker.mk name (Some Dict.empty) dcraw_path) (Queue.mk [] true))
  ∧ (∀ subprocess_run fuel q,
       match Worker.run subprocess_run fuel w q with
       | Worker.Finished w' _ | Worker.Blocked w' _ | Worker.Raised _ w' _ =>
           is_Some (Worker.failed w')
       | Worker.OutOfFuel => True
       end)
  ∧ (∀ st, RawCheck.merge (Worker.failed w) st = (Some AttributeError, st))
  ∧ (∀ unicode_lower args env rest,
       Worker.isdir (RawCheck.os env 0) (RawCheck.dir args) = true →
       (∀ i, (i < Z.to_nat (RawCheck.workers args))%nat → executable_at args env i) →
       RawCheck.sigint env = None →
       RawCheck.enumerate env = Worker.failed w :: rest →
       (RawCheck.__call__ unicode_lower args env).1 = inl AttributeError).
Proof.
  unfold Worker.__init__.
  destruct (negb (Worker.isfile os dcraw_path)); [done|].
  destruct (negb (Worker.access_X_OK os dcraw_path)); [done|].
  intros [= <-]. simpl. repeat split; try done.
  - intros subprocess_run fuel q. unfold Worker.run.
    apply run_loop_keeps_record. simpl. eauto.
  - intros unicode_lower args env rest Hdir Hexe Hsig Henum.
    by eapply body_merges_None.
Qed.

Lemma failed_is_None_before_run_witness :
  Worker.failed (Worker.mk 1 None RawCheck._dcraw_path) = None
  ∧ (RawCheck.__call__ (fun s => s) (Scenario.args_of 1)
       (Scenario.env_of [py "b.cr3"]
          [Worker.failed (Worker.mk 1 None RawCheck._dcraw_path)] None)).1
    = inl AttributeError.
Proof.
  destruct (failed_is_None_before_run Scenario.os_ok 1 RawCheck._dcraw_path
              (Worker.mk 1 None RawCheck._dcraw_path) eq_refl)
    as (Hnone & _ & _ & _ & _ & Hcall).
  split; [exact Hnone|].
  apply (Hcall (fun s => s) (Scenario.args_of 1)
           (Scenario.env_of [py "b.cr3"]
              [Worker.failed (Worker.mk 1 None RawCheck._dcraw_path)] None) []).
  - reflexivity.
  - intros i _. by split.
  - reflexivity.
  - reflexivity.
Defined.

(** ** The queue under interleaving *)

Section ListFacts.
Context {B : Type}.

Lemma sum_list_with_insert (f : B → nat) (l : list B) (i : nat) (x y : B) :
  l !! i = Some x →
  (sum_list_with f (<[i:=y]> l) + f x = sum_list_with f l + f y)%nat.
Proof.
  revert i. induction l as [|a l IH]; intros [|i] Hi; simplify_eq/=; [lia|].
  specialize (IH i Hi). lia.
Qed.

Lemma sum_list_with_pos (f : B → nat) (l : list B) :
  (0 < sum_list_with f l)%nat → ∃ i x, l !! i = Some x ∧ (0 < f x)%nat.
Proof.
  induction l as [|a l IH]; simpl; [lia|]. intros Hpos.
  destruct (decide (0 < f a)%nat) as [Ha|Ha].
  - by exists 0%nat, a.
  - destruct IH as (i & x & Hi & Hx); [lia|]. by exists (S i), x.
Qed.

Lemma sum_list_with_two (f : B → nat) (l : list B) (i j : nat) (x y : B) :
  l !! i = Some x → l !! j = Some y → i ≠ j → (f x + f y ≤ sum_list_with f l)%nat.
Proof.
  revert i j. induction l as [|a l IH]; intros [|i] [|j] Hi Hj Hne; simplify_eq/=.
  - pose proof (sum_list_with_in y f l (list_elem_of_lookup_2 _ _ _ Hj)). lia.
  - pose proof (sum_list_with_in x f l (list_elem_of_lookup_2 _ _ _ Hi)). lia.
  - assert (i ≠ j) by congruence. specialize (IH i j Hi Hj). lia.
Qed.

Lemma concat_fmap_insert {C : Type} (f : B → list C) (l : list B) (i : nat)
    (x y : B) (e : list C) :
  l !! i = Some x → f y = f x ++ e →
  concat (f <$> <[i:=y]> l) ≡ₚ concat (f <$> l) ++ e.
Proof.
  revert i. induction l as [|a l IH]; intros [|i] Hi Hf; simplify_eq/=.
  - rewrite Hf, <- !app_assoc. apply Permutation_app_head, Permutation_app_comm.
  - rewrite IH by done. by rewrite app_assoc.
Qed.

Lemma lookup_insert_cases (P : nat → B → Prop) (l : list B) (i : nat) (y : B) :
  (∀ j x, l !! j = Some x → j ≠ i → P j x) → P i y →
  ∀ j x, <[i:=y]> l !! j = Some x → P j x.
Proof.
  intros Hold Hnew j x Hj. destruct (decide (j = i)) as [->|Hne].
  - assert (i < length l)%nat.
    { apply lookup_lt_Some in Hj. by rewrite length_insert in Hj. }
    rewrite list_lookup_insert_eq in Hj by done. by simplify_eq.
  - rewrite list_lookup_insert_ne in Hj by done. by apply Hold.
Qed.

Lemma sublist_same_length (l k : list B) :
  l `sublist_of` k → (length k ≤ length l)%nat → l = k.
Proof.
  induction 1 as [|x l k Hs IH|x l k Hs IH]; simpl; intros Hlen; [done| |].
  - f_equal. apply IH. lia.
  - apply sublist_length in Hs. lia.
Qed.

End ListFacts.

Section Drain.
Context {A : Type}.
Import Threads.
Implicit Types (s : state A) (th : thread A).

(** The entries pushed before the consumers start, and the number of
    consumers. *)
Variable P : list A.
Variable n : nat.

(** Does the thread hold the semaphore? *)
Definition holds th : nat :=
  match th with
  | Popper PopTest _ | Popper PopTake _ | Popper (PopLeave _) _ => 1
  | _ => 0
  end.

(** The statements a consumer still owes before its next take, weighted so
    that every step lowers [measure]. *)
Definition rank th : nat :=
  match th with
  | Popper (PopLeave (Some _)) _ => 8
  | Popper PopEnter _ => 5
  | Popper PopTest _ => 4
  | Popper PopTake _ | Popper (PopLeave None) _ => 3
  | Popper PopFlag _ => 2
  | _ => 0
  end.

Definition measure s : nat :=
  (6 * length (Queue._data (queue s)) + sum_list_with rank (threads s))%nat.

(** The places a consumer can be in once the queue is completed. *)
Definition draining th : Prop :=
  match th with
  | Popper (PopEnter | PopTest | PopTake | PopLeave _ | PopFlag) _ | PopperDone _ => True
  | _ => False
  end.

Definition taking th : bool :=
  match th with Popper PopTake _ => true | _ => false end.

Definition saw_empty th : bool :=
  match th with
  | Popper (PopLeave None) _ | Popper PopFlag _ | PopperDone _ => true
  | _ => false
  end.

Definition is_done th : bool :=
  match th with PopperDone _ => true | _ => false end.

Record inv s : Prop := Inv {
  inv_completed : Queue._completed (queue s) = true;
  inv_length : length (threads s) = n;
  inv_sem : (sem s + sum_list_with holds (threads s) = 1)%nat;
  inv_draining : Forall draining (threads s);
  inv_taking : Queue._data (queue s) ≠ [] ∨ Forall (fun th => taking th = false) (threads s);
  inv_empty : Queue._data (queue s) = [] ∨ Forall (fun th => saw_empty th = false) (threads s);
  inv_order : (delivered s).*2 ++ Queue._data (queue s) = P;
  inv_received : ∀ i th, threads s !! i = Some th →
                 received th = (filter (fun e => e.1 = i) (delivered s)).*2;
  inv_perm : concat (received <$> threads s) ++ Queue._data (queue s) ≡ₚ P
}.

(** A step that touches neither the pending entries nor the history. *)
Lemma inv_local s (i : nat) th th' (sem' : nat) :
  inv s → threads s !! i = Some th →
  received th' = received th → draining th' →
  (sem' + holds th' = sem s + holds th)%nat →
  (taking th' = true → Queue._data (queue s) ≠ []) →
  (saw_empty th' = true → Queue._data (queue s) = []) →
  inv (mk (queue s) sem' (cond s) (<[i:=th']> (threads s)) (delivered s))
  ∧ (sum_list_with rank (<[i:=th']> (threads s)) + rank th
     = sum_list_with rank (threads s) + rank th')%nat.
Proof.
  intros [Hc Hl Hs Hd Ht He Ho Hr Hp] Hi Hrecv Hdr Hsem Htake Hsaw.
  split; [|by apply sum_list_with_insert].
  constructor; simpl; try done.
  - by rewrite length_insert.
  - pose proof (sum_list_with_insert holds _ i th th' Hi). lia.
  - by apply Forall_insert.
  - destruct (taking th') eqn:Ht'; [left; auto|].
    destruct Ht as [?|Ht]; [by left|right]. by apply Forall_insert.
  - destruct (saw_empty th') eqn:He'; [left; auto|].
    destruct He as [?|He]; [by left|right]. by apply Forall_insert.
  - apply lookup_insert_cases.
    + intros j x Hj _. by apply Hr.
    + rewrite Hrecv. by apply Hr.
  - rewrite (concat_fmap_insert received _ i th th' []); [by rewrite app_nil_r|done|].
    by rewrite app_nil_r.
Qed.

(** The take: the head of the pending entries goes to the thread that
    holds the semaphore. *)
Lemma inv_take s (i : nat) (got : list A) (x : A) (rest : list A) :
  inv s → threads s !! i = Some (Popper PopTake got) →
  Queue._data (queue s) = x :: rest →
  inv (mk (Queue.mk rest (Queue._completed (queue s))) (sem s) (cond s)
          (<[i:=Popper (PopLeave (Some x)) got]> (threads s))
          (delivered s ++ [(i, x)])).
Proof.
  intros [Hc Hl Hs Hd Ht He Ho Hr Hp] Hi Hdata.
  constructor; simpl.
  - done.
  - by rewrite length_insert.
  - pose proof (sum_list_with_insert holds _ i _ (Popper (PopLeave (Some x)) got) Hi).
    simpl in *. lia.
  - by apply Forall_insert.
  - right. apply Forall_lookup. apply lookup_insert_cases; [|done].
    intros j th Hj Hne. destruct (taking th) eqn:Htk; [|done].
    pose proof (sum_list_with_two holds _ i j _ _ Hi Hj (not_eq_sym Hne)) as Htwo.
    destruct th as [[] ?| | |]; simpl in *; try done. lia.
  - right. destruct He as [He|He]; [congruence|]. by apply Forall_insert.
  - rewrite fmap_app, <- app_assoc. simpl. by rewrite <- Hdata.
  - apply lookup_insert_cases.
    + intros j th Hj Hne. rewrite list.filter_app, filter_cons, filter_nil. simpl.
      rewrite decide_False by done. rewrite app_nil_r. by apply Hr.
    + rewrite list.filter_app, filter_cons, filter_nil. simpl.
      rewrite decide_True by done. rewrite fmap_app. simpl.
      by rewrite <- (Hr i _ Hi).
  - rewrite (concat_fmap_insert received _ i _ _ [x] Hi) by done.
    rewrite <- app_assoc. simpl. by rewrite <- Hdata.
Qed.

(** Every step keeps the invariant and lowers the measure. *)
Local Ltac local_step th' sem' Hinv Hi :=
  let Hinv' := fresh "Hinv'" in
  let Hrank := fresh "Hrank" in
  destruct (inv_local _ _ _ th' sem' Hinv Hi) as [Hinv' Hrank];
  [ try done; try (simpl; lia); try (intros _; assumption) ..
  | split; [exact Hinv'|unfold measure; simpl in Hrank |- *; lia] ].

Lemma step_inv s s' (i : nat) :
  inv s → step i s = Some s' → inv s' ∧ (measure s' < measure s)%nat.
Proof.
  intros Hinv. unfold step.
  destruct (threads s !! i) as [th|] eqn:Hi; [|done].
  pose proof (proj1 (Forall_lookup _ _) (inv_draining s Hinv) i th Hi) as Hdr.
  destruct th as [pc got| | |]; simpl in Hdr; try done.
  destruct pc as [| | |[x|]| | | | | |]; simpl in Hdr; try done; simpl.
  - destruct (sem s) as [|m] eqn:Hsem; [done|]. intros [= <-].
    local_step (Popper PopTest got) m Hinv Hi.
  - intros [= <-]. unfold with_thread.
    case_bool_decide as Hdata.
    + local_step (Popper (PopLeave None) got) (sem s) Hinv Hi.
    + local_step (Popper PopTake got) (sem s) Hinv Hi.
  - destruct (Queue._data (queue s)) as [|x rest] eqn:Hdata.
    { destruct (inv_taking s Hinv) as [?|Ht]; [done|].
      pose proof (proj1 (Forall_lookup _ _) Ht i _ Hi). done. }
    intros [= <-]. split; [by apply inv_take|]. unfold measure. simpl.
    pose proof (sum_list_with_insert rank _ i _ (Popper (PopLeave (Some x)) got) Hi).
    rewrite Hdata. simpl in *. lia.
  - intros [= <-].
    local_step (Popper PopEnter (got ++ [x])) (S (sem s)) Hinv Hi.
  - intros [= <-].
    assert (Queue._data (queue s) = []) as Hdata.
    { destruct (inv_empty s Hinv) as [?|He]; [done|].
      pose proof (proj1 (Forall_lookup _ _) He i _ Hi). done. }
    local_step (Popper PopFlag got) (S (sem s)) Hinv Hi.
  - intros [= <-]. unfold with_thread. rewrite (inv_completed s Hinv). simpl.
    assert (Queue._data (queue s) = []) as Hdata.
    { destruct (inv_empty s Hinv) as [?|He]; [done|].
      pose proof (proj1 (Forall_lookup _ _) He i _ Hi). done. }
    local_step (PopperDone got) (sem s) Hinv Hi.
Qed.

Lemma run_inv (sched : list nat) s s' :
  inv s → run sched s = Some s' →
  inv s' ∧ (length sched + measure s' ≤ measure s)%nat.
Proof.
  revert s. induction sched as [|i sched IH]; intros s Hinv; simpl.
  - intros [= <-]. split; [done|lia].
  - destruct (step i s) as [s1|] eqn:Hstep; [|done]. intros Hrun.
    destruct (step_inv _ _ _ Hinv Hstep) as [Hinv1 Hlt].
    destruct (IH _ Hinv1 Hrun) as [Hinv' Hle]. split; [done|lia].
Qed.

Lemma done_stuck s : Forall (fun th => is_done th = true) (threads s) → stuck s.
Proof.
  intros Hdone i. unfold step.
  destruct (threads s !! i) as [th|] eqn:Hi; [|done].
  pose proof (proj1 (Forall_lookup _ _) Hdone i th Hi). by destruct th.
Qed.

Lemma holder_steps s (k : nat) th :
  threads s !! k = Some th → (0 < holds th)%nat → ∃ s', step k s = Some s'.
Proof.
  intros Hk Hh. unfold step. rewrite Hk.
  destruct th as [[| | |[x|]| | | | | |] got| | |]; simpl in *; try lia; eauto.
  destruct (Queue._data (queue s)); eauto.
Qed.

(** While a consumer is left that has not finished, some thread can move. *)
Lemma progress s :
  inv s → ¬ Forall (fun th => is_done th = true) (threads s) → ∃ i s', step i s = Some s'.
Proof.
  intros Hinv Hnot. apply not_Forall_Exists in Hnot; [|apply _].
  apply list.Exists_exists in Hnot as (th & Hin & Hnd).
  apply list_elem_of_lookup in Hin as [j Hj]. simpl in Hnd.
  pose proof (proj1 (Forall_lookup _ _) (inv_draining s Hinv) j th Hj) as Hdr.
  destruct th as [pc got| | |]; simpl in Hdr, Hnd; try done.
  destruct (decide (0 < holds (Popper pc got))%nat) as [Hh|Hh].
  { exists j. by eapply holder_steps. }
  destruct pc as [| | |[x|]| | | | | |]; simpl in Hdr, Hh; try done; try lia.
  - destruct (sem s) as [|m] eqn:Hsem.
    + destruct (sum_list_with_pos holds (threads s)) as (k & x & Hk & Hx).
      { pose proof (inv_sem s Hinv). lia. }
      exists k. by eapply holder_steps.
    + exists j. unfold step. rewrite Hj. simpl. rewrite Hsem. eauto.
  - exists j. unfold step. rewrite Hj. simpl. eauto.
Qed.

Lemma stuck_done s : inv s → stuck s → Forall (fun th => is_done th = true) (threads s).
Proof.
  intros Hinv Hstuck.
  destruct (decide (Forall (fun th => is_done th = true) (threads s))) as [|Hnot]; [done|].
  destruct (progress s Hinv Hnot) as (i & s' & Hstep). by rewrite Hstuck in Hstep.
Qed.

(** From every state of a drain some schedule leads to the end. *)
Lemma finish s : inv s → ∃ sched s', run sched s = Some s' ∧ stuck s'.
Proof.
  remember (measure s) as m eqn:Hm. revert s Hm.
  induction m as [m IH] using lt_wf_ind. intros s -> Hinv.
  destruct (decide (Forall (fun th => is_done th = true) (threads s))) as [Hdone|Hnot].
  - exists [], s. split; [done|by apply done_stuck].
  - destruct (progress s Hinv Hnot) as (i & s1 & Hstep).
    destruct (step_inv _ _ _ Hinv Hstep) as [Hinv1 Hlt].
    destruct (IH _ Hlt s1 eq_refl Hinv1) as (sched & s' & Hrun & Hstuck).
    exists (i :: sched), s'. simpl. by rewrite Hstep.
Qed.

(** What a finished drain has delivered. *)
Lemma finished s :
  inv s → (1 ≤ n)%nat → Forall (fun th => is_done th = true) (threads s) →
  Queue._data (queue s) = []
  ∧ (delivered s).*2 = P
  ∧ concat (received <$> threads s) ≡ₚ P
  ∧ Forall (fun th => ∃ got, th = PopperDone got ∧ got `sublist_of` P) (threads s)
  ∧ (n = 1%nat → threads s = [PopperDone P]).
Proof.
  intros Hinv Hn Hdone.
  assert (Queue._data (queue s) = []) as Hdata.
  { destruct (inv_empty s Hinv) as [?|He]; [done|].
    destruct (lookup_lt_is_Some_2 (threads s) 0) as [th Hth].
    { rewrite (inv_length s Hinv). lia. }
    pose proof (proj1 (Forall_lookup _ _) Hdone 0%nat th Hth).
    pose proof (proj1 (Forall_lookup _ _) He 0%nat th Hth).
    by destruct th. }
  assert ((delivered s).*2 = P) as Horder.
  { pose proof (inv_order s Hinv) as Ho. by rewrite Hdata, app_nil_r in Ho. }
  assert (concat (received <$> threads s) ≡ₚ P) as Hperm.
  { pose proof (inv_perm s Hinv) as Hp. by rewrite Hdata, app_nil_r in Hp. }
  assert (Forall (fun th => ∃ got, th = PopperDone got ∧ got `sublist_of` P) (threads s))
    as Hsub.
  { apply Forall_lookup. intros i th Hi.
    pose proof (proj1 (Forall_lookup _ _) Hdone i th Hi) as Hd.
    destruct th as [| got | |]; try done. exists got. split; [done|].
    pose proof (inv_received s Hinv i _ Hi) as Hr. simpl in Hr.
    rewrite Hr, <- Horder. apply fmap_sublist, sublist_filter. }
  repeat split; try done.
  intros Hone. pose proof (inv_length s Hinv) as Hlen. rewrite Hone in Hlen.
  destruct (threads s) as [|th [|? ?]]; simpl in Hlen; try done.
  apply Forall_inv in Hsub as (got & -> & Hgot). f_equal. f_equal.
  simpl in Hperm. rewrite app_nil_r in Hperm.
  apply sublist_same_length; [done|]. by rewrite Hperm.
Qed.

Lemma sum_list_with_replicate (f : thread A → nat) (k : nat) th :
  sum_list_with f (replicate k th) = (k * f th)%nat.
Proof. induction k as [|k IH]; simpl; [done|]. rewrite IH. lia. Qed.

Lemma replay_pushes (l d : list A) (c : bool) :
  Queue.replay (Queue.Push <$> l) (Queue.mk d c) = Queue.mk (d ++ l) c.
Proof.
  revert d. induction l as [|x l IH]; intros d; simpl.
  - by rewrite app_nil_r.
  - unfold Queue.replay in *. simpl. unfold Queue.push. simpl.
    rewrite IH. by rewrite <- app_assoc.
Qed.

Lemma replay_pushes_completed :
  Queue.replay ((Queue.Push <$> P) ++ [Queue.Completed]) Queue.init = Queue.mk P true.
Proof. rewrite replay_app. unfold Queue.init. by rewrite replay_pushes. Qed.

(** The drain starts in a state of the invariant. *)
Lemma inv_start : inv (start (Queue.mk P true) (poppers n)).
Proof.
  unfold start, poppers. constructor; simpl.
  - done.
  - by rewrite length_replicate.
  - by rewrite sum_list_with_replicate; simpl; lia.
  - by apply Forall_replicate.
  - right. by apply Forall_replicate.
  - right. by apply Forall_replicate.
  - done.
  - intros i th Hi. apply lookup_replicate_1 in Hi as [-> _]. done.
  - rewrite fmap_replicate. simpl.
    assert (concat (replicate n (@nil A)) = []) as ->; [|done].
    clear. induction n as [|k IH]; simpl; done.
Qed.

Lemma measure_start : measure (start (Queue.mk P true) (poppers n)) = (6 * length P + 5 * n)%nat.
Proof. unfold measure, start, poppers. simpl. rewrite sum_list_with_replicate. simpl. lia. Qed.

End Drain.


(** C3 is not what the code does.  [pop] tests the pending entries under
    the semaphore, reads the flag under no lock, and only then takes the
    condition's lock and waits; a [notify_all] that falls between the test
    and the wait finds nobody parked and is lost.  First schedule: the
    consumer finds the queue empty and the flag unset; the caller runs
    [completed] to its end; the consumer parks.  No thread can move any
    more and the consumer is parked for ever although the queue is
    completed.  Second schedule: the same with a [push] before
    [completed]; the consumer is parked for ever with the entry pending. *)
Theorem pop_misses_the_wakeup {A : Type} (x : A) :
  (∃ sched s,
     Threads.run sched
       (Threads.start (@Queue.init A)
          [Threads.Popper Threads.PopEnter [];
           Threads.Caller Threads.CallEnter [Queue.Completed]]) = Some s
     ∧ Threads.stuck s
     ∧ Threads.threads s
       = [Threads.Popper Threads.PopParked []; Threads.Caller Threads.CallEnter []]
     ∧ Threads.queue s = Queue.mk [] true)
  ∧ (∃ sched s,
       Threads.run sched
         (Threads.start Queue.init
            [Threads.Popper Threads.PopEnter [];
             Threads.Caller Threads.CallEnter [Queue.Push x; Queue.Completed]]) = Some s
       ∧ Threads.stuck s
       ∧ Threads.threads s
         = [Threads.Popper Threads.PopParked []; Threads.Caller Threads.CallEnter []]
       ∧ Threads.queue s = Queue.mk [x] true).
Proof.
  split.
  - exists [0; 0; 0; 0; 1; 1; 1; 1; 0; 0]%nat.
    exists (Threads.mk (Queue.mk [] true) 1 None
              [Threads.Popper Threads.PopParked []; Threads.Caller Threads.CallEnter []] []).
    split; [vm_compute; reflexivity|].
    split; [|done]. intros [|[|i]]; vm_compute; reflexivity.
  - exists [0; 0; 0; 0; 1; 1; 1; 1; 1; 1; 1; 1; 1; 1; 0; 0]%nat.
    exists (Threads.mk (Queue.mk [x] true) 1 None
              [Threads.Popper Threads.PopParked []; Threads.Caller Threads.CallEnter []] []).
    split; [vm_compute; reflexivity|].
    split; [|done]. intros [|[|i]]; vm_compute; reflexivity.
Qed.

(** The same gap loses an entry without any thread hanging: the consumer
    finds the queue empty, the caller pushes an entry and sets the flag,
    the consumer reads the flag and leaves with [None]; every thread
    finishes and the entry stays in the queue. *)
Example entry_pushed_during_pop_is_stranded {A : Type} (x : A) :
  ∃ sched s,
    Threads.run sched
      (Threads.start Queue.init
         [Threads.Popper Threads.PopEnter [];
          Threads.Caller Threads.CallEnter [Queue.Push x; Queue.Completed]]) = Some s
    ∧ Threads.stuck s
    ∧ Threads.threads s = [Threads.PopperDone []; Threads.Caller Threads.CallEnter []]
    ∧ Threads.queue s = Queue.mk [x] true.
Proof.
  exists [0; 0; 0; 1; 1; 1; 1; 1; 1; 1; 0; 1; 1; 1]%nat.
  exists (Threads.mk (Queue.mk [x] true) 1 None
            [Threads.PopperDone []; Threads.Caller Threads.CallEnter []] []).
  split; [vm_compute; reflexivity|].
  split; [|done]. intros [|[|i]]; vm_compute; reflexivity.
Qed.

(** [clear] takes no lock: when it falls between a consumer's test and
    its take, the take meets an empty list and [pop] raises IndexError. *)
Example clear_between_test_and_take {A : Type} (x : A) :
  ∃ sched s,
    Threads.run sched
      (Threads.start (Queue.mk [x] false)
         [Threads.Popper Threads.PopEnter [];
          Threads.Caller Threads.CallEnter [Queue.Clear; Queue.Completed]]) = Some s
    ∧ Threads.threads s
      = [Threads.PopperRaised []; Threads.Caller Threads.CallEnter [Queue.Completed]].
Proof.
  exists [0; 0; 1; 0]%nat.
  exists (Threads.mk (Queue.mk [] false) 1 None
            [Threads.PopperRaised []; Threads.Caller Threads.CallEnter [Queue.Completed]] []).
  split; [vm_compute; reflexivity|done].
Qed.

(** ** Entries pushed while a consumer is inside [pop] *)

Section Dropped.
Context {A : Type}.
Import Threads.

(** One entry pushed and taken: the six statements of [push], then the
    four of a [pop] that finds it. *)
Lemma fed_and_taken (x : A) (got : list A) (todo : list (Queue.call A))
    (del : list (nat * A)) :
  run [1; 1; 1; 1; 1; 1; 0; 0; 0; 0]%nat
    (mk (Queue.mk [] false) 1 None
       [Popper PopEnter got; Caller CallEnter (Queue.Push x :: todo)] del)
  = Some (mk (Queue.mk [] false) 1 None
            [Popper PopEnter (got ++ [x]); Caller CallEnter todo] (del ++ [(0%nat, x)])).
Proof. reflexivity. Qed.

(** The producer pushes the entries of [P] one at a time and the
    consumer takes each before the next is pushed. *)
Lemma feed_and_take (P : list A) (got : list A) (rest : list (Queue.call A))
    (del : list (nat * A)) :
  ∃ sched,
    run sched (mk (Queue.mk [] false) 1 None
                 [Popper PopEnter got; Caller CallEnter ((Queue.Push <$> P) ++ rest)] del)
    = Some (mk (Queue.mk [] false) 1 None
              [Popper PopEnter (got ++ P); Caller CallEnter rest]
              (del ++ ((fun x => (0%nat, x)) <$> P))).
Proof.
  revert got del. induction P as [|x P IH]; intros got del.
  - exists []. simpl. by rewrite !app_nil_r.
  - destruct (IH (got ++ [x]) (del ++ [(0%nat, x)])) as [sched Hrun].
    exists ([1; 1; 1; 1; 1; 1; 0; 0; 0; 0]%nat ++ sched).
    change ((Queue.Push <$> x :: P) ++ rest)
      with (Queue.Push x :: ((Queue.Push <$> P) ++ rest)).
    rewrite (run_app_Some _ sched _ _ (fed_and_taken x got ((Queue.Push <$> P) ++ rest) del)).
    rewrite Hrun. by rewrite <- !app_assoc.
Qed.

(** The last entry is pushed, and the queue completed, between the
    consumer's test and its reading of the flag. *)
Lemma last_entry_missed (x : A) (got : list A) (del : list (nat * A)) :
  run [0; 0; 0; 1; 1; 1; 1; 1; 1; 1; 0; 1; 1; 1]%nat
    (mk (Queue.mk [] false) 1 None
       [Popper PopEnter got; Caller CallEnter [Queue.Push x; Queue.Completed]] del)
  = Some (mk (Queue.mk [x] true) 1 None [PopperDone got; Caller CallEnter []] del).
Proof. reflexivity. Qed.

Lemma fmap_snd_tagged (i : nat) (P : list A) : ((fun x => (i, x)) <$> P).*2 = P.
Proof. induction P as [|x P IH]; [done|]. cbn. f_equal. exact IH. Qed.

End Dropped.

(** C4 is not what the code does in the order the program uses the
    queue: the consumers are started before the first [push], so they
    are inside [pop] while the entries arrive.  One consumer, the
    entries [P] and then [x] pushed, then [completed]: in the schedule
    below the consumer takes every entry of [P]; it then finds the queue
    empty, [x] is pushed and the flag set, and the consumer, reading the
    flag only now, leaves with [None].  Every thread has finished, the
    consumer has popped until it got [None], and [x] was never delivered:
    it is still in the queue.  The gap between the test of the pending
    entries and the reading of the flag is the one of C3. *)
Theorem entry_pushed_while_popping_is_dropped {A : Type} (P : list A) (x : A) :
  ∃ sched s,
    Threads.run sched
      (Threads.start Queue.init
         [Threads.Popper Threads.PopEnter [];
          Threads.Caller Threads.CallEnter
            ((Queue.Push <$> (P ++ [x])) ++ [Queue.Completed])]) = Some s
    ∧ Threads.stuck s
    ∧ Threads.threads s = [Threads.PopperDone P; Threads.Caller Threads.CallEnter []]
    ∧ Threads.queue s = Queue.mk [x] true
    ∧ (Threads.delivered s).*2 = P.
Proof.
  destruct (feed_and_take P [] [Queue.Push x; Queue.Completed] []) as [sched Hrun].
  exists (sched ++ [0; 0; 0; 1; 1; 1; 1; 1; 1; 1; 0; 1; 1; 1]%nat).
  exists (Threads.mk (Queue.mk [x] true) 1 None
            [Threads.PopperDone P; Threads.Caller Threads.CallEnter []]
            ((fun y => (0%nat, y)) <$> P)).
  split; [|split; [|split; [reflexivity|split; [reflexivity|]]]].
  - rewrite fmap_app, <- app_assoc.
    apply (eq_trans (run_app_Some sched _ _ _ Hrun)).
    exact (last_entry_missed x P ((fun y => (0%nat, y)) <$> P)).
  - intros [|[|i]]; reflexivity.
  - apply fmap_snd_tagged.
Qed.

(** X17: the drain.  Let the queue hold the entries [P] and be completed
    (they were pushed, and [completed] was called, before any consumer
    entered [pop]), and let [n >= 1] consumers then pop until they get
    [None], their statements interleaved in any way.  Every such run is
    at most [6 * |P| + 5 * n] steps
    long and can be continued to a state where no thread can move; in
    such a state every consumer has finished, the queue is empty, the
    entries were taken in the order [P], what the consumers received is,
    taken together, a permutation of [P] (each entry once, none dropped),
    each consumer received its entries in the order of [P], and a single
    consumer received exactly [P].  Run by one thread, [|P| + 1] calls of
    [pop] return the entries of [P] in order and then [None]. *)
Theorem drain_delivers_each_entry_once {A : Type} (P : list A) (n : nat)
    (sched : list nat) (s : Threads.state A) :
  (1 ≤ n)%nat →
  Threads.run sched
    (Threads.start (Queue.replay ((Queue.Push <$> P) ++ [Queue.Completed]) Queue.init)
       (Threads.poppers n)) = Some s →
  Queue.pops (length P + 1)
    (Queue.replay ((Queue.Push <$> P) ++ [Queue.Completed]) Queue.init)
  = Some ((Some <$> P) ++ [None], Queue.mk [] true)
  ∧ (length sched ≤ 6 * length P + 5 * n)%nat
  ∧ (∃ sched' s', Threads.run sched' s = Some s' ∧ Threads.stuck s')
  ∧ (Threads.stuck s →
       Queue._data (Threads.queue s) = []
       ∧ (Threads.delivered s).*2 = P
       ∧ concat (Threads.received <$> Threads.threads s) ≡ₚ P
       ∧ length (Threads.threads s) = n
       ∧ Forall (fun th => ∃ got, th = Threads.PopperDone got ∧ got `sublist_of` P)
           (Threads.threads s)
       ∧ (n = 1%nat → Threads.threads s = [Threads.PopperDone P])).
Proof.
  intros Hn. rewrite replay_pushes_completed. intros Hrun.
  destruct (run_inv P n sched _ _ (inv_start P n) Hrun) as [Hinv Hle].
  rewrite measure_start in Hle.
  split; [apply pops_drain_None|]. split; [lia|]. split; [by eapply finish|].
  intros Hstuck.
  pose proof (stuck_done P n s Hinv Hstuck) as Hdone.
  destruct (finished P n s Hinv Hn Hdone) as (Hdata & Horder & Hperm & Hsub & Hone).
  pose proof (inv_length P n s Hinv). done.
Qed.

Lemma drain_delivers_each_entry_once_witness :
  concat (Threads.received <$> [Threads.PopperDone [1%nat]; Threads.PopperDone [2%nat]])
  ≡ₚ [1; 2]%nat.
Proof.
  destruct (drain_delivers_each_entry_once [1; 2]%nat 2
              [0; 0; 0; 0; 1; 1; 1; 1; 0; 0; 0; 0; 1; 1; 1; 1]%nat
              (Threads.mk (Queue.mk [] true) 1 None
                 [Threads.PopperDone [1%nat]; Threads.PopperDone [2%nat]]
                 [(0%nat, 1%nat); (1%nat, 2%nat)]))
    as (_ & _ & _ & Hend).
  - lia.
  - vm_compute. reflexivity.
  - destruct Hend as (_ & _ & Hperm & _); [|exact Hperm].
    intros [|[|i]]; vm_compute; reflexivity.
Defined.

(** * Further properties *)

(** ** What [_command] and [run] do with the decoder's answers *)

Module Verdict.

(** The three outcomes of the decoder on a path, as [_command] reads
    them: the diagnostic does not decode ([None]), the file is in order
    ([Some None]), or it failed, with the text to record. *)
Definition verdict (subprocess_run : list str → Worker.CompletedProcess)
    (dcraw_path path : str) : option (option str) :=
  let res := subprocess_run [dcraw_path; py "-Z"; py "-"; path] in
  match PyStr.decode_utf8 (Worker.stderr res) with
  | None => None
  | Some text =>
      let stderr := PyStr.strip text in
      Some (if negb (Worker.returncode res =? 0) || negb (PyStr.eqb stderr [])
            then Some (Worker.cleaned path stderr) else None)
  end.


End Verdict.

Section StartsWith.

Lemma startswith_app (p s : str) : PyStr.startswith (p ++ s) p = true.
Proof. induction p as [|c p IH]; simpl; [by destruct s|]. by rewrite N.eqb_refl, IH. Qed.

Lemma startswith_inv (s p : str) :
  PyStr.startswith s p = true → ∃ r, s = p ++ r.
Proof.
  revert s. induction p as [|c p IH]; intros s; simpl; [by exists s|].
  destruct s as [|d s]; [done|]. intros Hs.
  apply andb_true_iff in Hs as [Hc Hs]. apply N.eqb_eq in Hc. subst d.
  destruct (IH s Hs) as [r ->]. by exists r.
Qed.

Lemma slice_from_app (p s : str) (k : nat) :
  PyStr.slice_from (Z.of_nat (length p) + Z.of_nat k) (p ++ s) = drop k s.
Proof.
  unfold PyStr.slice_from.
  replace (Z.to_nat (Z.of_nat (length p) + Z.of_nat k)) with (length p + k)%nat by lia.
  by rewrite drop_app_add.
Qed.

End StartsWith.

(** X1: the prefix removal of [_command] takes off the path and the two
    characters that follow it, whatever these are (the code does not look
    for ": "); a text that is the path with at most two more characters
    becomes empty; a text that does not start with the path is kept as it
    is; and since every text starts with the empty path, an empty path
    costs the text its first two characters. *)
Theorem cleaned_drops_path_and_two (path : str) :
  (∀ c1 c2 rest, Worker.cleaned path (path ++ c1 :: c2 :: rest) = rest)
  ∧ (∀ tail, (length tail ≤ 2)%nat → Worker.cleaned path (path ++ tail) = [])
  ∧ (∀ text, PyStr.startswith text path = false → Worker.cleaned path text = text)
  ∧ (∀ text, Worker.cleaned [] text = drop 2 text).
Proof.
  repeat split.
  - intros c1 c2 rest. unfold Worker.cleaned. rewrite startswith_app.
    by rewrite (slice_from_app path _ 2).
  - intros tail Hlen. unfold Worker.cleaned. rewrite startswith_app.
    rewrite (slice_from_app path _ 2). by apply drop_ge.
  - intros text Hs. unfold Worker.cleaned. by rewrite Hs.
  - intros text. unfold Worker.cleaned. by destruct text.
Qed.

Lemma cleaned_drops_path_and_two_witness :
  Worker.cleaned (py "d/x.cr2") (py "d/x.cr2") = []
  ∧ Worker.cleaned (py "d/x.cr2") (py "other: d/x.cr2") = py "other: d/x.cr2".
Proof.
  destruct (cleaned_drops_path_and_two (py "d/x.cr2")) as (_ & Hshort & Hkeep & _).
  split.
  - apply (Hshort []). simpl. lia.
  - apply Hkeep. reflexivity.
Defined.

Section CommandFacts.
Import Worker Verdict.
Variable subprocess_run : list str → CompletedProcess.

Definition with_failed (d : Dict.t str str) (w : Worker.t) : Worker.t :=
  Worker.mk (name w) (Some d) (_dcraw_path w).

(** [_command] through the verdict. *)
Lemma command_verdict (w : Worker.t) (path : str) :
  _command subprocess_run w path
  = match verdict subprocess_run (_dcraw_path w) path with
    | None => inl UnicodeDecodeError
    | Some None => inr w
    | Some (Some text) =>
        match _failed w with
        | None => inl TypeError
        | Some d => inr (with_failed (Dict.set path text d) w)
        end
    end.
Proof.
  unfold _command, verdict.
  destruct (PyStr.decode_utf8 _) as [text|]; [|done].
  by destruct (negb _ || negb _).
Qed.






End CommandFacts.






(** X4: a call of [_command] that returns changes nothing but the entry
    of its own path: the worker's name and decoder path stay, every other
    path keeps what the record held for it (or its absence), and an entry
    the path already had is never taken away, only replaced. *)
Theorem command_touches_only_its_path
    (subprocess_run : list str → Worker.CompletedProcess)
    (w w' : Worker.t) (path : str) :
  Worker._command subprocess_run w path = inr w' →
  Worker.name w' = Worker.name w
  ∧ Worker._dcraw_path w' = Worker._dcraw_path w
  ∧ (∀ p, p ≠ path →
       Worker._failed w' ≫= Dict.get p = Worker._failed w ≫= Dict.get p)
  ∧ (is_Some (Worker._failed w ≫= Dict.get path) →
     is_Some (Worker._failed w' ≫= Dict.get path)).
Proof.
  rewrite command_verdict.
  destruct (Verdict.verdict subprocess_run (Worker._dcraw_path w) path) as [[text|]|];
    [|by intros [= <-]|done].
  destruct (Worker._failed w) as [d|] eqn:Hd; [|done].
  intros [= <-]. simpl. repeat split.
  - intros p Hne. by rewrite dict_get_set_ne.
  - intros _. rewrite dict_get_set_eq. eauto.
Qed.

Lemma command_touches_only_its_path_witness :
  Some [(py "d/a.dng", py "bad"); (py "d/b.cr3", py "worse")] ≫= Dict.get (py "d/a.dng")
  = Some [(py "d/a.dng", py "bad")] ≫= Dict.get (py "d/a.dng").
Proof.
  destruct (command_touches_only_its_path
    (fun _ => {| Worker.returncode := 1; Worker.stderr := py "d/b.cr3: worse" |})
    (Worker.mk 1 (Some [(py "d/a.dng", py "bad")]) RawCheck._dcraw_path)
    (Worker.mk 1 (Some [(py "d/a.dng", py "bad"); (py "d/b.cr3", py "worse")])
       RawCheck._dcraw_path)
    (py "d/b.cr3")) as (_ & _ & Hother & _).
  - vm_compute. reflexivity.
  - apply (Hother (py "d/a.dng")). discriminate.
Defined.

(** ** More on the coordinator *)

Module Merge.

(** The merge loop for one thread: [for p, e in d.items(): failed[p] = e]. *)
Definition merge_into (acc d : Dict.t str str) : Dict.t str str :=
  foldl (fun acc pe => Dict.set pe.1 pe.2 acc) acc (Dict.items d).

(** The sum of the counts of an extension table. *)
Definition total (table : Dict.t str Z) : Z := foldr (fun kv acc => kv.2 + acc) 0 table.

(** What [report] prints for a table and a merged record. *)
Definition extension_lines (table : Dict.t str Z) : list RawCheck.Line :=
  flat_map (fun ec => [RawCheck.ExtensionsHeader; RawCheck.ExtensionLine ec.1 ec.2;
                       RawCheck.Blank]) table.

Definition failure_lines (failed : Dict.t str str) : list RawCheck.Line :=
  match failed with
  | [] => []
  | _ => [RawCheck.FailedHeader]
         ++ ((fun pe => RawCheck.FailedLine pe.1 pe.2) <$> failed) ++ [RawCheck.Blank]
  end.

End Merge.

Section DictMore.
Context {K V : Type} `{EqDecision K}.
Implicit Types (k : K) (v : V) (d : Dict.t K V).

Lemma dict_get_notin k d : k ∉ d.*1 → Dict.get k d = None.
Proof.
  induction d as [|[k' v'] d IH]; simpl; [done|]. intros Hk.
  apply not_elem_of_cons in Hk as [Hne Hk]. rewrite decide_False by done. by apply IH.
Qed.

Lemma dict_set_keys k v d k' : k' ∈ (Dict.set k v d).*1 ↔ k' = k ∨ k' ∈ d.*1.
Proof.
  induction d as [|[k0 v0] d IH]; simpl.
  - rewrite elem_of_cons, elem_of_nil. tauto.
  - destruct (decide (k = k0)) as [->|Hne]; simpl; rewrite !elem_of_cons.
    + tauto.
    + rewrite IH. tauto.
Qed.

Lemma dict_set_NoDup k v d : NoDup d.*1 → NoDup (Dict.set k v d).*1.
Proof.
  induction d as [|[k0 v0] d IH]; simpl; intros Hd.
  - apply list.NoDup_cons. split; [apply not_elem_of_nil|apply NoDup_nil_2].
  - apply list.NoDup_cons in Hd as [Hk0 Hd].
    destruct (decide (k = k0)) as [->|Hne]; simpl; apply list.NoDup_cons.
    + done.
    + split; [|by apply IH]. rewrite dict_set_keys. intros [?|?]; [congruence|done].
Qed.

Lemma dict_set_Forall (P : K * V → Prop) k v d :
  Forall P d → P (k, v) → Forall P (Dict.set k v d).
Proof.
  intros Hd Hkv. induction d as [|[k0 v0] d IH]; simpl.
  - by constructor.
  - inversion_clear Hd as [|? ? H0 Hd']. destruct (decide (k = k0)); constructor; auto.
Qed.

Lemma dict_get_Forall (P : K * V → Prop) k v d :
  Forall P d → Dict.get k d = Some v → P (k, v).
Proof.
  induction d as [|[k0 v0] d IH]; simpl; [done|]. intros Hd.
  inversion_clear Hd as [|? ? H0 Hd']. destruct (decide (k = k0)) as [->|Hne].
  - by intros [= <-].
  - by apply IH.
Qed.

End DictMore.

Section MergeFacts.
Import Merge.

(** Merging a record whose paths are all different: its entries win, the
    other paths keep theirs. *)
Lemma get_merge_into (acc d : Dict.t str str) (p : str) :
  NoDup d.*1 →
  Dict.get p (merge_into acc d)
  = match Dict.get p d with Some e => Some e | None => Dict.get p acc end.
Proof.
  unfold merge_into, Dict.items. revert acc.
  induction d as [|[k e] d IH]; intros acc Hd; simpl; [done|].
  apply list.NoDup_cons in Hd as [Hk Hd]. rewrite IH by done.
  destruct (decide (p = k)) as [->|Hne].
  - by rewrite (dict_get_notin k d Hk), dict_get_set_eq.
  - by rewrite dict_get_set_ne.
Qed.

Lemma merge_into_NoDup (acc d : Dict.t str str) :
  NoDup acc.*1 → NoDup (merge_into acc d).*1.
Proof.
  unfold merge_into, Dict.items. revert acc.
  induction d as [|[k e] d IH]; intros acc Hacc; simpl; [done|].
  apply IH. by apply dict_set_NoDup.
Qed.

Lemma total_set (k : str) (v : Z) (table : Dict.t str Z) :
  total (Dict.set k v table) = total table - default 0 (Dict.get k table) + v.
Proof.
  induction table as [|[k0 v0] table IH]; simpl; [lia|].
  destruct (decide (k = k0)); simpl; [lia|]. rewrite IH. lia.
Qed.

End MergeFacts.

Section CallMore.
Import RawCheck Merge.
Variable unicode_lower : str → str.
Variable args : Args.
Variable env : Env.

(** [st'] is [st] after the threads holding the records [ds] have been
    joined and merged. *)
Definition joined (ds : list (Dict.t str str)) (st st' : St) : Prop :=
  failed st' = foldl merge_into (failed st) ds
  ∧ extensions st' = extensions st ∧ calls st' = calls st ∧ started st' = started st
  ∧ result st' = result st ∧ out st' = out st
  ∧ ticks st' = (ticks st + length ds)%nat.

Lemma join_all_calm (ds : list (Dict.t str str)) (st : St) :
  calm env st (length ds) →
  ∃ st', join_all env (Some <$> ds) st = (None, st') ∧ joined ds st st'.
Proof.
  revert st. induction ds as [|d ds IH]; intros st Hcalm; simpl.
  - exists st. unfold joined. repeat split; auto with lia.
  - rewrite (seq_ok _ _ st (set_ticks (S (ticks st)) st)).
    2:{ apply tick_pass. apply Hcalm. simpl. lia. }
    erewrite seq_ok; [|reflexivity].
    destruct (IH (set_failed (merge_into (failed st) d) (set_ticks (S (ticks st)) st)))
      as (st' & Hrun & Hj).
    { intros j Hj. apply Hcalm. simpl in *. lia. }
    exists st'. split; [exact Hrun|].
    destruct Hj as (? & ? & ? & ? & ? & ? & Ht). unfold joined. simpl in *.
    repeat split; try done. lia.
Qed.

Lemma failure_lines_spec (d : Dict.t str str) :
  failure_lines d
  = if bool_decide (d = []) then []
    else [FailedHeader] ++ ((fun pe => FailedLine pe.1 pe.2) <$> Dict.items d) ++ [Blank].
Proof. by destruct d. Qed.

(** The lines [report] sets out to print. *)
Definition report_lines (st : St) : list Line :=
  (if show_extensions args then extension_lines (extensions st) else [])
  ++ failure_lines (failed st).

Lemma printed_app (ls ls' : list Line) :
  printed env (ls ++ ls')
  = if forallb (printable env) ls then ls ++ printed env ls' else printed env ls.
Proof.
  induction ls as [|l ls IH]; simpl; [done|].
  destruct (printable env l); simpl; [|done]. rewrite IH. by destruct (forallb _ ls).
Qed.

Lemma print_app (ls ls' : list Line) (st : St) :
  print ls' (print ls st) = print (ls ++ ls') st.
Proof. unfold print. simpl. by rewrite <- app_assoc. Qed.

(** [report] prints its lines up to the first one standard output
    refuses; it ends normally when there is none, and sets [result] when
    moreover nothing failed. *)
Lemma report_spec (st : St) :
  out st = [] → result st = false →
  ∃ st', report args env st
         = (if forallb (printable env) (report_lines st) then None
            else Some UnicodeEncodeError, st')
         ∧ extensions st' = extensions st ∧ calls st' = calls st
         ∧ started st' = started st ∧ failed st' = failed st
         ∧ result st' = bool_decide (failed st = [])
                        && forallb (printable env) (report_lines st)
         ∧ out st' = printed env (report_lines st).
Proof.
  intros Hout Hres. unfold report, seq, report_lines.
  assert (∀ ls, out (print ls st) = ls) as Hprint.
  { intros ls. simpl. by rewrite Hout. }
  change (flat_map _ (Dict.items (extensions st))) with (extension_lines (extensions st)).
  assert ((if show_extensions args then print_lines env (extension_lines (extensions st))
           else ret) st
          = (if forallb (printable env)
                  (if show_extensions args then extension_lines (extensions st) else [])
             then None else Some UnicodeEncodeError,
             print (printed env
                      (if show_extensions args then extension_lines (extensions st) else []))
               st)) as ->.
  { destruct (show_extensions args); [apply print_lines_spec|]. simpl. by rewrite print_nil. }
  rewrite forallb_app, printed_app.
  destruct (forallb (printable env)
              (if show_extensions args then extension_lines (extensions st) else []))
    eqn:Hext; cbv beta iota.
  - rewrite failure_lines_spec. case_bool_decide as Hf; cbv beta iota.
    + eexists. split; [reflexivity|]. simpl. rewrite (printed_all _ _ Hext), Hout, app_nil_r.
      by repeat split.
    + rewrite print_lines_spec, print_app. eexists. split; [reflexivity|]. simpl.
      rewrite (printed_all _ _ Hext), Hout, Hres. simpl.
      by repeat split.
  - eexists. split; [reflexivity|]. simpl. rewrite Hout, Hres, andb_false_r.
    by repeat split.
Qed.

(** The whole [try] block when nothing goes wrong. *)
Lemma body_completes (ds : list (Dict.t str str)) :
  Worker.isdir (os env 0) (dir args) = true →
  (∀ i, (i < Z.to_nat (workers args))%nat → executable_at args env i) →
  sigint env = None →
  enumerate env = Some <$> ds →
  ∃ st,
    body unicode_lower args env initial
    = (if forallb (printable env) (report_lines st) then None
       else Some UnicodeEncodeError, st)
    ∧ calls st
      = pushes_of unicode_lower (files_of (walk env (dir args))) ++ [Queue.Completed]
    ∧ (∀ ext, count_of ext (extensions st)
              = occurrences unicode_lower ext (files_of (walk env (dir args))))
    ∧ length (started st) = Z.to_nat (workers args)
    ∧ failed st = foldl merge_into Dict.empty ds
    ∧ result st = bool_decide (failed st = [])
                  && forallb (printable env) (report_lines st)
    ∧ out st = printed env (report_lines st).
Proof.
  intros Hdir Hexe Hsig Henum.
  assert (Hcalm : ∀ st n, calm env st n) by (intros ? ? j _; by rewrite Hsig).
  destruct (body_after_start unicode_lower args env Hdir Hexe)
    as (st1 & (He1 & Hc1 & Hf1 & Hr1 & Ho1 & Ht1) & Hlen & ->).
  destruct (scan_calm unicode_lower env (walk env (dir args)) st1 (Hcalm _ _))
    as (st2 & Hrun & Hc2 & He2 & Hs2 & Hf2 & Hr2 & Ho2 & Ht2).
  rewrite (seq_ok _ _ _ _ Hrun).
  erewrite seq_ok; [|reflexivity]. erewrite seq_ok; [|reflexivity].
  rewrite Henum.
  destruct (join_all_calm ds (set_failed Dict.empty (add_call Queue.Completed st2))
              (Hcalm _ _))
    as (st3 & Hjoin & Hf3 & He3 & Hc3 & Hs3 & Hr3 & Ho3 & Ht3).
  rewrite (seq_ok _ _ _ _ Hjoin). simpl in *.
  destruct (report_spec st3) as (st4 & Hrep & He4 & Hc4 & Hs4 & Hf4 & Hr4 & Ho4);
    [congruence|congruence|].
  assert (report_lines st4 = report_lines st3) as Hlines.
  { unfold report_lines. by rewrite He4, Hf4. }
  exists st4. rewrite Hlines. split; [exact Hrep|].
  rewrite Hc4, Hc3, Hc2, Hc1, Hs4, Hs3, Hs2, Hf4, Hf3, Hr4, Ho4. simpl.
  repeat split; try done.
  - intros ext. rewrite He4, He3, He2, He1. simpl. unfold count_of. simpl. lia.
  - by rewrite Hf3.
Qed.

End CallMore.

Section CallEdges.
Import RawCheck Merge.
Variable unicode_lower : str → str.
Variable args : Args.
Variable env : Env.

(** An interrupt at point [k] of the traversal: the files before that
    point have been visited, the others not. *)
Lemma visit_files_interrupted_at (base : str) (files : list str) (st : St) (k : nat) :
  sigint env = Some k → (ticks st ≤ k < ticks st + length files)%nat →
  ∃ st', visit_files unicode_lower env base files st = (Some KeyboardInterrupt, st')
         ∧ walked unicode_lower ((fun f => (base, f)) <$> take (k - ticks st) files) st st'.
Proof.
  intros Hsig. revert st. induction files as [|f files IH]; intros st Hk; simpl in *; [lia|].
  destruct (decide (ticks st = k)) as [Heq|Hne].
  - exists st. split.
    + apply seq_raised. unfold visit. apply seq_raised. apply tick_hit. by rewrite Heq.
    + replace (k - ticks st)%nat with 0%nat by lia. apply walked_nil.
  - destruct (visit_calm unicode_lower env base f st) as (st1 & Hv & Hw).
    { intros j Hj. rewrite Hsig. intros [= ->]. lia. }
    pose proof Hw as (_ & _ & _ & _ & _ & _ & Ht). simpl in Ht.
    destruct (IH st1) as (st' & Hrun & Hw'); [lia|].
    exists st'. split; [by rewrite (seq_ok _ _ _ _ Hv)|].
    replace (k - ticks st)%nat with (S (k - ticks st1)) by lia. simpl.
    by apply (walked_app unicode_lower [(base, f)] _ st st1 st').
Qed.

Lemma scan_interrupted_at (tree : list (str * list str * list str)) (st : St) (k : nat) :
  sigint env = Some k → (ticks st ≤ k < ticks st + length (files_of tree))%nat →
  ∃ st', scan unicode_lower env tree st = (Some KeyboardInterrupt, st')
         ∧ walked unicode_lower (take (k - ticks st) (files_of tree)) st st'.
Proof.
  intros Hsig. revert st.
  induction tree as [|[[base dirs] files] tree IH]; intros st Hk; simpl in *; [lia|].
  unfold files_of in *; simpl in *. fold (files_of tree) in *.
  rewrite length_app, length_fmap in Hk.
  destruct (decide (k < ticks st + length files)%nat) as [Hin|Hout].
  - destruct (visit_files_interrupted_at base files st k) as (st' & Hrun & Hw); [done|lia|].
    exists st'. split; [by apply seq_raised|].
    rewrite take_app_le by (rewrite length_fmap; lia). by rewrite <- fmap_take.
  - destruct (visit_files_calm unicode_lower env base files st) as (st1 & Hv & Hw).
    { intros j Hj. rewrite Hsig. intros [= ->]. lia. }
    pose proof Hw as (_ & _ & _ & _ & _ & _ & Ht). rewrite length_fmap in Ht.
    destruct (IH st1) as (st' & Hrun & Hw'); [lia|].
    exists st'. split; [by rewrite (seq_ok _ _ _ _ Hv)|].
    rewrite take_app_ge by (rewrite length_fmap; lia). rewrite length_fmap.
    replace (k - ticks st - length files)%nat with (k - ticks st1)%nat by lia.
    by apply (walked_app unicode_lower _ _ st st1 st').
Qed.

(** The table of extensions: every extension listed once, every count at
    least 1, and the counts adding up to the interruption points passed,
    that is, to the files visited. *)
Definition table_ok (st : St) : Prop :=
  NoDup (extensions st).*1
  ∧ Forall (fun ec => 1 ≤ ec.2) (extensions st)
  ∧ total (extensions st) = Z.of_nat (ticks st).

Lemma record_table (base f : str) (st : St) :
  NoDup (extensions st).*1 → Forall (fun ec => 1 ≤ ec.2) (extensions st) →
  NoDup (extensions (record unicode_lower base f st)).*1
  ∧ Forall (fun ec => 1 ≤ ec.2) (extensions (record unicode_lower base f st))
  ∧ total (extensions (record unicode_lower base f st)) = total (extensions st) + 1
  ∧ ticks (record unicode_lower base f st) = ticks st.
Proof.
  intros Hnd Hpos. unfold record.
  destruct (Dict.get (extension unicode_lower f) (extensions st)) as [count|] eqn:Hget;
    destruct (is_raw (extension unicode_lower f)); simpl;
    rewrite total_set, Hget; simpl;
    (split; [by apply dict_set_NoDup|]); (split; [|split; [lia|done]]);
    apply dict_set_Forall; try done; simpl; try lia;
    pose proof (dict_get_Forall _ _ _ _ Hpos Hget); simpl in *; lia.
Qed.

Lemma keeps_table_visit (base f : str) : keeps table_ok (visit unicode_lower env base f).
Proof.
  intros st r st' (Hnd & Hpos & Htot). unfold visit, seq, tick, modify.
  case_bool_decide; intros [= <- <-]; [done|].
  destruct (record_table base f (set_ticks (S (ticks st)) st) Hnd Hpos)
    as (Hnd' & Hpos' & Htot' & Ht').
  split; [done|]. split; [done|]. rewrite Htot', Ht'. simpl in *. lia.
Qed.

Lemma keeps_table_scan (tree : list (str * list str * list str)) :
  keeps table_ok (scan unicode_lower env tree).
Proof.
  induction tree as [|[[base dirs] files] tree IH]; simpl; [apply keeps_ret|].
  apply keeps_seq; [|exact IH].
  induction files as [|f files IHf]; simpl; [apply keeps_ret|].
  apply keeps_seq; [apply keeps_table_visit|exact IHf].
Qed.

End CallEdges.

(** X5: a run in which the directory and the decoder are in order, no
    interrupt arrives and every joined thread has a record starts as
    many workers as asked for, pushes the paths of the RAW files in the
    order met and then calls [completed] exactly once, as its last call
    on the queue, and merges the joined records in the order of the
    threads.  It then sets out to print the extension block (only when
    asked to) followed by the "Failed:" block, which lists every merged
    entry in the order of the record and is absent when the record is
    empty.  When standard output takes all these lines they are what is
    printed, the call hands back [None], and the local [result] is true
    exactly when the merged record is empty.  Otherwise the lines before
    the first one refused are printed, UnicodeEncodeError leaves the call
    and [result] stays false.  Either way every worker has been joined,
    and the process ends with status 1. *)
Theorem normal_run_pushes_completes_and_reports (unicode_lower : str → str)
    (args : RawCheck.Args) (env : RawCheck.Env) (ds : list (Dict.t str str)) :
  Worker.isdir (RawCheck.os env 0) (RawCheck.dir args) = true →
  (∀ i, (i < Z.to_nat (RawCheck.workers args))%nat → executable_at args env i) →
  RawCheck.sigint env = None →
  RawCheck.enumerate env = Some <$> ds →
  ∃ st,
    let lines :=
      (if RawCheck.show_extensions args
       then flat_map (fun ec => [RawCheck.ExtensionsHeader;
                                 RawCheck.ExtensionLine ec.1 ec.2; RawCheck.Blank])
              (RawCheck.extensions st)
       else [])
      ++ (if bool_decide (RawCheck.failed st = []) then []
          else [RawCheck.FailedHeader]
               ++ ((fun pe => RawCheck.FailedLine pe.1 pe.2) <$> RawCheck.failed st)
               ++ [RawCheck.Blank]) in
    RawCheck.__call__ unicode_lower args env
    = (if forallb (RawCheck.printable env) lines
       then inr RawCheck.PyNone else inl UnicodeEncodeError, st)
    ∧ RawCheck.calls st
      = RawCheck.pushes_of unicode_lower
          (RawCheck.files_of (RawCheck.walk env (RawCheck.dir args)))
        ++ [Queue.Completed]
    ∧ length (RawCheck.started st) = Z.to_nat (RawCheck.workers args)
    ∧ RawCheck.failed st = foldl Merge.merge_into Dict.empty ds
    ∧ (RawCheck.result st = true
       ↔ RawCheck.failed st = [] ∧ forallb (RawCheck.printable env) lines = true)
    ∧ RawCheck.out st = RawCheck.printed env lines
    ∧ (forallb (RawCheck.printable env) lines = true → RawCheck.out st = lines)
    ∧ RawCheck.main unicode_lower args env
      = {| RawCheck.status := 1; RawCheck.awaits := [] |}.
Proof.
  intros Hdir Hexe Hsig Henum.
  destruct (body_completes unicode_lower args env ds Hdir Hexe Hsig Henum)
    as (st & Hbody & Hcalls & _ & Hlen & Hfailed & Hres & Hout).
  exists st. intros lines.
  assert (report_lines args st = lines) as Hlines.
  { unfold report_lines, lines. by rewrite failure_lines_spec. }
  rewrite Hlines in Hbody, Hres, Hout.
  split; [|split; [done|split; [done|split; [done|split; [|split; [done|split]]]]]].
  - unfold RawCheck.__call__. rewrite Hbody. by destruct (forallb _ lines).
  - rewrite Hres, andb_true_iff, bool_decide_eq_true. done.
  - intros Hall. by rewrite Hout, printed_all.
  - unfold RawCheck.main, RawCheck.__call__, RawCheck.unjoined. rewrite Hbody.
    by destruct (forallb _ lines).
Qed.

Lemma normal_run_pushes_completes_and_reports_witness :
  (∃ st,
     RawCheck.__call__ (fun s => s) (Scenario.args_of 2)
       (Scenario.env_of [py "a.jpg"; py "b.cr3"] [Some [(py "d/b.cr3", py "oops")]] None)
     = (inr RawCheck.PyNone, st)
     ∧ RawCheck.calls st = [Queue.Push (py "d/b.cr3"); Queue.Completed]
     ∧ RawCheck.out st
       = [RawCheck.FailedHeader; RawCheck.FailedLine (py "d/b.cr3") (py "oops");
          RawCheck.Blank])
  ∧ (∃ st,
       RawCheck.__call__ (fun s => s) (Scenario.args_of 1)
         (Scenario.env_of [[56500; 46; 99; 114; 50]%N]
            [Some [([100; 47; 56500; 46; 99; 114; 50]%N, py "oops")]] None)
       = (inl UnicodeEncodeError, st)
       ∧ RawCheck.out st = [RawCheck.FailedHeader]
       ∧ RawCheck.result st = false).
Proof.
  split.
  - destruct (normal_run_pushes_completes_and_reports (fun s => s) (Scenario.args_of 2)
      (Scenario.env_of [py "a.jpg"; py "b.cr3"] [Some [(py "d/b.cr3", py "oops")]] None)
      [[(py "d/b.cr3", py "oops")]])
      as (st & Hcall & Hcalls & _ & Hfailed & _ & Hout & _).
    + reflexivity.
    + intros i _. by split.
    + reflexivity.
    + reflexivity.
    + rewrite Hfailed in Hcall, Hout. exists st.
      split; [exact Hcall|]. split; [exact Hcalls|exact Hout].
  - destruct (normal_run_pushes_completes_and_reports (fun s => s) (Scenario.args_of 1)
      (Scenario.env_of [[56500; 46; 99; 114; 50]%N]
         [Some [([100; 47; 56500; 46; 99; 114; 50]%N, py "oops")]] None)
      [[([100; 47; 56500; 46; 99; 114; 50]%N, py "oops")]])
      as (st & Hcall & _ & _ & Hfailed & Hres & Hout & _).
    + reflexivity.
    + intros i _. by split.
    + reflexivity.
    + reflexivity.
    + rewrite Hfailed in Hcall, Hout, Hres. exists st.
      split; [exact Hcall|]. split; [exact Hout|].
      destruct (RawCheck.result st); [|done].
      by destruct (proj1 Hres eq_refl).
Defined.

(** A file name that is not UTF-8 reaches the script with a lone
    surrogate in it; when the decoder fails on such a file, the report
    stops at its line: "Failed:" is printed, the line of the file is not,
    and UnicodeEncodeError leaves the call. *)
Example report_stops_at_a_surrogate :
  RawCheck.__call__ (fun s => s) (Scenario.args_of 1)
    (Scenario.env_of [[56500; 46; 99; 114; 50]%N]
       [Some [([100; 47; 56500; 46; 99; 114; 50]%N, py "oops")]] None)
  = (inl UnicodeEncodeError,
     {| RawCheck.extensions := [(py "cr2", 1)];
        RawCheck.calls := [Queue.Push [100; 47; 56500; 46; 99; 114; 50]%N; Queue.Completed];
        RawCheck.started := [Worker.mk 1 None RawCheck._dcraw_path];
        RawCheck.failed := [([100; 47; 56500; 46; 99; 114; 50]%N, py "oops")];
        RawCheck.result := false; RawCheck.out := [RawCheck.FailedHeader];
        RawCheck.ticks := 2 |}).
Proof. vm_compute. reflexivity. Qed.

(** X6: a [--dir] that is not a directory is found before any worker is
    constructed: whatever the worker count and whether or not the decoder
    is there, the call starts no worker, looks at no file and makes no
    call on the queue; it prints the one message about the directory
    and hands back [None], or, when standard output does not take the
    directory's name, prints nothing and ends with UnicodeEncodeError.
    Either way no thread is left, and the process ends with status 1. *)
Theorem missing_directory_is_reported_first (unicode_lower : str → str)
    (args : RawCheck.Args) (env : RawCheck.Env) :
  Worker.isdir (RawCheck.os env 0) (RawCheck.dir args) = false →
  RawCheck.__call__ unicode_lower args env
  = (if forallb (RawCheck.stdout_takes env) (RawCheck.dir args)
     then inr RawCheck.PyNone else inl UnicodeEncodeError,
     {| RawCheck.extensions := Dict.empty; RawCheck.calls := []; RawCheck.started := [];
        RawCheck.failed := Dict.empty; RawCheck.result := false;
        RawCheck.out := if forallb (RawCheck.stdout_takes env) (RawCheck.dir args)
                        then [RawCheck.ErrorLine (NotADirectory (RawCheck.dir args));
                              RawCheck.Blank]
                        else [];
        RawCheck.ticks := 0 |})
  ∧ RawCheck.main unicode_lower args env
    = {| RawCheck.status := 1; RawCheck.awaits := [] |}.
Proof.
  intros Hdir.
  assert (RawCheck.body unicode_lower args env RawCheck.initial
          = (Some (AppError (NotADirectory (RawCheck.dir args))), RawCheck.initial)) as Hbody.
  { unfold RawCheck.body. apply seq_raised. unfold RawCheck.check_dir. by rewrite Hdir. }
  unfold RawCheck.main, RawCheck.__call__, RawCheck.unjoined, RawCheck.printable.
  rewrite Hbody. simpl. rewrite andb_true_r.
  by destruct (forallb (RawCheck.stdout_takes env) (RawCheck.dir args)).
Qed.

Lemma missing_directory_is_reported_first_witness :
  RawCheck.__call__ (fun s => s) (Scenario.args_of 3)
    {| RawCheck.os := fun _ => {| Worker.isdir := fun _ => false;
                                  Worker.isfile := fun _ => false;
                                  Worker.access_X_OK := fun _ => false |};
       RawCheck.walk := fun _ => []; RawCheck.enumerate := []; RawCheck.sigint := None;
       RawCheck.stdout_takes := Scenario.utf8_strict |}
  = (inr RawCheck.PyNone,
     RawCheck.print [RawCheck.ErrorLine (NotADirectory (py "d")); RawCheck.Blank]
       RawCheck.initial)
  ∧ RawCheck.__call__ (fun s => s)
      {| RawCheck.dir := [100; 56500]%N; RawCheck.debug := false; RawCheck.workers := 3;
         RawCheck.show_extensions := false; RawCheck.dcraw_binary := RawCheck._dcraw_path |}
      {| RawCheck.os := fun _ => {| Worker.isdir := fun _ => false;
                                    Worker.isfile := fun _ => false;
                                    Worker.access_X_OK := fun _ => false |};
         RawCheck.walk := fun _ => []; RawCheck.enumerate := []; RawCheck.sigint := None;
         RawCheck.stdout_takes := Scenario.utf8_strict |}
    = (inl UnicodeEncodeError, RawCheck.initial).
Proof.
  split.
  - exact (proj1 (missing_directory_is_reported_first (fun s => s) (Scenario.args_of 3)
      {| RawCheck.os := fun _ => {| Worker.isdir := fun _ => false;
                                    Worker.isfile := fun _ => false;
                                    Worker.access_X_OK := fun _ => false |};
         RawCheck.walk := fun _ => []; RawCheck.enumerate := []; RawCheck.sigint := None;
         RawCheck.stdout_takes := Scenario.utf8_strict |}
      eq_refl)).
  - exact (proj1 (missing_directory_is_reported_first (fun s => s)
      {| RawCheck.dir := [100; 56500]%N; RawCheck.debug := false; RawCheck.workers := 3;
         RawCheck.show_extensions := false; RawCheck.dcraw_binary := RawCheck._dcraw_path |}
      {| RawCheck.os := fun _ => {| Worker.isdir := fun _ => false;
                                    Worker.isfile := fun _ => false;
                                    Worker.access_X_OK := fun _ => false |};
         RawCheck.walk := fun _ => []; RawCheck.enumerate := []; RawCheck.sigint := None;
         RawCheck.stdout_takes := Scenario.utf8_strict |}
      eq_refl)).
Defined.

(** X7: with a worker count of zero or less the start loop does not run:
    no worker is constructed, so the decoder is never looked for and a
    missing decoder goes unnoticed; the traversal still counts and pushes,
    [completed] is called, and with no thread to join the merged record is
    empty.  Unless the extension block is asked for and standard output
    refuses one of its lines (UnicodeEncodeError then leaves the call),
    [result] is set to true although no file was validated. *)
Theorem no_workers_no_decoder_check (unicode_lower : str → str)
    (args : RawCheck.Args) (env : RawCheck.Env) :
  RawCheck.workers args ≤ 0 →
  Worker.isdir (RawCheck.os env 0) (RawCheck.dir args) = true →
  RawCheck.sigint env = None →
  RawCheck.enumerate env = [] →
  ∃ st,
    let lines :=
      if RawCheck.show_extensions args
      then flat_map (fun ec => [RawCheck.ExtensionsHeader;
                                RawCheck.ExtensionLine ec.1 ec.2; RawCheck.Blank])
             (RawCheck.extensions st)
      else [] in
    RawCheck.__call__ unicode_lower args env
    = (if forallb (RawCheck.printable env) lines
       then inr RawCheck.PyNone else inl UnicodeEncodeError, st)
    ∧ RawCheck.started st = []
    ∧ RawCheck.calls st
      = RawCheck.pushes_of unicode_lower
          (RawCheck.files_of (RawCheck.walk env (RawCheck.dir args)))
        ++ [Queue.Completed]
    ∧ RawCheck.failed st = Dict.empty
    ∧ RawCheck.result st = forallb (RawCheck.printable env) lines
    ∧ (RawCheck.show_extensions args = false → RawCheck.result st = true).
Proof.
  intros Hw Hdir Hsig Henum.
  destruct (body_completes unicode_lower args env [] Hdir) as
    (st & Hbody & Hcalls & _ & Hlen & Hfailed & Hres & _); [|done|done|].
  { intros i Hi. replace (Z.to_nat (RawCheck.workers args)) with 0%nat in Hi by lia. lia. }
  exists st. intros lines.
  assert (report_lines args st = lines) as Hlines.
  { unfold report_lines, lines. rewrite Hfailed. simpl. by rewrite app_nil_r. }
  rewrite Hlines in Hbody, Hres. rewrite Hfailed in Hres. simpl in Hres.
  replace (Z.to_nat (RawCheck.workers args)) with 0%nat in Hlen by lia.
  split; [|split; [|split; [done|split; [done|split; [done|]]]]].
  - unfold RawCheck.__call__. rewrite Hbody. by destruct (forallb _ lines).
  - by destruct (RawCheck.started st).
  - intros Hshow. rewrite Hres. unfold lines. by rewrite Hshow.
Qed.

Lemma no_workers_no_decoder_check_witness :
  (∃ st,
     RawCheck.__call__ (fun s => s) (Scenario.args_of 0)
       {| RawCheck.os := fun _ => Scenario.os_no_decoder;
          RawCheck.walk := fun _ => [(py "d", [], [py "b.cr3"])];
          RawCheck.enumerate := []; RawCheck.sigint := None;
          RawCheck.stdout_takes := Scenario.utf8_strict |}
     = (inr RawCheck.PyNone, st)
     ∧ RawCheck.calls st = [Queue.Push (py "d/b.cr3"); Queue.Completed]
     ∧ RawCheck.result st = true)
  ∧ (∃ st,
       RawCheck.__call__ (fun s => s)
         {| RawCheck.dir := py "d"; RawCheck.debug := false; RawCheck.workers := 0;
            RawCheck.show_extensions := true; RawCheck.dcraw_binary := RawCheck._dcraw_path |}
         {| RawCheck.os := fun _ => Scenario.os_no_decoder;
            RawCheck.walk := fun _ => [(py "d", [], [[97; 46; 56500]%N])];
            RawCheck.enumerate := []; RawCheck.sigint := None;
            RawCheck.stdout_takes := Scenario.utf8_strict |}
       = (inl UnicodeEncodeError, st)
       ∧ RawCheck.result st = false).
Proof.
  split.
  - destruct (no_workers_no_decoder_check (fun s => s) (Scenario.args_of 0)
      {| RawCheck.os := fun _ => Scenario.os_no_decoder;
         RawCheck.walk := fun _ => [(py "d", [], [py "b.cr3"])];
         RawCheck.enumerate := []; RawCheck.sigint := None;
         RawCheck.stdout_takes := Scenario.utf8_strict |})
      as (st & Hcall & _ & Hcalls & _ & _ & Hres).
    + simpl. lia.
    + reflexivity.
    + reflexivity.
    + reflexivity.
    + exists st. split; [exact Hcall|]. split; [exact Hcalls|exact (Hres eq_refl)].
  - destruct (no_workers_no_decoder_check (fun s => s)
      {| RawCheck.dir := py "d"; RawCheck.debug := false; RawCheck.workers := 0;
         RawCheck.show_extensions := true; RawCheck.dcraw_binary := RawCheck._dcraw_path |}
      {| RawCheck.os := fun _ => Scenario.os_no_decoder;
         RawCheck.walk := fun _ => [(py "d", [], [[97; 46; 56500]%N])];
         RawCheck.enumerate := []; RawCheck.sigint := None;
         RawCheck.stdout_takes := Scenario.utf8_strict |})
      as (st & Hcall & _ & _ & _ & Hres & _).
    + simpl. lia.
    + reflexivity.
    + reflexivity.
    + reflexivity.
    + pose proof (f_equal snd Hcall) as Hst. cbn [snd] in Hst. subst st.
      eexists. split; [exact Hcall|exact Hres].
Defined.

(** X8: merging the record of a joined thread is a union in which the
    thread's entry for a path replaces the one merged before (the last
    writer wins) and every other path keeps its entry; the merge never
    raises on a record, and the merged record still lists every path
    once.  (A record lists each of its paths once, as every dictionary
    does.) *)
Theorem merge_last_writer_wins (d : Dict.t str str) (st : RawCheck.St) :
  NoDup d.*1 →
  ∃ st',
    RawCheck.merge (Some d) st = (None, st')
    ∧ (∀ p, Dict.get p (RawCheck.failed st')
            = match Dict.get p d with
              | Some e => Some e
              | None => Dict.get p (RawCheck.failed st)
              end)
    ∧ (NoDup (RawCheck.failed st).*1 → NoDup (RawCheck.failed st').*1)
    ∧ RawCheck.extensions st' = RawCheck.extensions st
    ∧ RawCheck.calls st' = RawCheck.calls st
    ∧ RawCheck.out st' = RawCheck.out st.
Proof.
  intros Hd. eexists. split; [reflexivity|]. simpl. repeat split.
  - intros p. by apply get_merge_into.
  - intros Hacc. by apply merge_into_NoDup.
Qed.

Lemma merge_last_writer_wins_witness :
  ∃ st',
    RawCheck.merge (Some [(py "d/b.cr3", py "second")])
      (RawCheck.set_failed [(py "d/a.dng", py "bad"); (py "d/b.cr3", py "first")]
         RawCheck.initial) = (None, st')
    ∧ Dict.get (py "d/b.cr3") (RawCheck.failed st') = Some (py "second")
    ∧ Dict.get (py "d/a.dng") (RawCheck.failed st') = Some (py "bad").
Proof.
  destruct (merge_last_writer_wins [(py "d/b.cr3", py "second")]
    (RawCheck.set_failed [(py "d/a.dng", py "bad"); (py "d/b.cr3", py "first")]
       RawCheck.initial)) as (st' & Hrun & Hget & _).
  - apply list.NoDup_cons. split; [apply not_elem_of_nil|apply NoDup_nil_2].
  - exists st'. split; [exact Hrun|]. split.
    + rewrite (Hget (py "d/b.cr3")). reflexivity.
    + rewrite (Hget (py "d/a.dng")). reflexivity.
Defined.

(** X9: an interrupt that arrives during the traversal, before file
    number [k] (counting from 0), finds exactly the first [k] files
    visited: the table counts these and no others, the RAW files among
    them have been pushed, and the calls on the queue end with [clear]
    and [completed]; no thread has been joined, so the merged record is
    empty, and nothing is printed. *)
Theorem interrupt_during_traversal_keeps_a_prefix (unicode_lower : str → str)
    (args : RawCheck.Args) (env : RawCheck.Env) (k : nat) :
  Worker.isdir (RawCheck.os env 0) (RawCheck.dir args) = true →
  (∀ i, (i < Z.to_nat (RawCheck.workers args))%nat → executable_at args env i) →
  RawCheck.sigint env = Some k →
  (k < length (RawCheck.files_of (RawCheck.walk env (RawCheck.dir args))))%nat →
  ∃ st,
    RawCheck.__call__ unicode_lower args env = (inr RawCheck.PyNone, st)
    ∧ RawCheck.calls st
      = RawCheck.pushes_of unicode_lower
          (take k (RawCheck.files_of (RawCheck.walk env (RawCheck.dir args))))
        ++ [Queue.Clear; Queue.Completed]
    ∧ (∀ ext, RawCheck.count_of ext (RawCheck.extensions st)
              = RawCheck.occurrences unicode_lower ext
                  (take k (RawCheck.files_of (RawCheck.walk env (RawCheck.dir args)))))
    ∧ RawCheck.failed st = Dict.empty
    ∧ RawCheck.result st = false
    ∧ RawCheck.out st = [].
Proof.
  intros Hdir Hexe Hsig Hk.
  destruct (body_after_start unicode_lower args env Hdir Hexe)
    as (st1 & (He1 & Hc1 & Hf1 & Hr1 & Ho1 & Ht1) & _ & Hbody).
  simpl in *.
  destruct (scan_interrupted_at unicode_lower env (RawCheck.walk env (RawCheck.dir args))
              st1 k Hsig)
    as (st2 & Hrun & Hc2 & He2 & _ & Hf2 & Hr2 & Ho2 & _); [lia|].
  rewrite Ht1, Nat.sub_0_r in Hc2, He2.
  exists (RawCheck.add_call Queue.Completed (RawCheck.add_call Queue.Clear st2)).
  split.
  - unfold RawCheck.__call__. rewrite Hbody. by rewrite (seq_raised _ _ _ _ _ Hrun).
  - simpl. rewrite Hc2, Hc1, <- app_assoc. simpl. repeat split; try congruence.
    intros ext. rewrite He2, He1. unfold RawCheck.count_of. simpl. lia.
Qed.

Lemma interrupt_during_traversal_keeps_a_prefix_witness :
  ∃ st,
    RawCheck.__call__ (fun s => s) (Scenario.args_of 1)
      (Scenario.env_of [py "a.cr2"; py "b.jpg"; py "c.dng"] [] (Some 2%nat))
    = (inr RawCheck.PyNone, st)
    ∧ RawCheck.calls st = [Queue.Push (py "d/a.cr2"); Queue.Clear; Queue.Completed].
Proof.
  destruct (interrupt_during_traversal_keeps_a_prefix (fun s => s) (Scenario.args_of 1)
    (Scenario.env_of [py "a.cr2"; py "b.jpg"; py "c.dng"] [] (Some 2%nat)) 2)
    as (st & Hcall & Hcalls & _).
  - reflexivity.
  - intros i _. by split.
  - reflexivity.
  - simpl. lia.
  - exists st. split; [exact Hcall|exact Hcalls].
Defined.

(** X10: however the traversal ends (to its end or cut by an interrupt),
    the table of extensions it has built from the empty table lists every
    extension once, holds no count below 1, and its counts add up to the
    number of files visited; on a traversal that no interrupt cuts this is
    the number of files of the walk, the files without an extension
    included (they are counted under the empty extension). *)
Theorem extension_counts_add_up (unicode_lower : str → str) (env : RawCheck.Env)
    (tree : list (str * list str * list str)) (r : option (exn str)) (st : RawCheck.St) :
  RawCheck.scan unicode_lower env tree RawCheck.initial = (r, st) →
  NoDup (RawCheck.extensions st).*1
  ∧ Forall (fun ec => 1 ≤ ec.2) (RawCheck.extensions st)
  ∧ Merge.total (RawCheck.extensions st) = Z.of_nat (RawCheck.ticks st)
  ∧ (RawCheck.sigint env = None →
     r = None
     ∧ Merge.total (RawCheck.extensions st) = Z.of_nat (length (RawCheck.files_of tree))).
Proof.
  intros Hrun.
  assert (table_ok RawCheck.initial) as Hinit.
  { split; [apply NoDup_nil_2|]. split; [constructor|done]. }
  destruct (keeps_table_scan unicode_lower env tree _ _ _ Hinit Hrun) as (Hnd & Hpos & Htot).
  repeat split; try done.
  - destruct (scan_calm unicode_lower env tree RawCheck.initial) as (st' & Hrun' & _).
    { intros j _. by rewrite H. }
    congruence.
  - destruct (scan_calm unicode_lower env tree RawCheck.initial)
      as (st' & Hrun' & _ & _ & _ & _ & _ & _ & Ht).
    { intros j _. by rewrite H. }
    assert (st' = st) as -> by congruence. rewrite Htot, Ht. simpl. done.
Qed.

Lemma extension_counts_add_up_witness :
  Merge.total [(py "jpg", 2); ([], 1); (py "cr3", 1)] = 4.
Proof.
  destruct (extension_counts_add_up (fun s => s) (Scenario.env_of [] [] None)
    [(py "d", [], [py "a.jpg"; py "README"; py "b.cr3"; py "c.JPG"])] None
    {| RawCheck.extensions := [(py "jpg", 2); ([], 1); (py "cr3", 1)];
       RawCheck.calls := [Queue.Push (py "d/b.cr3")]; RawCheck.started := [];
       RawCheck.failed := Dict.empty; RawCheck.result := false; RawCheck.out := [];
       RawCheck.ticks := 4 |})
    as (_ & _ & Htot & _).
  - vm_compute. reflexivity.
  - exact Htot.
Defined.

(** ** The extension of a file name *)


(** X11: the extension the traversal computes for a file name (a name
    holds no "/").  A name without a dot has the empty extension.  A name
    [stem.e], where [e] holds no dot and [stem] holds a character other
    than a dot, has the extension [e] in lower case, so that for an ASCII
    [e] it is a RAW file exactly when [e], lower-cased, is in the RAW
    list, whatever the case of its letters.  A name made of dots followed
    by [e] (a hidden file such as ".bashrc") has the empty extension. *)
Theorem extension_of_file_name (unicode_lower : str → str) :
  (∀ f, PyStr.extsep ∉ f → RawCheck.extension unicode_lower f = [])
  ∧ (∀ stem e,
       PyStr.sep ∉ stem → PyStr.sep ∉ e → PyStr.extsep ∉ e →
       Exists (fun c => c ≠ PyStr.extsep) stem →
       RawCheck.extension unicode_lower (stem ++ PyStr.extsep :: e)
       = PyStr.lower unicode_lower e
       ∧ (PyStr.isascii e = true →
          RawCheck.is_raw (RawCheck.extension unicode_lower (stem ++ PyStr.extsep :: e))
          = RawCheck.is_raw (PyStr.ascii_lower <$> e)))
  ∧ (∀ k e,
       PyStr.sep ∉ e → PyStr.extsep ∉ e →
       RawCheck.extension unicode_lower (replicate k PyStr.extsep ++ PyStr.extsep :: e) = []).
Proof.
  split; [|split].
  - intros f Hdot. unfold RawCheck.extension. by rewrite splitext_no_dot.
  - intros stem e Hs1 Hs2 Hdot Hstem.
    assert (RawCheck.extension unicode_lower (stem ++ PyStr.extsep :: e)
            = PyStr.lower unicode_lower e) as Hext.
    { unfold RawCheck.extension. rewrite splitext_name by done.
      replace (existsb (fun c => negb (c =? PyStr.extsep)%N) stem) with true; [done|].
      symmetry. apply existsb_exists. apply list.Exists_exists in Hstem as (c & Hin & Hc).
      exists c. split; [by apply list_elem_of_In|].
      apply negb_true_iff, N.eqb_neq. done. }
    split; [exact Hext|]. intros Hascii. rewrite Hext. unfold PyStr.lower. by rewrite Hascii.
  - intros k e Hs Hdot. unfold RawCheck.extension. rewrite splitext_name; try done.
    + by rewrite existsb_replicate_dots.
    + intros Hin. apply elem_of_replicate in Hin as [Heq _]. done.
Qed.

Lemma extension_of_file_name_witness :
  RawCheck.is_raw (RawCheck.extension (fun s => s) (py "IMG_0001.Cr2")) = true
  ∧ RawCheck.extension (fun s => s) (py ".bashrc") = []
  ∧ RawCheck.extension (fun s => s) (py "README") = [].
Proof.
  assert (∀ (c : N) (s : str), forallb (fun d => negb (d =? c)%N) s = true → c ∉ s) as Hnot.
  { intros c s. induction s as [|d s IH]; simpl; [intros _; apply not_elem_of_nil|].
    intros [Hd Hs]%andb_true_iff. apply not_elem_of_cons. split; [|by apply IH].
    apply negb_true_iff, N.eqb_neq in Hd. congruence. }
  destruct (extension_of_file_name (fun s => s)) as (Hnone & Hname & Hdots).
  split; [|split].
  - destruct (Hname (py "IMG_0001") (py "Cr2")) as [_ Hraw];
      [by apply Hnot|by apply Hnot|by apply Hnot|by apply Exists_cons_hd|].
    exact (Hraw eq_refl).
  - refine (Hdots 0%nat (py "bashrc") _ _); by apply Hnot.
  - apply Hnone. by apply Hnot.
Defined.

(** ** Sequences of calls on the queue by one thread *)

Module Ops.
Section Ops.
Context {A : Type}.

(** One call on the queue: [push], [completed] or [clear], or a [pop]. *)
Inductive op := Call (c : Queue.call A) | Pop.

(** The calls of [ops] made in order by one thread: what the [pop]s
    returned and the queue left, or nothing when a [pop] blocks. *)
Fixpoint exec (ops : list op) (q : Queue.t A) : option (list (option A) * Queue.t A) :=
  match ops with
  | [] => Some ([], q)
  | Call c :: ops' => exec ops' (Queue.apply c q)
  | Pop :: ops' =>
      match Queue.pop q with
      | Queue.Blocks => None
      | Queue.Returns r q' =>
          match exec ops' q' with
          | Some (rs, q'') => Some (r :: rs, q'')
          | None => None
          end
      end
  end.

(** The entries pushed by a sequence of calls. *)
Fixpoint pushed (ops : list op) : list A :=
  match ops with
  | [] => []
  | Call (Queue.Push x) :: ops' => x :: pushed ops'
  | _ :: ops' => pushed ops'
  end.

(** The entries among the results of the [pop]s. *)
Definition entries (rs : list (option A)) : list A := omap id rs.

Definition is_clear (o : op) : Prop :=
  match o with Call Queue.Clear => True | _ => False end.

Definition is_pop (o : op) : bool :=
  match o with Pop => true | _ => false end.

End Ops.
Arguments op : clear implicits.
End Ops.

Section OpsFacts.
Context {A : Type}.
Import Ops.
Implicit Types (q : Queue.t A) (ops : list (op A)).

Lemma exec_sublist ops q rs q' :
  exec ops q = Some (rs, q') →
  entries rs ++ Queue._data q' `sublist_of` Queue._data q ++ pushed ops.
Proof.
  revert q rs q'. induction ops as [|[[x| |]|] ops IH]; intros q rs q'; simpl.
  - intros [= <- <-]. simpl. by rewrite app_nil_r.
  - intros Hrun. apply IH in Hrun. simpl in Hrun. by rewrite <- app_assoc in Hrun.
  - intros Hrun. by apply IH in Hrun.
  - intros Hrun. apply IH in Hrun. simpl in Hrun. by apply sublist_inserts_l.
  - unfold Queue.pop. destruct (Queue._data q) as [|x rest] eqn:Hdata.
    + destruct (Queue._completed q); simpl; [|done].
      destruct (exec ops q) as [[rs' q'']|] eqn:Hrun; [|done]. intros [= <- <-].
      apply IH in Hrun. by rewrite Hdata in Hrun.
    + destruct (exec ops _) as [[rs' q'']|] eqn:Hrun; [|done]. intros [= <- <-].
      apply IH in Hrun. simpl in *. by apply sublist_skip.
Qed.

Lemma exec_fifo ops q rs q' :
  Forall (fun o => ¬ is_clear o) ops →
  exec ops q = Some (rs, q') →
  entries rs ++ Queue._data q' = Queue._data q ++ pushed ops.
Proof.
  intros Hnc. revert q rs q'.
  induction ops as [|o ops IH]; intros q rs q'; simpl.
  - intros [= <- <-]. simpl. by rewrite app_nil_r.
  - inversion_clear Hnc as [|? ? Ho Hops]. specialize (IH Hops).
    destruct o as [[x| |]|]; simpl in *.
    + intros Hrun. apply IH in Hrun. simpl in Hrun. by rewrite <- app_assoc in Hrun.
    + intros Hrun. by apply IH in Hrun.
    + done.
    + unfold Queue.pop. destruct (Queue._data q) as [|x rest] eqn:Hdata.
      * destruct (Queue._completed q); simpl; [|done].
        destruct (exec ops q) as [[rs' q'']|] eqn:Hrun; [|done]. intros [= <- <-].
        apply IH in Hrun. by rewrite Hdata in Hrun.
      * destruct (exec ops _) as [[rs' q'']|] eqn:Hrun; [|done]. intros [= <- <-].
        apply IH in Hrun. simpl in *. by rewrite Hrun.
Qed.

Lemma exec_completed ops q :
  Queue._completed q = true →
  ∃ rs q', exec ops q = Some (rs, q') ∧ Queue._completed q' = true.
Proof.
  revert q. induction ops as [|[[x| |]|] ops IH]; intros q Hc; simpl.
  - eauto.
  - by apply IH.
  - by apply IH.
  - by apply IH.
  - unfold Queue.pop. destruct (Queue._data q) as [|x rest].
    + rewrite Hc. simpl. destruct (IH q Hc) as (rs & q' & -> & Hc'). eauto.
    + destruct (IH (Queue.mk rest (Queue._completed q)) Hc) as (rs & q' & -> & Hc'). eauto.
Qed.

Lemma exec_None_completed ops q rs q' :
  exec ops q = Some (rs, q') → None ∈ rs → Queue._completed q' = true.
Proof.
  revert q rs q'. induction ops as [|[[x| |]|] ops IH]; intros q rs q'; simpl.
  - intros [= <- <-] Hin. by apply elem_of_nil in Hin.
  - intros Hrun Hin. by eapply IH.
  - intros Hrun Hin. by eapply IH.
  - intros Hrun Hin. by eapply IH.
  - unfold Queue.pop. destruct (Queue._data q) as [|x rest].
    + destruct (Queue._completed q) eqn:Hc; simpl; [|done].
      destruct (exec_completed ops q Hc) as (rs' & q'' & Hrun & Hc').
      rewrite Hrun. by intros [= <- <-] _.
    + destruct (exec ops _) as [[rs' q'']|] eqn:Hrun; [|done]. intros [= <- <-] Hin.
      apply elem_of_cons in Hin as [?|Hin]; [done|]. by eapply IH.
Qed.

Lemma exec_length ops q rs q' :
  exec ops q = Some (rs, q') → length rs = length (filter (fun o => is_pop o = true) ops).
Proof.
  revert q rs q'. induction ops as [|[[x| |]|] ops IH]; intros q rs q'; cbn [exec].
  - by intros [= <- <-].
  - rewrite filter_cons_False by done. apply IH.
  - rewrite filter_cons_False by done. apply IH.
  - rewrite filter_cons_False by done. apply IH.
  - rewrite filter_cons_True by done. destruct (Queue.pop q) as [r q1|]; [|done].
    destruct (exec ops q1) as [[rs' q'']|] eqn:Hrun; [|done].
    intros [= <- <-]. simpl. f_equal. by eapply IH.
Qed.

End OpsFacts.

(** X12: for any sequence of [push], [completed], [clear] and [pop]
    calls made one after the other without a [pop] blocking, the entries
    the [pop]s returned, followed by the entries still pending, are a
    subsequence of the entries pending at the start followed by the
    entries pushed: nothing is returned twice, out of order, or without
    having been pushed.  When no [clear] is among the calls nothing is
    lost either: the two sequences are equal (first in, first out).  And
    a [pop] returns [None] only on a queue that is completed. *)
Theorem queue_is_first_in_first_out {A : Type} (ops : list (Ops.op A))
    (q q' : Queue.t A) (rs : list (option A)) :
  Ops.exec ops q = Some (rs, q') →
  Ops.entries rs ++ Queue._data q' `sublist_of` Queue._data q ++ Ops.pushed ops
  ∧ (Forall (fun o => ¬ Ops.is_clear o) ops →
     Ops.entries rs ++ Queue._data q' = Queue._data q ++ Ops.pushed ops)
  ∧ (None ∈ rs → Queue._completed q' = true).
Proof.
  intros Hrun. split; [by apply exec_sublist|]. split.
  - intros Hnc. by apply exec_fifo.
  - by eapply exec_None_completed.
Qed.

Lemma queue_is_first_in_first_out_witness :
  Ops.entries [Some 1%nat; Some 2%nat] ++ [3%nat] = [] ++ [1; 2; 3]%nat.
Proof.
  destruct (queue_is_first_in_first_out
    [Ops.Call (Queue.Push 1%nat); Ops.Call (Queue.Push 2%nat); Ops.Pop;
     Ops.Call (Queue.Push 3%nat); Ops.Pop]
    Queue.init (Queue.mk [3%nat] false) [Some 1%nat; Some 2%nat] eq_refl)
    as (_ & Hfifo & _).
  apply Hfifo. repeat constructor; simpl; tauto.
Defined.

(** *** Once the flag is set *)

Section Flag.
Context {A : Type}.
Import Threads.
Implicit Types (s : state A) (th : thread A).

(** The thread is not in the part of [pop] that leads to [wait] and
    back. *)
Definition outside_wait th : Prop :=
  match th with
  | Popper (PopCondEnter | PopCondWait | PopParked | PopNotified | PopCondLeave) _ => False
  | _ => True
  end.

Definition flagged s : Prop :=
  Queue._completed (queue s) = true ∧ Forall outside_wait (threads s).

Lemma wake_outside_wait (ths : list (thread A)) :
  Forall outside_wait ths → Forall outside_wait (wake <$> ths).
Proof.
  intros Hths. apply Forall_fmap. eapply Forall_impl; [|exact Hths].
  intros th Hth. by destruct th as [[| | |[?|]| | | | | |] ?| | |].
Qed.

Lemma step_flagged s s' (i : nat) : flagged s → step i s = Some s' → flagged s'.
Proof.
  intros [Hc Hw]. unfold step.
  destruct (threads s !! i) as [th|] eqn:Hi; [|done].
  pose proof (proj1 (Forall_lookup _ _) Hw i th Hi) as Hth.
  destruct th as [pc got| | |pc todo]; try done.
  - destruct pc as [| | |[x|]| | | | | |]; simpl in Hth; try done; simpl;
      unfold with_thread; rewrite ?Hc; simpl;
      try (destruct (sem s); [done|]);
      try (destruct (Queue._data (queue s)) as [|y rest]);
      intros [= <-]; (split; [done|]); simpl;
      apply Forall_insert; try done; by case_bool_decide.
  - unfold step_call, step_notify.
    destruct todo as [|[x| |] rest]; destruct pc; simpl;
      try (destruct (sem s); [done|]); try (destruct (cond s); [done|]); try done;
      intros [= <-]; (split; [done|]); simpl;
      apply Forall_insert; try done; by apply wake_outside_wait.
Qed.

Lemma run_flagged (sched : list nat) s s' : flagged s → run sched s = Some s' → flagged s'.
Proof.
  revert s. induction sched as [|i sched IH]; intros s Hf; simpl.
  - by intros [= <-].
  - destruct (step i s) as [s1|] eqn:Hstep; [|done].
    apply IH. by eapply step_flagged.
Qed.

End Flag.

(** X13: no method of the queue ever resets the flag.  For calls made
    one after the other by one thread on a completed queue, whatever they
    are: the queue stays completed and no [pop] blocks; each returns an
    entry or [None].  And for threads that run on a completed queue at
    once, consumers and callers of [push], [completed] and [clear], none
    of them inside the waiting part of [pop] at the start, their
    statements interleaved in any way: the flag stays set and no
    consumer ever reaches [wait].  (A [pop] may still raise IndexError
    there, when a [clear] falls between its test and its take.) *)
Theorem completed_queue_never_blocks {A : Type} (ops : list (Ops.op A)) (q : Queue.t A) :
  Queue._completed q = true →
  (∃ rs q',
     Ops.exec ops q = Some (rs, q')
     ∧ Queue._completed q' = true
     ∧ length rs = length (filter (fun o => Ops.is_pop o = true) ops))
  ∧ (∀ (ths : list (Threads.thread A)) (sched : list nat) (s : Threads.state A),
       Forall outside_wait ths →
       Threads.run sched (Threads.start q ths) = Some s →
       Queue._completed (Threads.queue s) = true
       ∧ Forall outside_wait (Threads.threads s)
       ∧ ∀ i got, Threads.threads s !! i ≠ Some (Threads.Popper Threads.PopParked got)).
Proof.
  intros Hc. split.
  - destruct (exec_completed ops q Hc) as (rs & q' & Hrun & Hc').
    exists rs, q'. split; [done|]. split; [done|]. by eapply exec_length.
  - intros ths sched s Hths Hrun.
    destruct (run_flagged sched _ _ (conj Hc Hths : flagged (Threads.start q ths)) Hrun)
      as [Hc' Hw].
    split; [done|]. split; [done|]. intros i got Hi.
    by pose proof (proj1 (Forall_lookup _ _) Hw i _ Hi).
Qed.

Lemma completed_queue_never_blocks_witness :
  (∃ rs q',
     Ops.exec [Ops.Pop; Ops.Call (Queue.Push 4%nat); Ops.Call Queue.Clear; Ops.Pop;
               Ops.Call (Queue.Push 5%nat); Ops.Pop]
       (Queue.completed (@Queue.init nat)) = Some (rs, q')
     ∧ Queue._completed q' = true ∧ length rs = 3%nat)
  ∧ Queue._completed (Queue.mk [4%nat] true) = true.
Proof.
  destruct (completed_queue_never_blocks
    [Ops.Pop; Ops.Call (Queue.Push 4%nat); Ops.Call Queue.Clear; Ops.Pop;
     Ops.Call (Queue.Push 5%nat); Ops.Pop]
    (Queue.completed (@Queue.init nat)) eq_refl) as [(rs & q' & Hrun & Hc & Hlen) Hthreads].
  split.
  - exists rs, q'. split; [exact Hrun|]. split; [exact Hc|exact Hlen].
  - refine (proj1 (Hthreads
      [Threads.Popper Threads.PopEnter [];
       Threads.Caller Threads.CallEnter [Queue.Push 4%nat; Queue.Clear; Queue.Push 4%nat]]
      [0; 0; 0; 0; 1; 1; 1; 1; 1; 1; 1; 1; 1; 1; 1; 1; 1]%nat
      (Threads.mk (Queue.mk [4%nat] true) 1 None
         [Threads.PopperDone []; Threads.Caller Threads.CallEnter []] []) _ _)).
    + repeat constructor.
    + vm_compute. reflexivity.
Defined.

(** ** The locks of the queue under any interleaving *)

Section Locks.
Context {A : Type}.
Import Threads.
Implicit Types (s : state A) (th : thread A).

(** The thread is inside a [with self._sem:] block. *)
Definition in_sem th : nat :=
  match th with
  | Popper (PopTest | PopTake | PopLeave _) _ => 1
  | Caller (PushAppend | PushLeave) _ => 1
  | _ => 0
  end.

(** The thread is inside a [with self._cond:] block and owns the lock
    (a thread parked in [wait], or notified and not yet running, does
    not). *)
Definition in_cond th : nat :=
  match th with
  | Popper (PopCondWait | PopCondLeave) _ => 1
  | Caller (CondNotify | CondLeave) _ => 1
  | _ => 0
  end.

Definition cond_ok s : Prop :=
  match cond s with
  | None => sum_list_with in_cond (threads s) = 0%nat
  | Some i => sum_list_with in_cond (threads s) = 1%nat
              ∧ ∃ th, threads s !! i = Some th ∧ in_cond th = 1%nat
  end.

Record locks s : Prop := Locks {
  l_sem : (sem s + sum_list_with in_sem (threads s) = 1)%nat;
  l_cond : cond_ok s
}.

(** How a step of thread [i] may change the owner of the condition. *)
Definition cond_step (c c' : option nat) (i a b : nat) : Prop :=
  (c' = c ∧ b = a)
  ∨ (c = None ∧ c' = Some i ∧ a = 0%nat ∧ b = 1%nat)
  ∨ (c' = None ∧ a = 1%nat ∧ b = 0%nat).

Lemma locks_update s (i : nat) th th' (q' : Queue.t A) (sem' : nat) (cond' : option nat)
    (del' : list (nat * A)) :
  locks s → threads s !! i = Some th →
  (sem' + in_sem th' = sem s + in_sem th)%nat →
  cond_step (cond s) cond' i (in_cond th) (in_cond th') →
  locks (mk q' sem' cond' (<[i:=th']> (threads s)) del').
Proof.
  intros [Hs Hc] Hi Hsem Hcond.
  assert (i < length (threads s))%nat as Hlen by (by eapply lookup_lt_Some).
  pose proof (sum_list_with_insert in_sem _ i th th' Hi) as Hsum.
  pose proof (sum_list_with_insert in_cond _ i th th' Hi) as Hsumc.
  constructor; simpl; [lia|].
  unfold cond_ok in *. simpl.
  destruct Hcond as [[-> Hb]|[(Hn & -> & Ha & Hb)|(-> & Ha & Hb)]].
  - destruct (cond s) as [j|]; [|lia].
    destruct Hc as [Hone (thj & Hj & Hthj)]. split; [lia|].
    destruct (decide (j = i)) as [->|Hne].
    + exists th'. rewrite list_lookup_insert_eq by done. split; [done|]. congruence.
    + exists thj. by rewrite list_lookup_insert_ne.
  - rewrite Hn in Hc. split; [lia|]. exists th'. by rewrite list_lookup_insert_eq.
  - destruct (cond s) as [j|].
    + destruct Hc as [Hone _]. lia.
    + pose proof (sum_list_with_in th in_cond (threads s)
                    (list_elem_of_lookup_2 _ _ _ Hi)). lia.
Qed.

Lemma wake_in_sem th : in_sem (wake th) = in_sem th.
Proof. by destruct th as [[| | |[?|]| | | | | |] ?| | |]. Qed.

Lemma wake_in_cond th : in_cond (wake th) = in_cond th.
Proof. by destruct th as [[| | |[?|]| | | | | |] ?| | |]. Qed.

Lemma sum_list_with_fmap_same (f : thread A → nat) (g : thread A → thread A)
    (l : list (thread A)) :
  (∀ th, f (g th) = f th) → sum_list_with f (g <$> l) = sum_list_with f l.
Proof. intros Hfg. induction l as [|th l IH]; csimpl; [done|]. by rewrite Hfg, IH. Qed.

Lemma locks_wake s :
  locks s → locks (mk (queue s) (sem s) (cond s) (wake <$> threads s) (delivered s)).
Proof.
  intros [Hs Hc]. constructor; simpl.
  - by rewrite (sum_list_with_fmap_same in_sem wake _ wake_in_sem).
  - unfold cond_ok in *. simpl.
    rewrite (sum_list_with_fmap_same in_cond wake _ wake_in_cond).
    destruct (cond s) as [j|]; [|done].
    destruct Hc as [Hone (thj & Hj & Hthj)]. split; [done|].
    exists (wake thj). rewrite list_lookup_fmap, Hj. split; [done|].
    by rewrite wake_in_cond.
Qed.

Local Ltac lock_step Hl Hi :=
  eapply (locks_update _ _ _ _ _ _ _ _ Hl Hi);
  [ simpl; lia
  | unfold cond_step; simpl; first [ by left | right; left; by repeat split
                                     | right; right; by repeat split ] ].

(** Every step keeps the lock invariant. *)
Lemma step_locks s s' (i : nat) : locks s → step i s = Some s' → locks s'.
Proof.
  intros Hl. unfold step.
  destruct (threads s !! i) as [th|] eqn:Hi; [|done].
  destruct th as [pc got| | |pc todo]; try done.
  - destruct pc as [| | |[x|]| | | | | |]; simpl.
    + destruct (sem s) as [|m] eqn:Hsem; [done|]. intros [= <-]. lock_step Hl Hi.
    + intros [= <-]. unfold with_thread. case_bool_decide; lock_step Hl Hi.
    + destruct (Queue._data (queue s)); intros [= <-]; lock_step Hl Hi.
    + intros [= <-]. lock_step Hl Hi.
    + intros [= <-]. lock_step Hl Hi.
    + intros [= <-]. unfold with_thread. destruct (negb _); lock_step Hl Hi.
    + destruct (cond s) as [j|] eqn:Hc; [done|]. intros [= <-]. lock_step Hl Hi.
    + intros [= <-]. lock_step Hl Hi.
    + done.
    + destruct (cond s) as [j|] eqn:Hc; [done|]. intros [= <-]. lock_step Hl Hi.
    + intros [= <-]. lock_step Hl Hi.
  - unfold step_call, step_notify.
    destruct todo as [|[x| |] rest]; [done| | |].
    + destruct pc; simpl.
      * destruct (sem s) as [|m] eqn:Hsem; [done|]. intros [= <-]. lock_step Hl Hi.
      * intros [= <-]. lock_step Hl Hi.
      * intros [= <-]. lock_step Hl Hi.
      * destruct (cond s) as [j|] eqn:Hc; [done|]. intros [= <-]. lock_step Hl Hi.
      * intros [= <-].
        eapply (locks_update _ i (Caller CondNotify (Queue.Push x :: rest)) _ _ _ _ _
                  (locks_wake s Hl)); simpl.
        -- by rewrite list_lookup_fmap, Hi.
        -- lia.
        -- by left.
      * intros [= <-]. lock_step Hl Hi.
    + destruct pc; simpl; try done.
      * intros [= <-]. lock_step Hl Hi.
      * destruct (cond s) as [j|] eqn:Hc; [done|]. intros [= <-]. lock_step Hl Hi.
      * intros [= <-].
        eapply (locks_update _ i (Caller CondNotify (Queue.Completed :: rest)) _ _ _ _ _
                  (locks_wake s Hl)); simpl.
        -- by rewrite list_lookup_fmap, Hi.
        -- lia.
        -- by left.
      * intros [= <-]. lock_step Hl Hi.
    + destruct pc; simpl; try done. intros [= <-]. lock_step Hl Hi.
Qed.

Lemma run_locks (sched : list nat) s s' : locks s → run sched s = Some s' → locks s'.
Proof.
  revert s. induction sched as [|i sched IH]; intros s Hl; simpl.
  - by intros [= <-].
  - destruct (step i s) as [s1|] eqn:Hstep; [|done]. intros Hrun.
    eapply IH; [|exact Hrun]. by eapply step_locks.
Qed.

Lemma sum_list_with_zero (f : thread A → nat) (l : list (thread A)) :
  Forall (fun th => f th = 0%nat) l → sum_list_with f l = 0%nat.
Proof. induction 1 as [|th l Hth _ IH]; simpl; [done|]. lia. Qed.

Lemma locks_start (q : Queue.t A) (ths : list (thread A)) :
  Forall (fun th => in_sem th = 0%nat ∧ in_cond th = 0%nat) ths → locks (start q ths).
Proof.
  intros Hrest. constructor; simpl.
  - rewrite sum_list_with_zero; [done|]. eapply Forall_impl; [|exact Hrest]. by intros ? [? ?].
  - unfold cond_ok. simpl. apply sum_list_with_zero.
    eapply Forall_impl; [|exact Hrest]. by intros ? [? ?].
Qed.

Lemma locks_exclusive s (i j : nat) thi thj :
  locks s → i ≠ j → threads s !! i = Some thi → threads s !! j = Some thj →
  (in_sem thi + in_sem thj ≤ 1)%nat ∧ (in_cond thi + in_cond thj ≤ 1)%nat.
Proof.
  intros [Hs Hc] Hne Hi Hj.
  pose proof (sum_list_with_two in_sem _ i j _ _ Hi Hj Hne).
  pose proof (sum_list_with_two in_cond _ i j _ _ Hi Hj Hne).
  split; [lia|]. unfold cond_ok in Hc. destruct (cond s); [destruct Hc|]; lia.
Qed.

End Locks.

(** X14: mutual exclusion.  Start any number of threads on a queue, each
    about to begin a [pop] loop or a list of [push], [completed] and
    [clear] calls, and interleave their statements in any way: in every
    state reached the semaphore's counter is 0 or 1, no two threads are
    inside a [with self._sem:] block at once, and no two threads own the
    condition's lock at once. *)
Theorem critical_sections_exclude_each_other {A : Type} (q : Queue.t A)
    (ths : list (Threads.thread A)) (sched : list nat) (s : Threads.state A) :
  Forall (fun th => in_sem th = 0%nat ∧ in_cond th = 0%nat) ths →
  Threads.run sched (Threads.start q ths) = Some s →
  (Threads.sem s ≤ 1)%nat
  ∧ ∀ i j thi thj,
      i ≠ j → Threads.threads s !! i = Some thi → Threads.threads s !! j = Some thj →
      (in_sem thi + in_sem thj ≤ 1)%nat ∧ (in_cond thi + in_cond thj ≤ 1)%nat.
Proof.
  intros Hrest Hrun.
  pose proof (run_locks sched _ _ (locks_start q ths Hrest) Hrun) as Hl.
  split.
  - pose proof (l_sem s Hl). lia.
  - intros i j thi thj Hne Hi Hj. by eapply locks_exclusive.
Qed.

Lemma critical_sections_exclude_each_other_witness :
  (in_sem (Threads.Popper Threads.PopTake (@nil nat))
   + in_sem (Threads.Caller Threads.CallEnter [Queue.Push 2%nat; Queue.Completed]) ≤ 1)%nat.
Proof.
  destruct (critical_sections_exclude_each_other (Queue.mk [1%nat] false)
    [Threads.Popper Threads.PopEnter [];
     Threads.Caller Threads.CallEnter [Queue.Push 2%nat; Queue.Completed]]
    [0; 0]%nat
    (Threads.mk (Queue.mk [1%nat] false) 0 None
       [Threads.Popper Threads.PopTake [];
        Threads.Caller Threads.CallEnter [Queue.Push 2%nat; Queue.Completed]] []))
    as [_ Hex].
  - repeat constructor.
  - vm_compute. reflexivity.
  - destruct (Hex 0%nat 1%nat _ _ ltac:(lia) eq_refl eq_refl) as [Hsem _]. exact Hsem.
Defined.

(** ** One producer and any number of consumers, interleaved *)

Section Delivery.
Context {A : Type}.
Import Threads.
Implicit Types (s : state A) (th : thread A).

(** The entries the producer pushes in all. *)
Variable P : list A.

(** The entries a list of calls pushes. *)
Definition pushes (todo : list (Queue.call A)) : list A :=
  omap (fun c => match c with Queue.Push x => Some x | _ => None end) todo.

(** The entries the producer has not appended yet. *)
Definition owed (pc : call_pc) (todo : list (Queue.call A)) : list A :=
  match pc with
  | CallEnter | PushAppend => pushes todo
  | _ => pushes (tail todo)
  end.

(** A call of [completed] is still to be started. *)
Definition to_complete (pc : call_pc) (todo : list (Queue.call A)) : Prop :=
  match pc with
  | CallEnter => Queue.Completed ∈ todo
  | _ => Queue.Completed ∈ tail todo
  end.

(** The place of the producer fits the call it is in. *)
Definition caller_ok (pc : call_pc) (todo : list (Queue.call A)) : Prop :=
  match pc, todo with
  | CallEnter, _ => True
  | (PushAppend | PushLeave), Queue.Push _ :: _ => True
  | (CondEnter | CondNotify | CondLeave), (Queue.Push _ | Queue.Completed) :: _ => True
  | _, _ => False
  end.

Definition consumer th : Prop :=
  match th with Popper _ _ | PopperDone _ => True | _ => False end.

Record cinv s : Prop := CInv {
  c_locks : locks s;
  c_caller : ∃ pc todo,
      threads s !! 0%nat = Some (Caller pc todo) ∧ caller_ok pc todo
      ∧ Forall (fun c => c ≠ Queue.Clear) todo
      ∧ (delivered s).*2 ++ Queue._data (queue s) ++ owed pc todo = P
      ∧ (Queue._completed (queue s) = true ∨ to_complete pc todo);
  c_consumers : ∀ i th, threads s !! i = Some th → i ≠ 0%nat → consumer th;
  c_taking : Queue._data (queue s) ≠ [] ∨ Forall (fun th => taking th = false) (threads s);
  c_received : ∀ i th, threads s !! i = Some th →
               received th = (filter (fun e => e.1 = i) (delivered s)).*2;
  c_perm : concat (received <$> threads s) ≡ₚ (delivered s).*2
}.

Lemma consumer_not_first s (i : nat) th :
  cinv s → threads s !! i = Some th → consumer th → i ≠ 0%nat.
Proof.
  intros Hinv Hi Hth ->. destruct (c_caller s Hinv) as (pc & todo & H0 & _).
  rewrite H0 in Hi. injection Hi as <-. done.
Qed.

Lemma caller_is_first s (i : nat) (pc : call_pc) (todo : list (Queue.call A)) :
  cinv s → threads s !! i = Some (Caller pc todo) → i = 0%nat.
Proof.
  intros Hinv Hi. destruct (decide (i = 0%nat)) as [|Hne]; [done|].
  by pose proof (c_consumers s Hinv i _ Hi Hne).
Qed.

(** A step of a consumer that touches neither the pending entries nor
    the history. *)
Lemma cinv_consumer_local s (i : nat) th th' (sem' : nat) (cond' : option nat) :
  cinv s → threads s !! i = Some th → consumer th → consumer th' →
  received th' = received th →
  (sem' + in_sem th' = sem s + in_sem th)%nat →
  cond_step (cond s) cond' i (in_cond th) (in_cond th') →
  (taking th' = true → Queue._data (queue s) ≠ []) →
  cinv (mk (queue s) sem' cond' (<[i:=th']> (threads s)) (delivered s)).
Proof.
  intros Hinv Hi Hth Hth' Hrecv Hsem Hcond Htake.
  pose proof (consumer_not_first s i th Hinv Hi Hth) as Hne.
  destruct Hinv as [Hl Hc Hcs Ht Hr Hp].
  constructor; simpl.
  - by eapply locks_update.
  - destruct Hc as (pc & todo & H0 & Hrest). exists pc, todo.
    by rewrite list_lookup_insert_ne.
  - apply (lookup_insert_cases (fun j x => j ≠ 0%nat → consumer x)); [|done].
    intros j x Hj _ ?. by eapply Hcs.
  - destruct (taking th') eqn:Ht'; [left; auto|].
    destruct Ht as [?|Ht]; [by left|right]. by apply Forall_insert.
  - apply lookup_insert_cases.
    + intros j x Hj _. by apply Hr.
    + rewrite Hrecv. by apply Hr.
  - rewrite (concat_fmap_insert received _ i th th' []); [by rewrite app_nil_r|done|].
    by rewrite app_nil_r.
Qed.

(** A step of the producer that leaves the pending entries as they are. *)
Lemma cinv_caller_local s (pc pc' : call_pc) (todo todo' : list (Queue.call A))
    (flag' : bool) (sem' : nat) (cond' : option nat) :
  cinv s → threads s !! 0%nat = Some (Caller pc todo) →
  caller_ok pc' todo' → Forall (fun c => c ≠ Queue.Clear) todo' →
  owed pc' todo' = owed pc todo →
  (flag' = true ∨ to_complete pc' todo') →
  (sem' + in_sem (Caller pc' todo') = sem s + in_sem (Caller pc todo))%nat →
  cond_step (cond s) cond' 0 (in_cond (Caller pc todo)) (in_cond (Caller pc' todo')) →
  cinv (mk (Queue.mk (Queue._data (queue s)) flag') sem' cond'
           (<[0%nat:=Caller pc' todo']> (threads s)) (delivered s)).
Proof.
  intros Hinv H0 Hok Hnc Howed Hflag Hsem Hcond.
  assert (0 < length (threads s))%nat as Hlen by (by eapply lookup_lt_Some).
  destruct Hinv as [Hl Hc Hcs Ht Hr Hp].
  constructor; simpl.
  - by eapply locks_update.
  - destruct Hc as (pc0 & todo0 & H0' & _ & _ & Horder & _).
    rewrite H0 in H0'. injection H0' as <- <-.
    exists pc', todo'. rewrite list_lookup_insert_eq by done.
    repeat split; try done. by rewrite Howed.
  - apply (lookup_insert_cases (fun j x => j ≠ 0%nat → consumer x)); [|done].
    intros j x Hj _ ?. by eapply Hcs.
  - destruct Ht as [?|Ht]; [by left|right]. by apply Forall_insert.
  - apply lookup_insert_cases.
    + intros j x Hj _. by apply Hr.
    + simpl. by rewrite <- (Hr 0%nat _ H0).
  - rewrite (concat_fmap_insert received _ 0 _ (Caller pc' todo') [] H0);
      by rewrite ?app_nil_r.
Qed.

Lemma wake_taking th : taking (wake th) = taking th.
Proof. by destruct th as [[| | |[?|]| | | | | |] ?| | |]. Qed.

Lemma wake_received th : received (wake th) = received th.
Proof. by destruct th as [[| | |[?|]| | | | | |] ?| | |]. Qed.

Lemma wake_consumer th : consumer th → consumer (wake th).
Proof. by destruct th as [[| | |[?|]| | | | | |] ?| | |]. Qed.

Lemma cinv_wake s :
  cinv s → cinv (mk (queue s) (sem s) (cond s) (wake <$> threads s) (delivered s)).
Proof.
  intros [Hl Hc Hcs Ht Hr Hp]. constructor; simpl.
  - by apply locks_wake.
  - destruct Hc as (pc & todo & H0 & Hrest). exists pc, todo.
    by rewrite list_lookup_fmap, H0.
  - intros i th Hi Hne. rewrite list_lookup_fmap in Hi.
    destruct (threads s !! i) as [th0|] eqn:Hi0; [|done]. injection Hi as <-.
    apply wake_consumer. by eapply Hcs.
  - destruct Ht as [?|Ht]; [by left|right]. apply Forall_fmap.
    eapply Forall_impl; [|exact Ht]. intros th Hth. simpl. by rewrite wake_taking.
  - intros i th Hi. rewrite list_lookup_fmap in Hi.
    destruct (threads s !! i) as [th0|] eqn:Hi0; [|done]. injection Hi as <-.
    rewrite wake_received. by apply Hr.
  - rewrite <- list_fmap_compose.
    rewrite (list_fmap_ext (received ∘ wake) received (threads s)); [done|].
    intros i th _. simpl. apply wake_received.
Qed.

(** The take by a consumer. *)
Lemma cinv_take s (i : nat) (got : list A) (x : A) (rest : list A) :
  cinv s → threads s !! i = Some (Popper PopTake got) →
  Queue._data (queue s) = x :: rest →
  cinv (mk (Queue.mk rest (Queue._completed (queue s))) (sem s) (cond s)
          (<[i:=Popper (PopLeave (Some x)) got]> (threads s))
          (delivered s ++ [(i, x)])).
Proof.
  intros Hinv Hi Hdata.
  pose proof (consumer_not_first s i _ Hinv Hi I) as Hne.
  destruct Hinv as [Hl Hc Hcs Ht Hr Hp].
  constructor; simpl.
  - eapply locks_update; [done|exact Hi|simpl; lia|by left].
  - destruct Hc as (pc & todo & H0 & Hok & Hnc & Horder & Hflag). exists pc, todo.
    rewrite list_lookup_insert_ne by done. repeat split; try done.
    rewrite Hdata in Horder. rewrite fmap_app, <- app_assoc. exact Horder.
  - apply (lookup_insert_cases (fun j x => j ≠ 0%nat → consumer x)); [|done].
    intros j y Hj _ ?. by eapply Hcs.
  - right. apply Forall_lookup. apply lookup_insert_cases; [|done].
    intros j th Hj Hne'. destruct (taking th) eqn:Htk; [|done].
    pose proof (sum_list_with_two in_sem _ i j _ _ Hi Hj (not_eq_sym Hne')) as Htwo.
    pose proof (l_sem s Hl).
    destruct th as [[] ?| | |]; simpl in *; try done. lia.
  - apply lookup_insert_cases.
    + intros j th Hj Hne'. rewrite list.filter_app, filter_cons, filter_nil. simpl.
      rewrite decide_False by done. rewrite app_nil_r. by apply Hr.
    + rewrite list.filter_app, filter_cons, filter_nil. simpl.
      rewrite decide_True by done. rewrite fmap_app. simpl.
      by rewrite <- (Hr i _ Hi).
  - rewrite (concat_fmap_insert received _ i _ _ [x] Hi) by done.
    rewrite fmap_app. simpl. by rewrite Hp.
Qed.

(** The append by the producer. *)
Lemma cinv_append s (x : A) (rest : list (Queue.call A)) :
  cinv s → threads s !! 0%nat = Some (Caller PushAppend (Queue.Push x :: rest)) →
  cinv (mk (Queue.mk (Queue._data (queue s) ++ [x]) (Queue._completed (queue s)))
          (sem s) (cond s)
          (<[0%nat:=Caller PushLeave (Queue.Push x :: rest)]> (threads s)) (delivered s)).
Proof.
  intros Hinv H0.
  assert (0 < length (threads s))%nat as Hlen by (by eapply lookup_lt_Some).
  destruct Hinv as [Hl Hc Hcs Ht Hr Hp].
  constructor; simpl.
  - eapply locks_update; [done|exact H0|simpl; lia|by left].
  - destruct Hc as (pc0 & todo0 & H0' & _ & Hnc & Horder & Hflag).
    rewrite H0 in H0'. injection H0' as <- <-.
    exists PushLeave, (Queue.Push x :: rest). rewrite list_lookup_insert_eq by done.
    repeat split; try done. simpl in *. by rewrite <- !app_assoc.
  - apply (lookup_insert_cases (fun j x => j ≠ 0%nat → consumer x)); [|done].
    intros j y Hj _ ?. by eapply Hcs.
  - left. by destruct (Queue._data (queue s)).
  - apply lookup_insert_cases.
    + intros j y Hj _. by apply Hr.
    + simpl. by rewrite <- (Hr 0%nat _ H0).
  - rewrite (concat_fmap_insert received _ 0 _ _ [] H0); by rewrite ?app_nil_r.
Qed.

Local Ltac pick_cond_step :=
  unfold cond_step; simpl;
  first [ by left | right; left; by repeat split | right; right; by repeat split ].

Local Ltac consumer_step Hinv Hi :=
  eapply (cinv_consumer_local _ _ _ _ _ _ Hinv Hi);
  [ done | done | done | simpl; lia | pick_cond_step
  | first [ done | intros _; assumption ] ].

(** Every step keeps the invariant. *)
Lemma step_cinv s s' (i : nat) : cinv s → step i s = Some s' → cinv s'.
Proof.
  intros Hinv. unfold step.
  destruct (threads s !! i) as [th|] eqn:Hi; [|done].
  destruct th as [pc got| | |pc todo]; try done.
  - destruct pc as [| | |[x|]| | | | | |]; simpl.
    + destruct (sem s) as [|m] eqn:Hsem; [done|]. intros [= <-]. consumer_step Hinv Hi.
    + intros [= <-]. unfold with_thread. case_bool_decide as Hdata; consumer_step Hinv Hi.
    + destruct (Queue._data (queue s)) as [|x rest] eqn:Hdata.
      { destruct (c_taking s Hinv) as [?|Ht]; [done|].
        pose proof (proj1 (Forall_lookup _ _) Ht i _ Hi). done. }
      intros [= <-]. by apply cinv_take.
    + intros [= <-]. consumer_step Hinv Hi.
    + intros [= <-]. consumer_step Hinv Hi.
    + intros [= <-]. unfold with_thread. destruct (negb _); consumer_step Hinv Hi.
    + destruct (cond s) as [j|] eqn:Hc; [done|]. intros [= <-]. consumer_step Hinv Hi.
    + intros [= <-]. consumer_step Hinv Hi.
    + done.
    + destruct (cond s) as [j|] eqn:Hc; [done|]. intros [= <-]. consumer_step Hinv Hi.
    + intros [= <-]. consumer_step Hinv Hi.
  - pose proof (caller_is_first s i pc todo Hinv Hi) as ->.
    destruct (c_caller s Hinv) as (pc0 & todo0 & H0 & Hok & Hnc & Horder & Hflag).
    rewrite Hi in H0. injection H0 as <- <-.
    destruct s as [[d c] sm cd ths del]. simpl in *.
    unfold step_call, step_notify. simpl.
    destruct todo as [|[x| |] rest]; [done| | |].
    + inversion_clear Hnc as [|? ? _ Hrest].
      assert (c = true ∨ Queue.Completed ∈ rest) as Hflag'.
      { destruct Hflag as [?|Hin]; [by left|right].
        destruct pc; simpl in Hin; try done.
        by apply elem_of_cons in Hin as [?|?]. }
      destruct pc; simpl.
      * destruct sm as [|m]; [done|]. intros [= <-].
        eapply (cinv_caller_local _ CallEnter PushAppend _ _ c _ _ Hinv Hi);
          [done|by constructor|done|done|simpl; lia|pick_cond_step].
      * intros [= <-]. by apply (cinv_append _ x rest Hinv Hi).
      * intros [= <-].
        eapply (cinv_caller_local _ PushLeave CondEnter _ _ c _ _ Hinv Hi);
          [done|by constructor|done|done|simpl; lia|pick_cond_step].
      * destruct cd as [j|]; [done|]. intros [= <-].
        eapply (cinv_caller_local _ CondEnter CondNotify _ _ c _ _ Hinv Hi);
          [done|by constructor|done|done|simpl; lia|pick_cond_step].
      * intros [= <-].
        eapply (cinv_caller_local _ CondNotify CondLeave _ _ c _ _ (cinv_wake _ Hinv));
          [simpl; by rewrite list_lookup_fmap, Hi|done|by constructor|done|done
          |simpl; lia|pick_cond_step].
      * intros [= <-].
        eapply (cinv_caller_local _ CondLeave CallEnter _ _ c _ _ Hinv Hi);
          [done|done|done|done|simpl; lia|pick_cond_step].
    + inversion_clear Hnc as [|? ? _ Hrest].
      destruct pc; simpl; try done.
      * intros [= <-].
        eapply (cinv_caller_local _ CallEnter CondEnter _ _ true _ _ Hinv Hi);
          [done|by constructor|done|by left|simpl; lia|pick_cond_step].
      * destruct cd as [j|]; [done|]. intros [= <-].
        eapply (cinv_caller_local _ CondEnter CondNotify _ _ c _ _ Hinv Hi);
          [done|by constructor|done|done|simpl; lia|pick_cond_step].
      * intros [= <-].
        eapply (cinv_caller_local _ CondNotify CondLeave _ _ c _ _ (cinv_wake _ Hinv));
          [simpl; by rewrite list_lookup_fmap, Hi|done|by constructor|done|done
          |simpl; lia|pick_cond_step].
      * intros [= <-].
        eapply (cinv_caller_local _ CondLeave CallEnter _ _ c _ _ Hinv Hi);
          [done|done|done|done|simpl; lia|pick_cond_step].
    + inversion_clear Hnc as [|? ? Hx Hrest]. done.
Qed.

Lemma run_cinv (sched : list nat) s s' : cinv s → run sched s = Some s' → cinv s'.
Proof.
  revert s. induction sched as [|i sched IH]; intros s Hinv; simpl.
  - by intros [= <-].
  - destruct (step i s) as [s1|] eqn:Hstep; [|done]. intros Hrun.
    eapply IH; [|exact Hrun]. by eapply step_cinv.
Qed.

(** A thread inside one of the two blocks can always go on. *)
Lemma inside_can_step s (k : nat) th :
  cinv s → threads s !! k = Some th →
  (0 < in_sem th)%nat ∨ (0 < in_cond th)%nat → ∃ s', step k s = Some s'.
Proof.
  intros Hinv Hk Hin. unfold step. rewrite Hk.
  destruct th as [pc got| | |pc todo]; simpl in Hin; try lia.
  - destruct pc as [| | |[x|]| | | | | |]; simpl in *; try lia; eauto.
    destruct (Queue._data (queue s)); eauto.
  - pose proof (caller_is_first s k pc todo Hinv Hk) as ->.
    destruct (c_caller s Hinv) as (pc0 & todo0 & H0 & Hok & _).
    rewrite Hk in H0. injection H0 as <- <-.
    unfold step_call, step_notify.
    destruct pc; simpl in *; try lia; destruct todo as [|[x| |] rest]; try done; eauto.
Qed.

(** The states in which no thread can move. *)
Lemma stuck_cinv s :
  cinv s → stuck s →
  threads s !! 0%nat = Some (Caller CallEnter [])
  ∧ Queue._completed (queue s) = true
  ∧ (delivered s).*2 ++ Queue._data (queue s) = P
  ∧ ∀ i th, threads s !! i = Some th → i ≠ 0%nat →
            ∃ got, th = PopperDone got ∨ th = Popper PopParked got.
Proof.
  intros Hinv Hstuck.
  assert (sum_list_with in_sem (threads s) = 0%nat) as Hnosem.
  { destruct (decide (0 < sum_list_with in_sem (threads s))%nat) as [Hpos|]; [|lia].
    destruct (sum_list_with_pos in_sem _ Hpos) as (k & th & Hk & Hth).
    destruct (inside_can_step s k th Hinv Hk) as [s' Hs']; [by left|].
    by rewrite Hstuck in Hs'. }
  assert (sem s = 1%nat) as Hsem.
  { pose proof (l_sem s (c_locks s Hinv)). lia. }
  assert (cond s = None) as Hcond.
  { pose proof (l_cond s (c_locks s Hinv)) as Hc. unfold cond_ok in Hc.
    destruct (cond s) as [j|]; [|done]. destruct Hc as (_ & th & Hj & Hth).
    destruct (inside_can_step s j th Hinv Hj) as [s' Hs']; [right; lia|].
    by rewrite Hstuck in Hs'. }
  destruct (c_caller s Hinv) as (pc & todo & H0 & Hok & Hnc & Horder & Hflag).
  assert (pc = CallEnter ∧ todo = []) as [-> ->].
  { pose proof (Hstuck 0%nat) as Hs. unfold step in Hs. rewrite H0 in Hs.
    unfold step_call, step_notify in Hs. rewrite Hsem, Hcond in Hs.
    destruct todo as [|[x| |] rest]; destruct pc; simpl in *; done. }
  split; [done|]. simpl in *. split.
  { destruct Hflag as [?|Hin]; [done|]. by apply elem_of_nil in Hin. }
  split; [by rewrite app_nil_r in Horder|].
  intros i th Hi Hne. pose proof (c_consumers s Hinv i th Hi Hne) as Hth.
  pose proof (Hstuck i) as Hs. unfold step in Hs. rewrite Hi in Hs.
  destruct th as [pc got|got| |]; try done; [|eauto].
  exists got. destruct pc as [| | |[x|]| | | | | |]; simpl in Hs;
    rewrite ?Hsem, ?Hcond in Hs; try done; eauto.
  destruct (Queue._data (queue s)); done.
Qed.

Lemma pushes_fmap_Push (l : list A) (todo : list (Queue.call A)) :
  pushes ((Queue.Push <$> l) ++ todo) = l ++ pushes todo.
Proof. induction l as [|x l IH]; simpl; [done|]. by rewrite <- IH. Qed.

End Delivery.

Section DeliveryStart.
Context {A : Type}.
Import Threads.

Lemma concat_replicate_nil {B : Type} (k : nat) : concat (replicate k (@nil B)) = [].
Proof. induction k as [|k IH]; simpl; done. Qed.

(** The producer about to make its calls and [n] consumers about to
    pop, on a new queue. *)
Lemma cinv_start (P : list A) (n : nat) :
  cinv P (start Queue.init
            (Caller CallEnter ((Queue.Push <$> P) ++ [Queue.Completed]) :: poppers n)).
Proof.
  constructor; simpl.
  - apply locks_start. constructor; [done|]. by apply Forall_replicate.
  - eexists _, _. split; [reflexivity|]. split; [done|]. split; [|split].
    + apply Forall_app. split; [|by repeat constructor].
      apply Forall_fmap. by apply Forall_true.
    + unfold owed. rewrite pushes_fmap_Push. simpl. by rewrite app_nil_r.
    + right. simpl. apply elem_of_app. right. apply list_elem_of_here.
  - intros [|i] th Hi Hne; [done|]. simpl in Hi.
    apply lookup_replicate_1 in Hi as [-> _]. done.
  - right. constructor; [done|]. by apply Forall_replicate.
  - intros [|i] th Hi; simpl in Hi.
    + by injection Hi as <-.
    + apply lookup_replicate_1 in Hi as [-> _]. done.
  - unfold poppers. rewrite fmap_replicate. simpl. by rewrite concat_replicate_nil.
Qed.

End DeliveryStart.

(** X15: the coordinator's calls ([push] for each entry of [P], then
    [completed]) running while [n] consumers pop, all statements
    interleaved in any way.  In every state reached, the entries taken so
    far, in the order of the takes, followed by the pending entries, are
    a beginning of [P]: entries are taken in the order pushed, none is
    taken twice and none that was not pushed; every entry taken is with
    exactly one consumer; no [pop] has raised.  And the threads can come
    to a standstill only with the producer through all its calls, the
    queue completed, and every consumer either finished or parked in
    [wait]: there is no deadlock on the semaphore or on the condition's
    lock, parked consumers are the only way to hang, and in such a state
    the entries not delivered are still in the queue. *)
Theorem interleaved_delivery_is_safe {A : Type} (P : list A) (n : nat)
    (sched : list nat) (s : Threads.state A) :
  Threads.run sched
    (Threads.start Queue.init
       (Threads.Caller Threads.CallEnter ((Queue.Push <$> P) ++ [Queue.Completed])
        :: Threads.poppers n)) = Some s →
  (∃ rest, (Threads.delivered s).*2 ++ Queue._data (Threads.queue s) ++ rest = P)
  ∧ concat (Threads.received <$> Threads.threads s) ≡ₚ (Threads.delivered s).*2
  ∧ (∀ i th, Threads.threads s !! i = Some th →
       Threads.received th `sublist_of` P ∧ ∀ got, th ≠ Threads.PopperRaised got)
  ∧ (Threads.stuck s →
       Threads.threads s !! 0%nat = Some (Threads.Caller Threads.CallEnter [])
       ∧ Queue._completed (Threads.queue s) = true
       ∧ (Threads.delivered s).*2 ++ Queue._data (Threads.queue s) = P
       ∧ ∀ i th, Threads.threads s !! i = Some th → i ≠ 0%nat →
                 ∃ got, th = Threads.PopperDone got
                        ∨ th = Threads.Popper Threads.PopParked got).
Proof.
  intros Hrun.
  pose proof (run_cinv P sched _ _ (cinv_start P n) Hrun) as Hinv.
  destruct (c_caller P s Hinv) as (pc & todo & H0 & Hok & Hnc & Horder & Hflag).
  split; [by eexists|]. split; [by apply (c_perm P s Hinv)|]. split.
  - intros i th Hi. split.
    + rewrite (c_received P s Hinv i th Hi), <- Horder.
      apply sublist_inserts_r. apply fmap_sublist, sublist_filter.
    + intros got ->. destruct (decide (i = 0%nat)) as [->|Hne].
      * by rewrite H0 in Hi.
      * by pose proof (c_consumers P s Hinv i _ Hi Hne).
  - intros Hstuck. by apply stuck_cinv.
Qed.

Lemma interleaved_delivery_is_safe_witness :
  [(1%nat, 7%nat)].*2 ++ Queue._data (Queue.mk [8%nat] true) = [7; 8]%nat.
Proof.
  destruct (interleaved_delivery_is_safe [7; 8]%nat 1
    [0; 0; 0; 0; 0; 0; 1; 1; 1; 1; 1; 1; 1; 1;
     0; 0; 0; 0; 0; 0; 0; 0; 0; 0; 1; 1]%nat
    (Threads.mk (Queue.mk [8%nat] true) 1 None
       [Threads.Caller Threads.CallEnter []; Threads.Popper Threads.PopParked [7%nat]]
       [(1%nat, 7%nat)])) as (_ & _ & _ & Hend).
  - vm_compute. reflexivity.
  - destruct Hend as (_ & _ & Horder & _); [|exact Horder].
    intros [|[|i]]; vm_compute; reflexivity.
Defined.

(** ** A consumer that is already waiting when the notification comes *)

Section Wakeup.
Context {A : Type}.
Import Threads.

(** [completed], run by a caller that nothing interrupts: four
    statements, after which the flag is set and the parked threads have
    been notified.  It never touches the semaphore. *)
Lemma run_completed_alone (s : state A) (j : nat) (todo : list (Queue.call A)) :
  threads s !! j = Some (Caller CallEnter (Queue.Completed :: todo)) →
  cond s = None →
  run [j; j; j; j] s
  = Some (mk (Queue.completed (queue s)) (sem s) None
             (<[j:=Caller CallEnter todo]> (wake <$> threads s)) (delivered s)).
Proof.
  intros Hj Hcond.
  assert (j < length (threads s))%nat as Hlen by (by eapply lookup_lt_Some).
  destruct s as [q m c ths del]; simpl in *. subst c.
  unfold run, step; simpl. rewrite Hj; simpl.
  rewrite list_lookup_insert_eq by done; simpl.
  rewrite list_lookup_insert_eq by (by rewrite !length_insert); simpl.
  rewrite list_lookup_insert_eq by (by rewrite length_fmap, !length_insert).
  simpl. rewrite !list_insert_insert_eq, list_fmap_insert, !list_insert_insert_eq.
  done.
Qed.

(** A notified consumer takes the condition's lock again, leaves the
    block and is back at the head of the loop of [pop]. *)
Lemma run_notified_alone (s : state A) (i : nat) (got : list A) :
  threads s !! i = Some (Popper PopNotified got) → cond s = None →
  run [i; i] s
  = Some (mk (queue s) (sem s) None (<[i:=Popper PopEnter got]> (threads s))
             (delivered s)).
Proof.
  intros Hi Hcond.
  assert (i < length (threads s))%nat as Hlen by (by eapply lookup_lt_Some).
  destruct s as [q m c ths del]; simpl in *. subst c.
  unfold run, step; simpl. rewrite Hi; simpl.
  rewrite list_lookup_insert_eq by done; simpl.
  by rewrite !list_insert_insert_eq.
Qed.

Lemma lookup_woken (ths : list (thread A)) (i j : nat) (got : list A) (th : thread A) :
  ths !! i = Some (Popper PopParked got) → i ≠ j →
  <[j:=th]> (wake <$> ths) !! i = Some (Popper PopNotified got).
Proof.
  intros Hi Hne. rewrite list_lookup_insert_ne by done.
  by rewrite list_lookup_fmap, Hi.
Qed.

End Wakeup.

(** X16: a consumer that is parked in [wait] when the producer starts its
    call is not missed.  With the semaphore and the condition's lock free
    and nothing pending: after the six statements of [push x] and six of
    the consumer (out of [wait], round the loop, the take), [x] has been
    handed to that consumer and the queue is empty again; after the four
    statements of [completed] and six of the consumer, its [pop] has
    returned [None] with nothing delivered.  Every other parked thread has
    been notified as well. *)
Theorem parked_consumer_is_woken {A : Type} (s : Threads.state A) (i j : nat)
    (got : list A) (c : Queue.call A) (todo : list (Queue.call A)) :
  Threads.threads s !! i = Some (Threads.Popper Threads.PopParked got) →
  Threads.threads s !! j = Some (Threads.Caller Threads.CallEnter (c :: todo)) →
  (0 < Threads.sem s)%nat → Threads.cond s = None →
  Queue._data (Threads.queue s) = [] →
  match c with
  | Queue.Push x =>
      Threads.run (replicate 6 j ++ replicate 6 i) s
      = Some (Threads.mk (Queue.mk [] (Queue._completed (Threads.queue s)))
                (Threads.sem s) None
                (<[i:=Threads.Popper Threads.PopEnter (got ++ [x])]>
                   (<[j:=Threads.Caller Threads.CallEnter todo]>
                      (Threads.wake <$> Threads.threads s)))
                (Threads.delivered s ++ [(i, x)]))
  | Queue.Completed =>
      Threads.run (replicate 4 j ++ replicate 6 i) s
      = Some (Threads.mk (Queue.mk [] true) (Threads.sem s) None
                (<[i:=Threads.PopperDone got]>
                   (<[j:=Threads.Caller Threads.CallEnter todo]>
                      (Threads.wake <$> Threads.threads s)))
                (Threads.delivered s))
  | Queue.Clear => True
  end.
Proof.
  intros Hi Hj Hsem Hcond Hdata.
  assert (i ≠ j) as Hne by (intros ->; rewrite Hi in Hj; done).
  assert (i < length (<[j:=Threads.Caller Threads.CallEnter todo]>
                       (Threads.wake <$> Threads.threads s)))%nat as Hlen.
  { rewrite length_insert, length_fmap. by eapply lookup_lt_Some. }
  destruct c as [x| |]; [| |done].
  - rewrite (run_app_Some _ _ _ _ (run_push_alone s j x todo Hj Hsem Hcond)).
    change (replicate 6 i) with ([i; i] ++ [i; i; i; i]).
    erewrite run_app_Some;
      [|apply run_notified_alone; [by apply lookup_woken|done]].
    erewrite run_pop_head_alone.
    + simpl. by rewrite list_insert_insert_eq.
    + simpl. by apply list_lookup_insert_eq.
    + done.
    + simpl. by rewrite Hdata.
  - rewrite (run_app_Some _ _ _ _ (run_completed_alone s j todo Hj Hcond)).
    change (replicate 6 i) with ([i; i] ++ [i; i; i; i]).
    erewrite run_app_Some;
      [|apply run_notified_alone; [by apply lookup_woken|done]].
    erewrite run_pop_none.
    + unfold Threads.with_thread, Queue.completed; simpl.
      rewrite list_insert_insert_eq, Hdata. reflexivity.
    + done.
    + done.
    + simpl. by apply list_lookup_insert_eq.
    + done.
Qed.

Lemma parked_consumer_is_woken_witness :
  Threads.run (replicate 6 1%nat ++ replicate 6 0%nat)
    (Threads.mk (Queue.mk [] false) 1 None
       [Threads.Popper Threads.PopParked [3%nat];
        Threads.Caller Threads.CallEnter [Queue.Push 5%nat; Queue.Completed]] [])
  = Some (Threads.mk (Queue.mk [] false) 1 None
            [Threads.Popper Threads.PopEnter [3; 5]%nat;
             Threads.Caller Threads.CallEnter [Queue.Completed]]
            [(0%nat, 5%nat)]).
Proof.
  exact (parked_consumer_is_woken
           (Threads.mk (Queue.mk [] false) 1 None
              [Threads.Popper Threads.PopParked [3%nat];
               Threads.Caller Threads.CallEnter [Queue.Push 5%nat; Queue.Completed]] [])
           0 1 [3%nat] (Queue.Push 5%nat) [Queue.Completed]
           eq_refl eq_refl (le_n 1) eq_refl eq_refl).
Defined.
